(** * Memo-style PDF cleanup: a shallow embedding of [main.py]

    The development follows the layout of the Python module: the
    configuration constants, the retry wrapper [robust_api_call], the
    name matcher [is_target_file], the paginated scanner
    [scan_target_folder], the batch deleter [turbo_delete_files], the
    folder reclaimer [clean_empty_folders] and the driver [main].

    Conventions of the embedding.
    - A Python [str] is a [string]; every [ascii] stands for one code
      point below 256.  On that range the [re] module's IGNORECASE flag
      only identifies [A-Z] with [a-z], and the class [\s] is the set
      given by [is_space].
    - The Dropbox client, the console and the clock are the outside
      world: an abstract state [W] with one transition function per
      remote call.  Every effectful function returns the new world, the
      events it emitted in chronological order and its outcome.
    - Python exceptions are values of [exn]; [Raise] is an exception
      leaving the function.  [OutOfFuel] marks a run that was still
      going when the loop bound ran out: the bound the caller gives
      for the scanner's [while True], and a bound that only a loop
      without end exceeds for the ancestor walk of the reclaimer.
    - [os.path.dirname] is the POSIX one.
    - Waits are rationals: every float the program computes from
      [INITIAL_TIMEOUT], [BACKOFF_FACTOR] and [API_DELAY] is a dyadic
      number that binary floating point represents exactly.
    - The worker threads of [ThreadPoolExecutor] take their steps in
      the order the world's [thread_schedule] gives.  Whatever that
      order, a task runs only while fewer than [MAX_THREADS] of the
      tasks submitted before it are unfinished, the results are consumed
      in submission order, and the first exception consumed cancels
      the tasks that no worker has taken.
    - A Python [set] is iterated in an order the program does not
      choose: the world's [set_order].
    - [print] calls are left out; [logger] calls are events. *)

From Stdlib Require Import List Bool Arith Lia ZArith QArith Qpower.
From Stdlib Require Import Ascii String.
From Stdlib Require Import Permutation Sorted.
Import ListNotations.

Local Open Scope string_scope.
Local Open Scope list_scope.
Local Open Scope nat_scope.

(* ================================================================= *)
(** ** Strings *)

Module Str.

(** [str.lower()] restricted to the letters the program compares:
    [A-Z] go to [a-z], every other code point below 256 that matters
    to the patterns is left alone. *)
Definition lower_char (c : ascii) : ascii :=
  let n := nat_of_ascii c in
  if (65 <=? n) && (n <=? 90) then ascii_of_nat (n + 32) else c.

Fixpoint lower (s : string) : string :=
  match s with
  | EmptyString => EmptyString
  | String c s' => String (lower_char c) (lower s')
  end.

(** [s.startswith(p)] *)
Definition startswith (s p : string) : bool := String.prefix p s.

(** Python's [all(p(c) for c in s)] over the characters of a string. *)
Fixpoint all (p : ascii -> bool) (s : string) : bool :=
  match s with
  | EmptyString => true
  | String c s' => p c && all p s'
  end.

(** [c in s] for a single character *)
Fixpoint mem (c : ascii) (s : string) : bool :=
  match s with
  | EmptyString => false
  | String d s' => Ascii.eqb c d || mem c s'
  end.

Definition slash : ascii := "/"%char.
Definition newline : ascii := "010"%char.

(** [s.rstrip('/')] *)
Fixpoint rstrip_slash (s : string) : string :=
  match s with
  | EmptyString => EmptyString
  | String c s' =>
      match rstrip_slash s' with
      | EmptyString => if Ascii.eqb c slash then EmptyString
                       else String c EmptyString
      | r => String c r
      end
  end.

(** [p[:p.rfind('/') + 1]] *)
Fixpoint head_upto_last_slash (p : string) : string :=
  match p with
  | EmptyString => EmptyString
  | String c p' =>
      if mem slash p' then String c (head_upto_last_slash p')
      else if Ascii.eqb c slash then String c EmptyString
      else EmptyString
  end.

(** [posixpath.dirname]:
<<
    i = p.rfind('/') + 1
    head = p[:i]
    if head and head != '/' * len(head):
        head = head.rstrip('/')
    return head
>> *)
Definition dirname (p : string) : string :=
  let head := head_upto_last_slash p in
  if all (Ascii.eqb slash) head then head else rstrip_slash head.

(** [len(x.split('/'))]: one more than the number of slashes. *)
Fixpoint count_slash (s : string) : nat :=
  match s with
  | EmptyString => 0
  | String c s' => (if Ascii.eqb c slash then 1 else 0) + count_slash s'
  end.

Definition segments (s : string) : nat := S (count_slash s).

End Str.

(* ================================================================= *)
(** ** The fragment of [re] used by the patterns *)

Module Re.

(** A pattern is a sequence of atoms: one character out of a class,
    a starred class, or the anchor [$]. *)
Inductive atom :=
| Chr (p : ascii -> bool)
| Star (p : ascii -> bool)
| Eol.

Definition pattern := list atom.

(** [\s] on code points below 256: TAB..CR, FS..US, SPACE, NEL, NBSP. *)
Definition is_space (c : ascii) : bool :=
  let n := nat_of_ascii c in
  ((9 <=? n) && (n <=? 13)) || ((28 <=? n) && (n <=? 32))
  || (n =? 133) || (n =? 160).

(** A literal under [re.IGNORECASE]. *)
Definition lit (l : ascii) : ascii -> bool :=
  fun c => Ascii.eqb (Str.lower_char c) (Str.lower_char l).

(** [.] without DOTALL: anything but a line feed. *)
Definition dot : ascii -> bool :=
  fun c => negb (Ascii.eqb c Str.newline).

(** The class [[\s\-_]]. *)
Definition sep : ascii -> bool :=
  fun c => is_space c || Ascii.eqb c "-"%char || Ascii.eqb c "_"%char.

(** A literal word, one [Chr] per character. *)
Fixpoint word (w : string) : pattern :=
  match w with
  | EmptyString => []
  | String c w' => Chr (lit c) :: word w'
  end.

(** [$] without MULTILINE: the end of the string, or just before a
    line feed that is the last character. *)
Definition at_eol (s : string) : bool :=
  match s with
  | EmptyString => true
  | String c EmptyString => Ascii.eqb c Str.newline
  | _ => false
  end.

(** Does the pattern match a prefix of [s]? *)
Fixpoint match_here (r : pattern) : string -> bool :=
  match r with
  | [] => fun _ => true
  | Chr p :: r' =>
      fun s => match s with
               | String c s' => p c && match_here r' s'
               | EmptyString => false
               end
  | Eol :: r' => fun s => at_eol s && match_here r' s
  | Star p :: r' =>
      fix star (s : string) : bool :=
        match_here r' s
        || match s with
           | String c s' => p c && star s'
           | EmptyString => false
           end
  end.

(** [pattern.search(s) is not None]: a match starting anywhere. *)
Fixpoint search (r : pattern) (s : string) : bool :=
  match_here r s
  || match s with
     | String _ s' => search r s'
     | EmptyString => false
     end.

End Re.

(* ================================================================= *)
(** ** HYPER-EFFICIENT MATCHING *)

(** [memo[\s\-_]*style\.pdf$] *)
Definition pattern_1 : Re.pattern :=
  Re.word "memo" ++ [Re.Star Re.sep] ++ Re.word "style" ++ Re.word ".pdf"
  ++ [Re.Eol].

(** [memostyle\.pdf$] *)
Definition pattern_2 : Re.pattern :=
  Re.word "memostyle" ++ Re.word ".pdf" ++ [Re.Eol].

(** [memo[\s\-_]*style.*\.pdf$] *)
Definition pattern_3 : Re.pattern :=
  Re.word "memo" ++ [Re.Star Re.sep] ++ Re.word "style" ++ [Re.Star Re.dot]
  ++ Re.word ".pdf" ++ [Re.Eol].

Definition patterns : list Re.pattern := [pattern_1; pattern_2; pattern_3].

Definition is_target_file (filename : string) : bool :=
  existsb (fun pattern => Re.search pattern filename) patterns.

(* ================================================================= *)
(** ** TURBO CONFIGURATION and ENHANCED CONFIGURATION *)

Definition TARGET_FOLDER : string := "/$ JLR DATA MIGRATION/David".

(** A Python set; only membership-style iteration ([any]) is used. *)
Definition EXCLUDE_FOLDERS : list string :=
  [ "/$ JLR DATA MIGRATION/Archive";
    "/$ JLR DATA MIGRATION/David/Archive";
    "/Archive" ].

Definition MAX_RETRIES : nat := 5.
Definition INITIAL_TIMEOUT : Q := 60.
Definition BACKOFF_FACTOR : Q := 3 # 2.
Definition MAX_THREADS : nat := 4.
Definition API_DELAY : Q := 1.
Definition BATCH_SIZE : nat := 100.

(* ================================================================= *)
(** ** Exceptions, remote data, events *)

(** The exception classes the program tells apart.  [ConnectionError]
    stands for [requests.exceptions.ConnectionError] and its subclasses,
    [RequestException] for the remaining [requests] errors, [OtherError]
    for every other subclass of [Exception]. *)
Inductive exn_class :=
| ReadTimeout | ConnectionError | RequestException
| ApiError | AuthError | OtherError.

Inductive exn := Exn (cls : exn_class) (msg : string).

Definition class_of (e : exn) : exn_class := let 'Exn c _ := e in c.

(** [except (requests.exceptions.ReadTimeout,
             requests.exceptions.ConnectionError)] *)
Definition is_timeout_or_connection (e : exn) : bool :=
  match class_of e with
  | ReadTimeout | ConnectionError => true
  | _ => false
  end.

(** [except (ApiError, requests.exceptions.RequestException)] *)
Definition is_api_or_request (e : exn) : bool :=
  match class_of e with
  | ApiError | ReadTimeout | ConnectionError | RequestException => true
  | _ => false
  end.

(** [except ApiError] *)
Definition is_api_error (e : exn) : bool :=
  match class_of e with ApiError => true | _ => false end.

(** [except (requests.exceptions.ReadTimeout, dropbox.exceptions.ApiError)] *)
Definition is_timeout_or_api (e : exn) : bool :=
  match class_of e with
  | ReadTimeout | ApiError => true
  | _ => false
  end.

(** [except requests.exceptions.ReadTimeout] *)
Definition is_read_timeout (e : exn) : bool :=
  match class_of e with ReadTimeout => true | _ => false end.

Inductive Metadata :=
| FileMetadata (name path_lower : string)
| FolderMetadata (name path_lower : string)
| DeletedMetadata (name path_lower : string).

Record ListFolderResult := {
  entries : list Metadata;
  cursor : string;
  has_more : bool
}.

(** What a remote call hands back: a value or a raised exception. *)
Inductive reply (A : Type) :=
| Ok (a : A)
| Err (e : exn).
Arguments Ok {A} a.
Arguments Err {A} e.

(** How a modelled function ends. *)
Inductive outcome (A : Type) :=
| Ret (a : A)
| Raise (e : exn)
| OutOfFuel.
Arguments Ret {A} a.
Arguments Raise {A} e.
Arguments OutOfFuel {A}.

Inductive level := INFO | WARNING | ERROR | CRITICAL.

(** The [logger] messages, with the values they interpolate. *)
Inductive log_msg :=
| TimeoutRetrying (attempt : nat) (wait_time : Q)
| MaxRetriesExceeded
| ScannedEntries (processed_entries : nat)
| ScanRetry (retry_count : nat) (wait_time : Q)
| FatalScanError (processed_entries : nat) (e : exn)
| ScanCompleted (processed_entries : nat)
| ProcessedBatch (files : nat)
| BatchFailed (e : exn)
| CheckFailed (folder_path : string) (e : exn)
| DryRunWouldDelete (folder : string)
| DeletedFolder (folder : string)
| FolderRetry (retry_count : nat) (folder : string)
| PermanentlyFailed (folder : string)
| CleanupStarted
| FatalError (e : exn)
| Completed.

Inductive event :=
| Sleep (secs : Q)
| Log (lvl : level) (msg : log_msg)
| ListFolder (path : string) (recursive : bool) (r : reply ListFolderResult)
| ListFolderContinue (cur : string) (r : reply ListFolderResult)
| DeleteBatch (paths : list string) (r : reply unit)
| DeleteV2 (path : string) (r : reply unit)
| Input (prompt : string) (r : reply string)
| CreateClient (r : reply unit)
| CloseClient.

(** The remote storage service, the console and the environment, as
    transitions of an abstract world; the scheduler of the worker
    threads and the hash order of sets, as readings of it. *)
Class Remote (W : Type) := {
  files_list_folder :
    string -> bool -> option nat -> W -> W * reply ListFolderResult;
  files_list_folder_continue : string -> W -> W * reply ListFolderResult;
  files_delete_batch : list string -> W -> W * reply unit;
  files_delete_v2 : string -> W -> W * reply unit;
  input : string -> W -> W * reply string;
  create_client : W -> W * reply unit;
  thread_schedule : W -> list nat;
  set_order : W -> list nat
}.

(* ================================================================= *)
(** ** The effect monad *)

Definition M (W A : Type) : Type := W -> W * list event * outcome A.

Definition ret {W A} (a : A) : M W A := fun w => (w, [], Ret a).

Definition bind {W A B} (m : M W A) (f : A -> M W B) : M W B :=
  fun w =>
    let '(w1, t1, r) := m w in
    match r with
    | Ret a => let '(w2, t2, r2) := f a w1 in (w2, t1 ++ t2, r2)
    | Raise e => (w1, t1, Raise e)
    | OutOfFuel => (w1, t1, OutOfFuel)
    end.

Definition raise {W A} (e : exn) : M W A := fun w => (w, [], Raise e).

Definition diverge {W A} : M W A := fun w => (w, [], OutOfFuel).

Definition emit {W} (ev : event) : M W unit := fun w => (w, [ev], Ret tt).

(** [try: m  except <classes selected by catches> as e: handler e] *)
Definition try_except {W A} (m : M W A) (catches : exn -> bool)
    (handler : exn -> M W A) : M W A :=
  fun w =>
    let '(w1, t1, r) := m w in
    match r with
    | Raise e =>
        if catches e
        then let '(w2, t2, r2) := handler e w1 in (w2, t1 ++ t2, r2)
        else (w1, t1, Raise e)
    | _ => (w1, t1, r)
    end.

(** [try: m  finally: f] *)
Definition try_finally {W A} (m : M W A) (f : M W unit) : M W A :=
  fun w =>
    let '(w1, t1, r) := m w in
    match r with
    | OutOfFuel => (w1, t1, OutOfFuel)
    | _ =>
        let '(w2, t2, r2) := f w1 in
        (w2, t1 ++ t2,
         match r2 with
         | Ret _ => r
         | Raise e => Raise e
         | OutOfFuel => OutOfFuel
         end)
    end.

(** A remote call: the world moves and the call is recorded with the
    reply it got. *)
Definition remote {W A} (op : W -> W * reply A) (ev : reply A -> event)
  : M W A :=
  fun w =>
    let '(w1, r) := op w in
    (w1, [ev r], match r with Ok a => Ret a | Err e => Raise e end).

Declare Scope m_scope.
Delimit Scope m_scope with m.
Notation "x <- c1 ;; c2" := (bind c1 (fun x => c2))
  (at level 61, c1 at next level, right associativity) : m_scope.
Notation "c1 ;; c2" := (bind c1 (fun _ => c2))
  (at level 61, right associativity) : m_scope.
Local Open Scope m_scope.

Definition sleep {W} (secs : Q) : M W unit := emit (Sleep secs).
Definition log {W} (lvl : level) (msg : log_msg) : M W unit :=
  emit (Log lvl msg).

Definition world_of {W A} (x : W * list event * outcome A) : W :=
  fst (fst x).
Definition trace_of {W A} (x : W * list event * outcome A) : list event :=
  snd (fst x).
Definition outcome_of {W A} (x : W * list event * outcome A) : outcome A :=
  snd x.

(* ================================================================= *)
(** ** Tasks of a thread pool *)

(** A computation cut at its events, so that a pool can run several of
    them a step at a time: [Step k] emits one event, may move the
    world, and leaves the rest of the task. *)
Inductive proc (W A : Type) : Type :=
| Done (r : outcome A)
| Step (k : W -> step W A)
with step (W A : Type) : Type :=
| Moved (w : W) (ev : event) (next : proc W A).
Arguments Done {W A} r.
Arguments Step {W A} k.
Arguments Moved {W A} w ev next.

(** A task run from where it stands to its end. *)
Fixpoint run_task {W A} (p : proc W A) : M W A :=
  match p with
  | Done r => fun w => (w, [], r)
  | Step k =>
      fun w =>
        match k w with
        | Moved w1 ev p' =>
            let '(w2, t, r) := run_task p' w1 in (w2, ev :: t, r)
        end
  end.

(** A submitted task, and whether it has made a step yet. *)
Record slot (W B : Type) := {
  started : bool;
  task : proc W B
}.
Arguments started {W B} s.
Arguments task {W B} s.

Definition unfinished {W B} (s : slot W B) : bool :=
  match task s with
  | Step _ => true
  | Done _ => false
  end.

(** The workers take the tasks from the queue in submission order, and
    there are [MAX_THREADS] of them: task [i] is on a worker only while
    fewer than [MAX_THREADS] of the tasks before it are unfinished. *)
Definition may_run {W B} (i : nat) (pool : list (slot W B)) : bool :=
  List.length (filter unfinished (firstn i pool)) <? MAX_THREADS.

Fixpoint replace_nth {X} (i : nat) (x : X) (l : list X) : list X :=
  match l, i with
  | [], _ => []
  | _ :: l', 0 => x :: l'
  | y :: l', S i' => y :: replace_nth i' x l'
  end.

(** Task [i] makes its next step, if it has one and may run. *)
Definition pool_step {W B} (i : nat) (pool : list (slot W B)) (w : W)
  : W * list event * list (slot W B) :=
  match nth_error pool i with
  | Some s =>
      match task s with
      | Step k =>
          if may_run i pool then
            match k w with
            | Moved w1 ev p =>
                (w1, [ev],
                 replace_nth i {| started := true; task := p |} pool)
            end
          else (w, [], pool)
      | Done _ => (w, [], pool)
      end
  | None => (w, [], pool)
  end.

(** The steps of a schedule, one after the other. *)
Fixpoint pool_run {W B} (schedule : list nat) (pool : list (slot W B))
    (w : W) : W * list event * list (slot W B) :=
  match schedule with
  | [] => (w, [], pool)
  | i :: rest =>
      let '(w1, t1, pool1) := pool_step i pool w in
      let '(w2, t2, pool2) := pool_run rest pool1 w1 in
      (w2, t1 ++ t2, pool2)
  end.

(** How many tasks the workers have taken from the queue: all of them
    up to the last one that made a step. *)
Fixpoint dequeued {W B} (pool : list (slot W B)) : nat :=
  match pool with
  | [] => 0
  | s :: rest =>
      match dequeued rest with
      | 0 => if started s then 1 else 0
      | S n => S (S n)
      end
  end.

(** [shutdown(wait=True)]: the tasks that were taken run to their end. *)
Fixpoint finish {W B} (pool : list (slot W B)) (w : W)
  : W * list event * list (slot W B) :=
  match pool with
  | [] => (w, [], [])
  | s :: rest =>
      let '(w1, t1, r) := run_task (task s) w in
      let '(w2, t2, rest') := finish rest w1 in
      (w2, t1 ++ t2, {| started := true; task := Done r |} :: rest')
  end.

(** The results consumed in submission order.  A task still in the
    queue runs when its result is asked for; the first exception is
    re-raised, and the tasks behind it that are still in the queue are
    cancelled. *)
Fixpoint collect {W B} (pool : list (slot W B)) : M W (list B) :=
  match pool with
  | [] => ret []
  | s :: rest =>
      y <- run_task (task s) ;;
      ys <- collect rest ;;
      ret (y :: ys)
  end.

(* ================================================================= *)
(** ** RETRY MECHANISM *)

Section RetryMechanism.
Context {W : Type} {A : Type}.

(** The body of [for attempt in range(MAX_RETRIES + 1)], with the two
    locals the loop updates.  Falling out of the loop logs and raises
    [last_error]; with [last_error] still [None] Python's [raise None]
    is a [TypeError]. *)
Fixpoint robust_api_call_loop (func : M W A) (attempts : list nat)
    (last_error : option exn) (current_timeout : Q) : M W A :=
  match attempts with
  | [] =>
      log ERROR MaxRetriesExceeded ;;
      match last_error with
      | Some e => raise e
      | None => raise (Exn OtherError "TypeError")
      end
  | attempt :: rest =>
      fun w =>
        let '(w1, t1, r) := func w in
        match r with
        | Raise e =>
            if is_timeout_or_connection e then
              if attempt <? MAX_RETRIES then
                let wait_time := (current_timeout * BACKOFF_FACTOR)%Q in
                let '(w2, t2, r2) :=
                  (log WARNING (TimeoutRetrying (attempt + 1) wait_time) ;;
                   sleep wait_time ;;
                   robust_api_call_loop func rest (Some e)
                     (current_timeout * BACKOFF_FACTOR)%Q) w1 in
                (w2, t1 ++ t2, r2)
              else
                let '(w2, t2, r2) :=
                  robust_api_call_loop func rest (Some e) current_timeout w1
                in (w2, t1 ++ t2, r2)
            else (w1, t1, Raise e)
        | _ => (w1, t1, r)
        end
  end.

Definition robust_api_call (func : M W A) : M W A :=
  robust_api_call_loop func (seq 0 (MAX_RETRIES + 1)) None INITIAL_TIMEOUT.

End RetryMechanism.

(* ================================================================= *)
(** ** PARALLEL SCANNING *)

(** [scan_target_folder] rebinds [MAX_RETRIES] locally. *)
Module Scan.
Definition MAX_RETRIES : nat := 3.
End Scan.

(** The [results] dictionary. *)
Record results := {
  target_files : list string;
  other_files : list string;
  failed_folders : list string
}.

(** The locals of [scan_target_folder]; they outlive an exception
    raised inside the loop. *)
Record scan_locals := {
  s_results : results;
  s_cursor : option string;
  s_processed_entries : nat;
  s_retry_count : nat
}.

Definition scan_init : scan_locals :=
  {| s_results := {| target_files := []; other_files := [];
                     failed_folders := [] |};
     s_cursor := None;
     s_processed_entries := 0;
     s_retry_count := 0 |}.

(** [any(path.startswith(excl.lower()) for excl in EXCLUDE_FOLDERS)] *)
Definition excluded_lower (path_lower : string) : bool :=
  existsb (fun excl => Str.startswith path_lower (Str.lower excl))
          EXCLUDE_FOLDERS.

(** [any(folder.startswith(excl) for excl in EXCLUDE_FOLDERS)] *)
Definition excluded_exact (folder : string) : bool :=
  existsb (fun excl => Str.startswith folder excl) EXCLUDE_FOLDERS.

Definition append_target (r : results) (p : string) : results :=
  {| target_files := target_files r ++ [p];
     other_files := other_files r;
     failed_folders := failed_folders r |}.

Definition append_failed (r : results) (p : string) : results :=
  {| target_files := target_files r;
     other_files := other_files r;
     failed_folders := failed_folders r ++ [p] |}.

(** One turn of [for entry in response.entries]: the locals after it and
    the progress line it may log. *)
Definition process_entry (acc : scan_locals * list event) (entry : Metadata)
  : scan_locals * list event :=
  let '(st, tr) := acc in
  let processed := S (s_processed_entries st) in
  let tr1 := if processed mod 500 =? 0
             then tr ++ [Log INFO (ScannedEntries processed)] else tr in
  let keep r := {| s_results := r; s_cursor := s_cursor st;
                   s_processed_entries := processed;
                   s_retry_count := s_retry_count st |} in
  match entry with
  | FolderMetadata _ path_lower =>
      (* Skip excluded folders; a folder is never a target file. *)
      if excluded_lower path_lower then (keep (s_results st), tr1)
      else (keep (s_results st), tr1)
  | FileMetadata name path_lower =>
      if is_target_file name
      then (keep (append_target (s_results st) path_lower), tr1)
      else (keep (s_results st), tr1)
  | DeletedMetadata _ _ => (keep (s_results st), tr1)
  end.

Definition process_entries (es : list Metadata) (st : scan_locals)
  : scan_locals * list event :=
  fold_left process_entry es (st, []).

(** [cursor or TARGET_FOLDER] *)
Definition cursor_or_target (c : option string) : string :=
  match c with
  | Some (String a s) => String a s
  | _ => TARGET_FOLDER
  end.

Section Program.
Context {W : Type} `{Remote W}.
Variable DRY_RUN : bool.

Definition call_list_folder (path : string) (recursive : bool)
    (limit : option nat) : M W ListFolderResult :=
  remote (files_list_folder path recursive limit) (ListFolder path recursive).

Definition call_list_folder_continue (c : string) : M W ListFolderResult :=
  remote (files_list_folder_continue c) (ListFolderContinue c).

Definition call_delete_batch (paths : list string) : M W unit :=
  remote (files_delete_batch paths) (DeleteBatch paths).

Definition call_delete_v2 (path : string) : M W unit :=
  remote (files_delete_v2 path) (DeleteV2 path).

Definition call_input (prompt : string) : M W string :=
  remote (input prompt) (Input prompt).

(** [dropbox.Dropbox(os.getenv("DROPBOX_ACCESS_TOKEN"), ...)]: the
    constructor raises when the environment gives no token. *)
Definition create_dropbox_client : M W unit :=
  remote create_client CreateClient.

(** Initial scan or continuation. *)
Definition fetch_page (c : option string) : M W ListFolderResult :=
  match c with
  | None => robust_api_call (call_list_folder TARGET_FOLDER true (Some 2000))
  | Some c => robust_api_call (call_list_folder_continue c)
  end.

(** The [while True] loop with its inner [try]/[except].  The loop
    ends with the locals and, when an exception left it, that
    exception. *)
Fixpoint scan_pages (fuel : nat) (st : scan_locals)
  : M W (scan_locals * option exn) :=
  match fuel with
  | 0 => diverge
  | S fuel' =>
      fun w =>
        let '(w1, t1, r) := fetch_page (s_cursor st) w in
        match r with
        | Ret response =>
            let '(st1, t2) := process_entries (entries response) st in
            if negb (has_more response)
            then (w1, t1 ++ t2, Ret (st1, None))
            else
              let st2 := {| s_results := s_results st1;
                            s_cursor := Some (cursor response);
                            s_processed_entries := s_processed_entries st1;
                            s_retry_count := 0 |} in
              let '(w3, t3, r3) :=
                (sleep API_DELAY ;; scan_pages fuel' st2) w1 in
              (w3, t1 ++ t2 ++ t3, r3)
        | Raise e =>
            if is_api_or_request e
               && (s_retry_count st <? Scan.MAX_RETRIES)
            then
              let retry_count := S (s_retry_count st) in
              let wait_time :=
                (API_DELAY * inject_Z (2 ^ Z.of_nat retry_count))%Q in
              let st1 := {| s_results := s_results st;
                            s_cursor := s_cursor st;
                            s_processed_entries := s_processed_entries st;
                            s_retry_count := retry_count |} in
              let '(w3, t3, r3) :=
                (log WARNING (ScanRetry retry_count wait_time) ;;
                 sleep wait_time ;;
                 scan_pages fuel' st1) w1 in
              (w3, t1 ++ t3, r3)
            else (w1, t1, Ret (st, Some e))
        | OutOfFuel => (w1, t1, OutOfFuel)
        end
  end.

(** The scan from the head of a loop turn on: the rest of the loop,
    then the outer [except Exception] and the [return]. *)
Definition scan_from (fuel : nat) (st0 : scan_locals) : M W results :=
  x <- scan_pages fuel st0 ;;
  let '(st, err) := x in
  match err with
  | Some e =>
      log ERROR (FatalScanError (s_processed_entries st) e) ;;
      let res := append_failed (s_results st)
                   (cursor_or_target (s_cursor st)) in
      match target_files res with
      | [] => raise e
      | _ :: _ =>
          log INFO (ScanCompleted (s_processed_entries st)) ;;
          ret res
      end
  | None =>
      log INFO (ScanCompleted (s_processed_entries st)) ;;
      ret (s_results st)
  end.

Definition scan_target_folder (fuel : nat) : M W results :=
  scan_from fuel scan_init.

(* =============================================================== *)
(** ** NUCLEAR DELETION *)

Definition delete_batch (batch : list string)
  : M W (option (list string)) :=
  sleep API_DELAY ;;
  try_except
    ((if negb DRY_RUN then call_delete_batch batch else ret tt) ;;
     log INFO (ProcessedBatch (List.length batch)) ;;
     ret None)
    is_api_error
    (fun e => log WARNING (BatchFailed e) ;; ret (Some batch)).

(** [range(0, stop, step)] *)
Definition range0 (stop step : nat) : list nat :=
  map (fun k => k * step) (seq 0 ((stop + step - 1) / step)).

(** [l[i:j]] for [0 <= i <= j] *)
Definition slice {A} (l : list A) (i j : nat) : list A :=
  firstn (j - i) (skipn i l).

Definition batches_of (file_paths : list string) : list (list string) :=
  map (fun i => slice file_paths i (i + BATCH_SIZE))
      (range0 (List.length file_paths) BATCH_SIZE).

(** [delete_batch], cut at its events for the pool: the delay, the
    call (in live mode), the log line. *)
Definition after_call (batch : list string) (r : reply unit)
  : proc W (option (list string)) :=
  match r with
  | Ok _ =>
      Step (fun w =>
              Moved w (Log INFO (ProcessedBatch (List.length batch)))
                    (Done (Ret None)))
  | Err e =>
      if is_api_error e
      then Step (fun w =>
                   Moved w (Log WARNING (BatchFailed e))
                         (Done (Ret (Some batch))))
      else Done (Raise e)
  end.

Definition after_sleep (batch : list string)
  : proc W (option (list string)) :=
  if negb DRY_RUN
  then Step (fun w =>
               let '(w1, r) := files_delete_batch batch w in
               Moved w1 (DeleteBatch batch r) (after_call batch r))
  else after_call batch (Ok tt).

Definition delete_batch_task (batch : list string)
  : proc W (option (list string)) :=
  Step (fun w => Moved w (Sleep API_DELAY) (after_sleep batch)).

(** [list(executor.map(f, xs))] inside [with ThreadPoolExecutor(...)]:
    every task is submitted; the workers run them as the schedule
    says; when the schedule is used up the tasks already taken run to
    their end and the results are consumed in submission order. *)
Definition executor_map {A B} (f : A -> proc W B) (xs : list A)
  : M W (list B) :=
  fun w =>
    let pool := map (fun x => {| started := false; task := f x |}) xs in
    let '(w1, t1, pool1) := pool_run (thread_schedule w) pool w in
    let n := dequeued pool1 in
    let '(w2, t2, taken) := finish (firstn n pool1) w1 in
    let '(w3, t3, r) := collect (taken ++ skipn n pool1) w2 in
    (w3, t1 ++ t2 ++ t3, r).

(** [filter(None, xs)]: the truthy items; [None] and the empty list
    are falsy. *)
Fixpoint filter_none (xs : list (option (list string)))
  : list (list string) :=
  match xs with
  | [] => []
  | Some (p :: b) :: xs' => (p :: b) :: filter_none xs'
  | _ :: xs' => filter_none xs'
  end.

(** [for batch in failed_batches: ...] *)
Fixpoint retry_failed (failed_batches : list (list string)) : M W unit :=
  match failed_batches with
  | [] => ret tt
  | batch :: rest =>
      sleep (API_DELAY * 2)%Q ;;
      delete_batch batch ;;
      retry_failed rest
  end.

Definition turbo_delete_files (file_paths : list string) : M W unit :=
  let batches := batches_of file_paths in
  rs <- executor_map delete_batch_task batches ;;
  retry_failed (filter_none rs).

(* =============================================================== *)
(** ** INTELLIGENT FOLDER CLEANUP *)

Definition is_file_entry (entry : Metadata) : bool :=
  match entry with FileMetadata _ _ => true | _ => false end.

Definition entry_name (entry : Metadata) : string :=
  match entry with
  | FileMetadata n _ | FolderMetadata n _ | DeletedMetadata n _ => n
  end.

(** [all(is_target_file(entry.name) for entry in response.entries
         if isinstance(entry, FileMetadata))] *)
Definition all_files_are_targets (response : ListFolderResult) : bool :=
  forallb (fun entry => is_target_file (entry_name entry))
          (filter is_file_entry (entries response)).

Definition should_delete (folder_path : string) : M W bool :=
  try_except
    (response <- call_list_folder folder_path false None ;;
     ret (all_files_are_targets response))
    (fun _ => true)
    (fun e => log WARNING (CheckFailed folder_path e) ;; ret false).

(** [folders_to_check.add(folder)]: the elements of the set, without
    repetition; what order a loop over the set meets them in is
    [iteration]'s business. *)
Fixpoint set_add (x : string) (s : list string) : list string :=
  match s with
  | [] => [x]
  | y :: s' => if String.eqb x y then s else y :: set_add x s'
  end.

(** [while len(folder) > len(TARGET_FOLDER): ...]; [None] when the
    loop does not end within [fuel] turns. *)
Fixpoint add_ancestors (fuel : nat) (folder : string)
    (folders_to_check : list string) : option (list string) :=
  if String.length TARGET_FOLDER <? String.length folder then
    match fuel with
    | 0 => None
    | S fuel' =>
        add_ancestors fuel' (Str.dirname folder)
                      (set_add folder folders_to_check)
    end
  else Some folders_to_check.

(** [for file_path in target_files: ...].  [dirname] never lengthens
    a path, so a loop that is still running after [len(folder)] turns
    sits on a fixed point of [dirname] and never ends. *)
Fixpoint build_folder_list (target_files : list string)
    (folders_to_check : list string) : option (list string) :=
  match target_files with
  | [] => Some folders_to_check
  | file_path :: rest =>
      let folder := Str.dirname file_path in
      match add_ancestors (String.length folder) folder folders_to_check with
      | Some s => build_folder_list rest s
      | None => None
      end
  end.

Fixpoint remove_nth {X} (i : nat) (l : list X) : list X :=
  match l, i with
  | [], _ => []
  | _ :: l', 0 => l'
  | y :: l', S i' => y :: remove_nth i' l'
  end.

(** The order in which a loop meets the elements of a set, read off a
    code: the element at position [c mod len] comes first, then the
    code goes on with the others; what the code leaves comes as it
    stands.  Every code gives a rearrangement of the elements. *)
Fixpoint iteration (code : list nat) (s : list string) : list string :=
  match code with
  | [] => s
  | c :: code' =>
      match s with
      | [] => []
      | x :: _ =>
          let i := c mod List.length s in
          nth i s x :: iteration code' (remove_nth i s)
      end
  end.

(** [sorted(xs, key=lambda x: -len(x.split('/')))]: stable, deepest
    first. *)
Fixpoint insert_by_depth (x : string) (l : list string) : list string :=
  match l with
  | [] => [x]
  | y :: l' =>
      if Str.segments y <=? Str.segments x then x :: l
      else y :: insert_by_depth x l'
  end.

Definition sorted_deepest_first (l : list string) : list string :=
  fold_right insert_by_depth [] l.

(** [min(30, 2 ** retry_count)] *)
Definition capped_wait (retry_count : nat) : Q :=
  inject_Z (Z.min 30 (2 ^ Z.of_nat retry_count)).

(** [while retry_count < MAX_RETRIES: ...] for one folder; [remaining]
    is [MAX_RETRIES - retry_count]. *)
Fixpoint check_folder (remaining retry_count : nat) (folder : string)
  : M W unit :=
  match remaining with
  | 0 => ret tt
  | S remaining' =>
      try_except
        (if negb (excluded_exact folder) then
           b <- should_delete folder ;;
           if b then
             if DRY_RUN then log INFO (DryRunWouldDelete folder)
             else call_delete_v2 folder ;;
                  log INFO (DeletedFolder folder)
           else ret tt
         else ret tt)
        is_timeout_or_api
        (fun e =>
           let retry_count := S retry_count in
           log WARNING (FolderRetry retry_count folder) ;;
           sleep (capped_wait retry_count) ;;
           (if retry_count =? MAX_RETRIES
            then log ERROR (PermanentlyFailed folder) else ret tt) ;;
           check_folder remaining' retry_count folder)
  end.

Fixpoint check_folders (folders : list string) : M W unit :=
  match folders with
  | [] => ret tt
  | folder :: rest =>
      check_folder MAX_RETRIES 0 folder ;;
      check_folders rest
  end.

Definition clean_empty_folders (target_files : list string) : M W unit :=
  match build_folder_list target_files [] with
  | None => diverge
  | Some folders_to_check =>
      fun w =>
        check_folders
          (sorted_deepest_first (iteration (set_order w) folders_to_check))
          w
  end.

(* =============================================================== *)
(** ** MAIN EXECUTION *)

(** How the [try] block of [main] is left when nothing is raised. *)
Inductive exit := ByReturn | ByBreak.

Definition main_try (fuel : nat) : M W exit :=
  scan_results <- scan_target_folder fuel ;;
  let target_files := target_files scan_results in
  match target_files with
  | [] => ret ByReturn
  | _ :: _ =>
      proceed <- (if negb DRY_RUN then
                    a <- call_input (String Str.newline
                                      "Proceed with deletion? (y/n): ") ;;
                    ret (String.eqb (Str.lower a) "y")
                  else ret true) ;;
      if negb proceed then ret ByReturn
      else
        turbo_delete_files target_files ;;
        clean <- (if negb DRY_RUN then
                    a <- call_input (String Str.newline
                                      "Clean empty folders? (y/n): ") ;;
                    ret (String.eqb (Str.lower a) "y")
                  else ret false) ;;
        (if clean then clean_empty_folders target_files else ret tt) ;;
        ret ByBreak
  end.

(** [finally:] *)
Definition main_finally : M W unit :=
  emit CloseClient ;; log INFO Completed.

(** [while retry_main < 3: ...]; [remaining] is [3 - retry_main]. *)
Fixpoint main_loop (remaining retry_main fuel : nat) : M W unit :=
  match remaining with
  | 0 => ret tt
  | S remaining' =>
      fun w =>
        let '(w1, t1, r) := main_try fuel w in
        match r with
        | Ret _ =>
            let '(w2, t2, r2) := main_finally w1 in (w2, t1 ++ t2, r2)
        | Raise e =>
            let '(w2, t2, r2) :=
              (if is_read_timeout e then
                 let retry_main := S retry_main in
                 try_finally
                   (create_dropbox_client ;;
                    sleep (inject_Z (10 * Z.of_nat retry_main)))
                   main_finally ;;
                 main_loop remaining' retry_main fuel
               else
                 log CRITICAL (FatalError e) ;;
                 main_finally) w1 in
            (w2, t1 ++ t2, r2)
        | OutOfFuel => (w1, t1, OutOfFuel)
        end
  end.

Definition main (fuel : nat) : M W unit :=
  log INFO CleanupStarted ;;
  create_dropbox_client ;;
  main_loop 3 0 fuel.

End Program.

(* ================================================================= *)
(** ** A scripted remote, for concrete runs *)

Module Scripted.

(** The replies still to be handed out: to listing calls (first page
    and continuations alike), to delete calls (batch and folder
    alike), to console prompts and to the client constructor.  An
    exhausted script answers with an empty last page, a successful
    delete, ["n"] and a client.  The schedule of the worker threads and
    the code of the set order are fixed for the run. *)
Record world := {
  listings : list (reply ListFolderResult);
  deletions : list (reply unit);
  answers : list (reply string);
  clients : list (reply unit);
  schedule : list nat;
  order : list nat
}.

Definition empty_page : ListFolderResult :=
  {| entries := []; cursor := ""; has_more := false |}.

Definition next_listing (w : world) : world * reply ListFolderResult :=
  match listings w with
  | [] => (w, Ok empty_page)
  | r :: rest =>
      ({| listings := rest; deletions := deletions w;
          answers := answers w; clients := clients w;
          schedule := schedule w; order := order w |}, r)
  end.

Definition next_deletion (w : world) : world * reply unit :=
  match deletions w with
  | [] => (w, Ok tt)
  | r :: rest =>
      ({| listings := listings w; deletions := rest;
          answers := answers w; clients := clients w;
          schedule := schedule w; order := order w |}, r)
  end.

Definition next_answer (w : world) : world * reply string :=
  match answers w with
  | [] => (w, Ok "n")
  | r :: rest =>
      ({| listings := listings w; deletions := deletions w;
          answers := rest; clients := clients w;
          schedule := schedule w; order := order w |}, r)
  end.

Definition next_client (w : world) : world * reply unit :=
  match clients w with
  | [] => (w, Ok tt)
  | r :: rest =>
      ({| listings := listings w; deletions := deletions w;
          answers := answers w; clients := rest;
          schedule := schedule w; order := order w |}, r)
  end.

#[global] Instance remote : Remote world := {
  files_list_folder := fun _ _ _ => next_listing;
  files_list_folder_continue := fun _ => next_listing;
  files_delete_batch := fun _ => next_deletion;
  files_delete_v2 := fun _ => next_deletion;
  input := fun _ => next_answer;
  create_client := next_client;
  thread_schedule := schedule;
  set_order := order
}.

Definition page (es : list Metadata) : reply ListFolderResult :=
  Ok {| entries := es; cursor := ""; has_more := false |}.

End Scripted.

(* ================================================================= *)
(** ** The surface forms of a memo-style name, as the specification
       words them *)

Module SurfaceForm.
Local Open Scope string_scope.

(** [n], case-insensitively, ends with the lower-case [suffix]. *)
Definition ends_with_ci (n suffix : string) : Prop :=
  exists pre, Str.lower n = pre ++ suffix.

(** A run of spaces, hyphens and underscores, "space" being any
    character of the class [\s]. *)
Definition separator_run (run : string) : Prop :=
  Str.all (fun c => Re.is_space c || Ascii.eqb c "-" || Ascii.eqb c "_")
          run = true.

(** The literal ["memostyle.pdf"]. *)
Definition form_literal (n : string) : Prop :=
  ends_with_ci n "memostyle.pdf".

(** ["memo"], a run of separators, then ["style.pdf"]. *)
Definition form_separated (n : string) : Prop :=
  exists run, separator_run run
              /\ ends_with_ci n ("memo" ++ run ++ "style.pdf").

(** ["memo"], a run of separators, ["style"], then arbitrary
    characters before [".pdf"]. *)
Definition form_decorated (n : string) : Prop :=
  exists run x, separator_run run
                /\ ends_with_ci n ("memo" ++ run ++ "style" ++ x ++ ".pdf").

Definition surface_form (n : string) : Prop :=
  form_literal n \/ form_separated n \/ form_decorated n.

End SurfaceForm.

(* ================================================================= *)
(** * The vocabulary of the properties *)

(** ** What a match of the third pattern says about the subject *)

(** [n] splits into a free prefix, ["memo"], separators, ["style"],
    characters other than a line feed, [".pdf"] (letters in either
    case) and nothing more or one line feed. *)
Definition decorated (n : string) : Prop :=
  exists pre u1 run u2 x u3 tail,
    n = (pre ++ u1 ++ run ++ u2 ++ x ++ u3 ++ tail)%string
    /\ Str.lower u1 = "memo"%string
    /\ Str.all Re.sep run = true
    /\ Str.lower u2 = "style"%string
    /\ Str.all Re.dot x = true
    /\ Str.lower u3 = ".pdf"%string
    /\ (tail = ""%string \/ tail = String Str.newline "").

(** ** Successive invocations of a wrapped operation *)

Section RetryVocabulary.
Context {W A : Type}.
Variable func : M W A.

(** The [k+1]-th successive invocation of [func], each started in the
    world the previous one left. *)
Fixpoint nth_call (k : nat) (w : W) : W * list event * outcome A :=
  match k with
  | 0 => func w
  | S k' => nth_call k' (world_of (func w))
  end.

(** The events up to the last invocation: every earlier invocation,
    followed by the warning and the wait that precede the retry. *)
Fixpoint retried_trace (w : W) (k : nat) (waits : list Q) : list event :=
  match waits with
  | [] => []
  | q :: qs =>
      trace_of (func w)
      ++ [Log WARNING (TimeoutRetrying k q); Sleep q]
      ++ retried_trace (world_of (func w)) (S k) qs
  end.

(** The run ended with an error the wrapper retries. *)
Definition transient_raise (x : W * list event * outcome A) : bool :=
  match outcome_of x with
  | Raise e => is_timeout_or_connection e
  | _ => false
  end.

End RetryVocabulary.

(** ** Failing page fetches *)

Section ScanVocabulary.
Context {W : Type}.

(** [retry_count = n] *)
Definition with_retry_count (st : scan_locals) (n : nat) : scan_locals :=
  {| s_results := s_results st;
     s_cursor := s_cursor st;
     s_processed_entries := s_processed_entries st;
     s_retry_count := n |}.

(** [API_DELAY * (2 ** retry_count)] *)
Definition scan_wait (retry_count : nat) : Q :=
  (API_DELAY * inject_Z (2 ^ Z.of_nat retry_count))%Q.

(** The events of [n + 1] failing fetches of one page, the first made
    with [retry_count] retries already spent: every fetch but the last
    is followed by the warning and the wait of the retry. *)
Fixpoint failed_fetches_trace (fetch : M W ListFolderResult) (w : W)
    (retry_count n : nat) : list event :=
  match n with
  | 0 => trace_of (fetch w)
  | S n' =>
      trace_of (fetch w)
      ++ [Log WARNING (ScanRetry (S retry_count) (scan_wait (S retry_count)));
          Sleep (scan_wait (S retry_count))]
      ++ failed_fetches_trace fetch (world_of (fetch w)) (S retry_count) n'
  end.

(** The fetch ended with an error the scanner's inner [except] takes. *)
Definition retryable_raise (x : W * list event * outcome ListFolderResult)
  : Prop :=
  exists e, outcome_of x = Raise e /\ is_api_or_request e = true.

End ScanVocabulary.

(** ** Attempts of the batch deleter *)

(** The [files_delete_batch] calls of a trace, in order. *)
Fixpoint delete_attempts (t : list event)
  : list (list string * reply unit) :=
  match t with
  | [] => []
  | DeleteBatch b r :: t' => (b, r) :: delete_attempts t'
  | _ :: t' => delete_attempts t'
  end.

(** The events of one run of [delete_batch] that gets the reply [r]. *)
Definition attempt_events (x : list string * reply unit) : list event :=
  let '(b, r) := x in
  [Sleep API_DELAY; DeleteBatch b r]
  ++ match r with
     | Ok _ => [Log INFO (ProcessedBatch (List.length b))]
     | Err e => if is_api_error e then [Log WARNING (BatchFailed e)] else []
     end.

(** The same for a serial retry, with its extra delay in front. *)
Definition retry_events (x : list string * reply unit) : list event :=
  Sleep (API_DELAY * 2)%Q :: attempt_events x.

(** The batches whose attempt raised an [ApiError]. *)
Fixpoint api_failed (attempts : list (list string * reply unit))
  : list (list string) :=
  match attempts with
  | [] => []
  | (b, Err e) :: rest =>
      if is_api_error e then b :: api_failed rest else api_failed rest
  | (_, Ok _) :: rest => api_failed rest
  end.

(** The batches whose attempt went through. *)
Fixpoint deleted (attempts : list (list string * reply unit))
  : list (list string) :=
  match attempts with
  | [] => []
  | (b, Ok _) :: rest => b :: deleted rest
  | (_, Err _) :: rest => deleted rest
  end.

(** In dry-run mode nothing can fail: one pass, no call. *)
Definition dry_events (b : list string) : list event :=
  [Sleep API_DELAY; Log INFO (ProcessedBatch (List.length b))].


(** The replies to the three first attempts when only the attempt of
    batch [i] fails, with [e]. *)
Definition one_failure (i : nat) (e : exn) : list (reply unit) :=
  map (fun k => if k =? i then Err e else Ok tt) [0; 1; 2].

(** ** The tasks of the pool *)

(** How far a [delete_batch] task of the pool has got: no step yet,
    the delay, the call and its reply, the log line. *)
Inductive stage :=
| Queued
| Waited
| Called (r : reply unit)
| Logged (r : reply unit).

(** What [delete_batch] returns after the reply [r]. *)
Definition result_after (b : list string) (r : reply unit)
  : outcome (option (list string)) :=
  match r with
  | Ok _ => Ret None
  | Err e => if is_api_error e then Ret (Some b) else Raise e
  end.

(** The task has nothing left to do. *)
Definition ended (s : stage) : Prop :=
  match s with
  | Logged _ => True
  | Called (Err e) => is_api_error e = false
  | _ => False
  end.

(** The task never got onto a worker, or it has ended. *)
Definition at_rest (s : stage) : Prop := s = Queued \/ ended s.

(** What the task hands back when it stands at [s]. *)
Definition outcome_at (b : list string) (s : stage)
  : outcome (option (list string)) :=
  match s with
  | Called r | Logged r => result_after b r
  | _ => OutOfFuel
  end.

(** The task returned. *)
Definition returned (s : stage) : Prop :=
  match s with
  | Logged (Ok _) => True
  | Logged (Err e) => is_api_error e = true
  | _ => False
  end.

Section PoolVocabulary.
Context {W : Type} `{Remote W}.
Variable DRY_RUN : bool.

(** The task of batch [b] at stage [s]. *)
Definition slot_at (b : list string) (s : stage)
  : slot W (option (list string)) :=
  match s with
  | Queued => {| started := false; task := delete_batch_task DRY_RUN b |}
  | Waited => {| started := true; task := after_sleep DRY_RUN b |}
  | Called r => {| started := true; task := after_call b r |}
  | Logged r => {| started := true; task := Done (result_after b r) |}
  end.

Definition pool_at (bs : list (list string)) (stages : list stage)
  : list (slot W (option (list string))) :=
  map (fun x => slot_at (fst x) (snd x)) (combine bs stages).

(** The events the task has emitted when it stands at [s]. *)
Definition events_at (b : list string) (s : stage) : list event :=
  match s with
  | Queued => []
  | Waited => [Sleep API_DELAY]
  | Called r => [Sleep API_DELAY; DeleteBatch b r]
  | Logged r => if DRY_RUN then dry_events b else attempt_events (b, r)
  end.

Definition events_of (bs : list (list string)) (stages : list stage)
  : list event :=
  flat_map (fun x => events_at (fst x) (snd x)) (combine bs stages).

(** The stages a run of the mode goes through, with replies that
    satisfy [Good]. *)
Definition fits (Good : list string -> reply unit -> Prop)
    (b : list string) (s : stage) : Prop :=
  match s with
  | Queued | Waited => True
  | Called r => DRY_RUN = false /\ Good b r
  | Logged r =>
      (if DRY_RUN then r = Ok tt else Good b r) /\ returned (Logged r)
  end.

(** What the pool knows of its tasks. *)
Definition tasks_fit (Good : list string -> reply unit -> Prop)
    (bs : list (list string)) (stages : list stage) : Prop :=
  List.length stages = List.length bs
  /\ Forall2 (fits Good) bs stages.

End PoolVocabulary.

(** The attempts of the first pass, in submission order: the batches
    whose task made its call, each with the reply it got. *)
Fixpoint first_attempts (bs : list (list string)) (stages : list stage)
  : list (list string * reply unit) :=
  match bs, stages with
  | b :: bs', s :: stages' =>
      match s with
      | Called r | Logged r => (b, r) :: first_attempts bs' stages'
      | _ => first_attempts bs' stages'
      end
  | _, _ => []
  end.

(** The reply is an exception. *)
Definition failed (a : list string * reply unit) : bool :=
  match snd a with
  | Err _ => true
  | Ok _ => false
  end.

(** ** Traces of the folder reclaimer *)

Section ReclaimVocabulary.
Variable DRY_RUN : bool.

(** What the [except] clause of the folder loop emits. *)
Definition retry_log (retry_count : nat) (folder : string) : list event :=
  [Log WARNING (FolderRetry retry_count folder);
   Sleep (capped_wait retry_count)]
  ++ (if retry_count =? MAX_RETRIES
      then [Log ERROR (PermanentlyFailed folder)] else []).

(** The events the loop of one candidate can emit: nothing (the candidate
    is skipped), a failed check, a check that keeps the folder, a check
    followed by the dry-run line or by the delete, and any of these
    after a delete that raised and was retried. *)
Inductive folder_trace (folder : string) : list event -> Prop :=
| ft_nothing : folder_trace folder []
| ft_check_failed e :
    folder_trace folder
      [ListFolder folder false (Err e);
       Log WARNING (CheckFailed folder e)]
| ft_kept response :
    all_files_are_targets response = false ->
    folder_trace folder [ListFolder folder false (Ok response)]
| ft_dry_run response :
    DRY_RUN = true ->
    all_files_are_targets response = true ->
    folder_trace folder
      [ListFolder folder false (Ok response);
       Log INFO (DryRunWouldDelete folder)]
| ft_deleted response :
    DRY_RUN = false ->
    all_files_are_targets response = true ->
    folder_trace folder
      [ListFolder folder false (Ok response);
       DeleteV2 folder (Ok tt);
       Log INFO (DeletedFolder folder)]
| ft_delete_raised response e :
    DRY_RUN = false ->
    all_files_are_targets response = true ->
    folder_trace folder
      [ListFolder folder false (Ok response); DeleteV2 folder (Err e)]
| ft_retry response e retry_count t :
    DRY_RUN = false ->
    all_files_are_targets response = true ->
    folder_trace folder t ->
    folder_trace folder
      ([ListFolder folder false (Ok response); DeleteV2 folder (Err e)]
       ++ retry_log retry_count folder ++ t).

(** The events of a pass over a list of candidates, one after the
    other. *)
Inductive reclaim_trace : list string -> list event -> Prop :=
| rt_nil : reclaim_trace [] []
| rt_cons folder rest t ts :
    folder_trace folder t ->
    reclaim_trace rest ts ->
    reclaim_trace (folder :: rest) (t ++ ts).

(** [ev] is a listing of [folder] that found every file a target. *)
Definition checked_before (folder : string) (ev : event) : Prop :=
  exists response,
    ev = ListFolder folder false (Ok response)
    /\ all_files_are_targets response = true.

(** Whatever comes right before a folder delete is a check of that
    folder. *)
Fixpoint guarded (t : list event) : Prop :=
  match t with
  | [] => True
  | ev :: t' =>
      match t' with
      | DeleteV2 folder _ :: _ => checked_before folder ev
      | _ => True
      end
      /\ guarded t'
  end.

(** The trace does not open with a folder delete. *)
Definition starts_clean (t : list event) : Prop :=
  match t with
  | DeleteV2 _ _ :: _ => False
  | _ => True
  end.

(** No delete of [folder] in the trace. *)
Fixpoint no_delete (folder : string) (t : list event) : Prop :=
  match t with
  | [] => True
  | DeleteV2 g _ :: t' => g <> folder /\ no_delete folder t'
  | _ :: t' => no_delete folder t'
  end.

(** No listing of [folder] that raised in the trace. *)
Fixpoint no_failed_listing (folder : string) (t : list event) : Prop :=
  match t with
  | [] => True
  | ListFolder g _ (Err _) :: t' =>
      g <> folder /\ no_failed_listing folder t'
  | _ :: t' => no_failed_listing folder t'
  end.

(** After a listing of [folder] that raised, no delete of [folder]. *)
Fixpoint settled (folder : string) (t : list event) : Prop :=
  match t with
  | [] => True
  | ListFolder g _ (Err _) :: t' =>
      (g = folder -> no_delete folder t') /\ settled folder t'
  | _ :: t' => settled folder t'
  end.

(** The trace opens with what the mode does to a reclaimable folder. *)
Definition action_follows (folder : string) (t : list event) : Prop :=
  match t with
  | DeleteV2 g _ :: _ => DRY_RUN = false /\ g = folder
  | Log INFO (DryRunWouldDelete g) :: _ => DRY_RUN = true /\ g = folder
  | _ => False
  end.

(** Every listing whose files are all targets is followed by the
    action of the mode. *)
Fixpoint acted (t : list event) : Prop :=
  match t with
  | [] => True
  | ListFolder folder _ (Ok response) :: t' =>
      (all_files_are_targets response = true -> action_follows folder t')
      /\ acted t'
  | _ :: t' => acted t'
  end.

(** The mutating remote calls. *)
Definition is_mutation (ev : event) : bool :=
  match ev with
  | DeleteBatch _ _ | DeleteV2 _ _ => true
  | _ => false
  end.

(** No mutating call in the trace. *)
Definition no_mutation (t : list event) : Prop :=
  Forall (fun ev => is_mutation ev = false) t.

End ReclaimVocabulary.

(** ** Traces of a dry run *)

(** Every event of every run of [m] satisfies [P]. *)
Definition traces_in {W} (P : event -> Prop) {A} (m : M W A) : Prop :=
  forall w, Forall P (trace_of (m w)).

(** What a dry run of [main] may do: wait, log (but for the two
    messages of the folder clean-up), list recursively, continue a
    listing, open and close the client.  No delete, no prompt, no
    listing of a single folder. *)
Definition dry_run_event (ev : event) : bool :=
  match ev with
  | Sleep _ | CreateClient _ | CloseClient | ListFolderContinue _ _ => true
  | ListFolder _ recursive _ => recursive
  | Log _ (DryRunWouldDelete _) | Log _ (DeletedFolder _) => false
  | Log _ _ => true
  | DeleteBatch _ _ | DeleteV2 _ _ | Input _ _ => false
  end.

(** [dry_run_event] as a proposition. *)
Definition dry_run_ok (ev : event) : Prop := dry_run_event ev = true.

(* ================================================================= *)
(** ** Worlds and inputs of the concrete runs *)

Module Runs.
Import Scripted.

Definition archive : string := "/$ jlr data migration/david/archive".
Definition archived_memo : string :=
  "/$ jlr data migration/david/archive/memo style.pdf".
Definition sub : string := "/$ jlr data migration/david/sub".
Definition sub_memo : string :=
  "/$ jlr data migration/david/sub/memo style.pdf".

Definition script (ls : list (reply ListFolderResult))
    (ds : list (reply unit)) (ans : list (reply string)) : world :=
  {| listings := ls; deletions := ds; answers := ans;
     clients := []; schedule := []; order := [] |}.

(** The same world with another schedule for the worker threads. *)
Definition scheduled (steps : list nat) (w : world) : world :=
  {| listings := listings w; deletions := deletions w;
     answers := answers w; clients := clients w;
     schedule := steps; order := order w |}.

(** The same world with another order for the sets. *)
Definition ordered (code : list nat) (w : world) : world :=
  {| listings := listings w; deletions := deletions w;
     answers := answers w; clients := clients w;
     schedule := schedule w; order := code |}.

(** The same world with scripted replies of the client constructor. *)
Definition with_clients (rs : list (reply unit)) (w : world) : world :=
  {| listings := listings w; deletions := deletions w;
     answers := answers w; clients := rs;
     schedule := schedule w; order := order w |}.

(** The target folder holds a report, and an excluded folder with a
    memo in it. *)
Definition tree_with_archive : world :=
  script [page [FileMetadata "report.pdf"
                  "/$ jlr data migration/david/report.pdf";
                FolderMetadata "Archive" archive;
                FileMetadata "memo style.pdf" archived_memo]] [] [].

(** The direct children of a folder: two memos and a sub-folder. *)
Definition memos_and_folder : ListFolderResult :=
  {| entries := [FileMetadata "memo style.pdf" sub_memo;
                 FolderMetadata "keep"
                   "/$ jlr data migration/david/sub/keep";
                 FileMetadata "Memo-Style (2).PDF"
                   "/$ jlr data migration/david/sub/memo-style (2).pdf"];
     cursor := ""; has_more := false |}.

(** A folder listed on two pages: a memo on the first, a report on the
    second. *)
Definition report : string := "/$ jlr data migration/david/sub/report.pdf".
Definition memo_and_more : ListFolderResult :=
  {| entries := [FileMetadata "memo style.pdf" sub_memo];
     cursor := "page 2"; has_more := true |}.
Definition report_page : reply ListFolderResult :=
  page [FileMetadata "report.pdf" report].

Definition timeout (n : string) : reply ListFolderResult :=
  Err (Exn ReadTimeout n).
Definition api_error {A} (n : string) : reply A := Err (Exn ApiError n).

(** 250 distinct paths. *)
Definition paths_250 : list string :=
  map (fun n => (sub ++ String "/" (String (ascii_of_nat n) "memo.pdf"))%string)
      (seq 0 250).

End Runs.

(* ================================================================= *)
(** * The vocabulary of the further properties *)

(** ** Paths *)

(** All the characters of [s] are slashes (the empty string included):
    [s == '/' * len(s)]. *)
Definition only_slashes (s : string) : bool := Str.all (Ascii.eqb Str.slash) s.

(** The number of slashes [s] starts with. *)
Fixpoint leading_slashes (s : string) : nat :=
  match s with
  | String c s' => if Ascii.eqb c Str.slash then S (leading_slashes s') else 0
  | EmptyString => 0
  end.

(** [f] is reached from [p] by one or more [dirname] steps. *)
Definition ancestor_of (f p : string) : Prop :=
  exists k, Nat.iter (S k) Str.dirname p = f.

(** Deeper folders come first. *)
Definition deeper_first (a b : string) : Prop :=
  Str.segments b <= Str.segments a.

(** The last character of [s] is a slash. *)
Fixpoint last_is_slash (s : string) : bool :=
  match s with
  | EmptyString => false
  | String c EmptyString => Ascii.eqb c Str.slash
  | String _ s' => last_is_slash s'
  end.

(** The folder a remote call on a single folder is about. *)
Definition touched (ev : event) : option string :=
  match ev with
  | ListFolder g _ _ | DeleteV2 g _ => Some g
  | _ => None
  end.

(** The folder deletes and the listings of folder [g]. *)
Definition is_delete_of (g : string) (ev : event) : bool :=
  match ev with DeleteV2 f _ => String.eqb f g | _ => false end.

Definition is_listing_of (g : string) (ev : event) : bool :=
  match ev with ListFolder f _ _ => String.eqb f g | _ => false end.

(** The paths a list of entries adds to [results['target_files']]. *)
Definition matching_paths (es : list Metadata) : list string :=
  flat_map (fun entry =>
              match entry with
              | FileMetadata name path_lower =>
                  if is_target_file name then [path_lower] else []
              | _ => []
              end) es.

(** The progress lines logged while [processed_entries] goes from [n]
    to [n + len]. *)
Definition progress_lines (n len : nat) : list event :=
  map (fun k => Log INFO (ScannedEntries k))
      (filter (fun k => k mod 500 =? 0) (seq (S n) len)).

(** The entries of the pages that the listing calls of a trace
    returned. *)
Definition listed_entries (t : list event) : list Metadata :=
  flat_map (fun ev =>
              match ev with
              | ListFolder _ _ (Ok r) | ListFolderContinue _ (Ok r) =>
                  entries r
              | _ => []
              end) t.

(** The seconds a trace spends asleep. *)
Fixpoint total_sleep (t : list event) : Q :=
  match t with
  | [] => 0
  | Sleep secs :: t' => secs + total_sleep t'
  | _ :: t' => total_sleep t'
  end.

(** The waits of [robust_api_call] when every attempt times out. *)
Fixpoint worst_case_wait (attempts : list nat) (current_timeout : Q) : Q :=
  match attempts with
  | [] => 0
  | attempt :: rest =>
      if attempt <? MAX_RETRIES
      then (current_timeout * BACKOFF_FACTOR
            + worst_case_wait rest (current_timeout * BACKOFF_FACTOR))%Q
      else worst_case_wait rest current_timeout
  end.

(** The two console prompts of [main]. *)
Definition proceed_prompt : string :=
  String Str.newline "Proceed with deletion? (y/n): ".
Definition clean_prompt : string :=
  String Str.newline "Clean empty folders? (y/n): ".

(** The console answers [prompt] with a [y], in either case. *)
Definition answered_yes (prompt : string) (ev : event) : bool :=
  match ev with
  | Input p (Ok a) => String.eqb p prompt && String.eqb (Str.lower a) "y"
  | _ => false
  end.

(** Whether [prompt] has been answered with a [y] in the current
    attempt of [main]; an attempt starts with a fresh client. *)
Definition confirmation (prompt : string) (seen : bool) (ev : event)
  : bool :=
  match ev with
  | CreateClient _ => false
  | _ => seen || answered_yes prompt ev
  end.

(** Every event selected by [P] comes, within its attempt, after a [y]
    to [prompt]. *)
Fixpoint confirmed (prompt : string) (P : event -> bool) (seen : bool)
    (t : list event) : Prop :=
  match t with
  | [] => True
  | ev :: t' =>
      (P ev = true -> seen = true)
      /\ confirmed prompt P (confirmation prompt seen ev) t'
  end.

(** Every run of [m] is confirmed, starting unconfirmed. *)
Definition asks {W A} (prompt : string) (P : event -> bool) (m : M W A)
  : Prop :=
  forall w, confirmed prompt P false (trace_of (m w)).

Definition is_batch_delete (ev : event) : bool :=
  match ev with DeleteBatch _ _ => true | _ => false end.

(** The remote calls of the folder clean-up. *)
Definition is_folder_call (ev : event) : bool :=
  match ev with
  | DeleteV2 _ _ | ListFolder _ false _ => true
  | _ => false
  end.

Definition is_close (ev : event) : bool :=
  match ev with CloseClient => true | _ => false end.

Definition is_create (ev : event) : bool :=
  match ev with CreateClient _ => true | _ => false end.

(** The cursor the scanner holds after the reply to a listing call. *)
Definition cursor_after (cur : option string) (r : reply ListFolderResult)
  : option string :=
  match r with
  | Ok response => Some (cursor response)
  | Err _ => cur
  end.

(** The cursor held after the events of [t]. *)
Fixpoint cursor_run (cur : option string) (t : list event) : option string :=
  match t with
  | [] => cur
  | ListFolder _ _ r :: t' | ListFolderContinue _ r :: t' =>
      cursor_run (cursor_after cur r) t'
  | _ :: t' => cursor_run cur t'
  end.

(** The listing calls of a trace follow the cursor: with no cursor the
    call lists [TARGET_FOLDER] recursively, with one it continues from
    it; a page received sets the cursor, an error leaves it. *)
Fixpoint follows_cursor (cur : option string) (t : list event) : Prop :=
  match t with
  | [] => True
  | ListFolder path recursive r :: t' =>
      (cur = None /\ path = TARGET_FOLDER /\ recursive = true)
      /\ follows_cursor (cursor_after cur r) t'
  | ListFolderContinue c r :: t' =>
      cur = Some c /\ follows_cursor (cursor_after cur r) t'
  | _ :: t' => follows_cursor cur t'
  end.

(** The exception with which a call of the trace was answered. *)
Definition raised_by (ev : event) : option exn :=
  match ev with
  | ListFolder _ _ (Err e) | ListFolderContinue _ (Err e)
  | DeleteBatch _ (Err e) | DeleteV2 _ (Err e)
  | Input _ (Err e) | CreateClient (Err e) => Some e
  | _ => None
  end.

Definition timed_out (ev : event) : bool :=
  match raised_by ev with
  | Some e => is_read_timeout e
  | None => false
  end.

(** A call of the trace was answered with [e]. *)
Definition heard (t : list event) (e : exn) : Prop :=
  exists ev, In ev t /\ raised_by ev = Some e.

(** [m] raises only what one of its calls was answered with. *)
Definition relays {W A} (m : M W A) : Prop :=
  forall w e, outcome_of (m w) = Raise e -> heard (trace_of (m w)) e.

Definition is_critical (ev : event) : bool :=
  match ev with Log CRITICAL _ => true | _ => false end.

(** How [main] goes on after an attempt.  A client is created only
    when a call of the attempt was answered with a [ReadTimeout]
    ([seen]); it is followed by the wait of [10 * retry_main] seconds
    and the [finally] block, or, when the constructor raises, by the
    [finally] block and nothing else.  After the log line of a fatal
    error comes the [finally] block and nothing else. *)
Fixpoint reconnects (seen : bool) (retry_main : nat) (t : list event)
  : Prop :=
  match t with
  | [] => True
  | CreateClient r :: t' =>
      seen = true
      /\ match r with
         | Ok _ =>
             exists rest,
               t' = Sleep (inject_Z (10 * Z.of_nat retry_main))
                    :: CloseClient :: Log INFO Completed :: rest
         | Err _ => t' = [CloseClient; Log INFO Completed]
         end
      /\ reconnects false (S retry_main) t'
  | Log CRITICAL (FatalError _) :: t' =>
      t' = [CloseClient; Log INFO Completed]
  | ev :: t' => reconnects (seen || timed_out ev) retry_main t'
  end.

(* ================================================================= *)
(** * Properties *)

(** ** Strings *)

Lemma append_assoc (a b c : string) : ((a ++ b) ++ c = a ++ (b ++ c))%string.
Proof. induction a as [|x a IH]; simpl; [reflexivity | now rewrite IH]. Qed.

Lemma append_empty_r (a : string) : (a ++ "" = a)%string.
Proof. induction a as [|x a IH]; simpl; [reflexivity | now rewrite IH]. Qed.

Lemma lower_append (a b : string) :
  Str.lower (a ++ b) = (Str.lower a ++ Str.lower b)%string.
Proof. induction a as [|x a IH]; simpl; [reflexivity | now rewrite IH]. Qed.

Lemma lower_split (n u v : string) :
  Str.lower n = (u ++ v)%string ->
  exists a b, n = (a ++ b)%string /\ Str.lower a = u /\ Str.lower b = v.
Proof.
  revert n; induction u as [|c u IH]; intros n E.
  - exists ""%string, n. auto.
  - destruct n as [|d n]; simpl in E; [discriminate|].
    injection E as Ec E. destruct (IH _ E) as (a & b & -> & <- & <-).
    exists (String d a), b. simpl. now rewrite Ec.
Qed.

Lemma lower_char_idem (c : ascii) :
  Str.lower_char (Str.lower_char c) = Str.lower_char c.
Proof. destruct c as [[] [] [] [] [] [] [] []]; reflexivity. Qed.

Lemma lower_idem (s : string) : Str.lower (Str.lower s) = Str.lower s.
Proof.
  induction s as [|c s IH]; simpl; [reflexivity|].
  now rewrite lower_char_idem, IH.
Qed.

Lemma sep_lower_char (c : ascii) : Re.sep (Str.lower_char c) = Re.sep c.
Proof. destruct c as [[] [] [] [] [] [] [] []]; reflexivity. Qed.

Lemma all_sep_lower (s : string) :
  Str.all Re.sep (Str.lower s) = Str.all Re.sep s.
Proof.
  induction s as [|c s IH]; simpl; [reflexivity|].
  now rewrite sep_lower_char, IH.
Qed.

Lemma all_append (p : ascii -> bool) (a b : string) :
  Str.all p (a ++ b) = Str.all p a && Str.all p b.
Proof.
  induction a as [|x a IH]; simpl; [reflexivity|].
  now rewrite IH, andb_assoc.
Qed.

Lemma mem_append (c : ascii) (a b : string) :
  Str.mem c (a ++ b) = Str.mem c a || Str.mem c b.
Proof.
  induction a as [|x a IH]; simpl; [reflexivity|].
  now rewrite IH, orb_assoc.
Qed.

Lemma no_newline_all_dot (s : string) :
  Str.mem Str.newline s = false -> Str.all Re.dot s = true.
Proof.
  induction s as [|c s IH]; [reflexivity|].
  cbn [Str.mem Str.all]. intros E. apply orb_false_elim in E as [E1 E2].
  unfold Re.dot. rewrite Ascii.eqb_sym, E1. cbn [negb andb]. auto.
Qed.

(** ** [dirname] never lengthens a path *)

Lemma head_upto_last_slash_length (p : string) :
  String.length (Str.head_upto_last_slash p) <= String.length p.
Proof.
  induction p as [|c p IH]; cbn [Str.head_upto_last_slash String.length];
    [lia|].
  destruct (Str.mem Str.slash p); cbn [String.length]; [lia|].
  destruct (Ascii.eqb c Str.slash); cbn [String.length]; lia.
Qed.

Lemma head_upto_last_slash_full (p : string) :
  String.length (Str.head_upto_last_slash p) = String.length p ->
  Str.head_upto_last_slash p = p.
Proof.
  induction p as [|c p IH]; cbn [Str.head_upto_last_slash String.length];
    [reflexivity|].
  destruct (Str.mem Str.slash p); cbn [String.length].
  - intros [= E]. now rewrite IH.
  - destruct (Ascii.eqb c Str.slash); cbn [String.length];
      [|discriminate].
    intros [= E]. destruct p; [reflexivity | discriminate].
Qed.

Lemma rstrip_slash_length (s : string) :
  String.length (Str.rstrip_slash s) <= String.length s.
Proof.
  induction s as [|c s IH]; cbn [Str.rstrip_slash String.length]; [lia|].
  destruct (Str.rstrip_slash s) as [|d r]; cbn [String.length] in *.
  - destruct (Ascii.eqb c Str.slash); cbn [String.length]; lia.
  - lia.
Qed.

Lemma rstrip_slash_full (s : string) :
  String.length (Str.rstrip_slash s) = String.length s ->
  Str.rstrip_slash s = s.
Proof.
  induction s as [|c s IH]; cbn [Str.rstrip_slash String.length];
    [reflexivity|].
  destruct (Str.rstrip_slash s) as [|d r] eqn:Er; cbn [String.length] in *.
  - destruct (Ascii.eqb c Str.slash); cbn [String.length];
      [discriminate|].
    intros [= E]. destruct s; [reflexivity | discriminate].
  - intros [= E]. now rewrite IH.
Qed.

Lemma dirname_length (p : string) :
  String.length (Str.dirname p) <= String.length p.
Proof.
  unfold Str.dirname.
  pose proof (head_upto_last_slash_length p).
  pose proof (rstrip_slash_length (Str.head_upto_last_slash p)).
  destruct (Str.all _ _); lia.
Qed.

Lemma dirname_fixed (p : string) :
  String.length (Str.dirname p) = String.length p -> Str.dirname p = p.
Proof.
  unfold Str.dirname.
  pose proof (head_upto_last_slash_length p) as Hh.
  pose proof (rstrip_slash_length (Str.head_upto_last_slash p)) as Hr.
  destruct (Str.all _ _); intros E.
  - now apply head_upto_last_slash_full.
  - rewrite rstrip_slash_full by lia.
    apply head_upto_last_slash_full. lia.
Qed.

(** ** Lower-case paths and the prefixes as written *)

(** A prefix of a lower-case path is lower-case. *)
Lemma prefix_lower (a b : string) :
  String.prefix a b = true -> Str.lower b = b -> Str.lower a = a.
Proof.
  revert b; induction a as [|x a IH]; intros [|y b]; cbn [String.prefix];
    try reflexivity; try discriminate.
  destruct (ascii_dec x y) as [->|]; [|discriminate].
  cbn [Str.lower]. intros Hp [= Hy Hb]. now rewrite Hy, (IH b).
Qed.

(** Each configured prefix has an upper-case letter, so the test of
    [clean_empty_folders] never holds for a lower-case path. *)
Lemma excluded_exact_lower_case (folder : string) :
  Str.lower folder = folder -> excluded_exact folder = false.
Proof.
  intros Hl. unfold excluded_exact, EXCLUDE_FOLDERS, Str.startswith.
  cbn [existsb].
  repeat match goal with
         | |- context [String.prefix ?excl folder] =>
             let E := fresh "E" in
             destruct (String.prefix excl folder) eqn:E;
             [apply prefix_lower in E; [vm_compute in E; discriminate
                                       | exact Hl] |]
         end.
  reflexivity.
Qed.

(** ** The matcher against decompositions of the subject *)

Lemma match_here_star_eq (p : ascii -> bool) (r : Re.pattern) (s : string) :
  Re.match_here (Re.Star p :: r) s
  = Re.match_here r s
    || match s with
       | String c s' => p c && Re.match_here (Re.Star p :: r) s'
       | EmptyString => false
       end.
Proof. destruct s; reflexivity. Qed.

Lemma match_here_star (p : ascii -> bool) (r : Re.pattern) (s : string) :
  Re.match_here (Re.Star p :: r) s = true <->
  exists run rest, s = (run ++ rest)%string /\ Str.all p run = true
                   /\ Re.match_here r rest = true.
Proof.
  split.
  - induction s as [|c s IH]; rewrite match_here_star_eq; intros E.
    + rewrite orb_false_r in E. exists ""%string, ""%string. auto.
    + apply orb_true_iff in E as [E|E].
      * exists ""%string, (String c s). auto.
      * apply andb_true_iff in E as [Ec E].
        destruct (IH E) as (run & rest & -> & Hrun & Hrest).
        exists (String c run), rest. simpl. rewrite Ec, Hrun. auto.
  - intros (run & rest & -> & Hrun & Hrest).
    induction run as [|c run IH].
    + change (""%string ++ rest)%string with rest.
      rewrite match_here_star_eq, Hrest. reflexivity.
    + cbn [Str.all] in Hrun. apply andb_true_iff in Hrun as [Ec Hrun].
      change (String c run ++ rest)%string with (String c (run ++ rest)).
      rewrite match_here_star_eq, Ec, (IH Hrun). cbn [andb].
      apply orb_true_r.
Qed.

Lemma lit_iff (l c : ascii) :
  Re.lit l c = true <-> Str.lower_char c = Str.lower_char l.
Proof. unfold Re.lit. apply Ascii.eqb_eq. Qed.

Lemma match_here_word (w : string) (r : Re.pattern) (s : string) :
  Re.match_here (Re.word w ++ r) s = true <->
  exists u rest, s = (u ++ rest)%string /\ Str.lower u = Str.lower w
                 /\ Re.match_here r rest = true.
Proof.
  revert s; induction w as [|l w IH]; intros s; simpl.
  - split.
    + intros E. exists ""%string, s. auto.
    + intros (u & rest & -> & Hu & Hr). destruct u; [easy | discriminate].
  - destruct s as [|c s].
    + split; [discriminate|].
      intros (u & rest & E & Hu & _). destruct u; discriminate.
    + rewrite andb_true_iff, lit_iff, IH. split.
      * intros (Ec & u & rest & -> & Hu & Hr).
        exists (String c u), rest. simpl. now rewrite Ec, Hu.
      * intros (u & rest & E & Hu & Hr).
        destruct u as [|d u]; [discriminate|]. simpl in *.
        injection E as -> ->. injection Hu as Hd Hu.
        split; [exact Hd|]. exists u, rest. auto.
Qed.

Lemma at_eol_iff (s : string) :
  Re.at_eol s = true <-> s = ""%string \/ s = String Str.newline "".
Proof.
  destruct s as [|c [|d s]]; simpl.
  - tauto.
  - rewrite Ascii.eqb_eq. split.
    + intros ->. auto.
    + intros [E|E]; [discriminate | now injection E].
  - split; [discriminate | intros [E|E]; discriminate].
Qed.

Lemma match_here_eol (s : string) :
  Re.match_here [Re.Eol] s = true <->
  s = ""%string \/ s = String Str.newline "".
Proof. simpl. rewrite andb_true_r. apply at_eol_iff. Qed.

Lemma search_iff (r : Re.pattern) (s : string) :
  Re.search r s = true <->
  exists pre rest, s = (pre ++ rest)%string /\ Re.match_here r rest = true.
Proof.
  split.
  - induction s as [|c s IH]; simpl; intros E.
    + rewrite orb_false_r in E. exists ""%string, ""%string. auto.
    + apply orb_true_iff in E as [E|E].
      * exists ""%string, (String c s). auto.
      * destruct (IH E) as (pre & rest & -> & Hr).
        exists (String c pre), rest. auto.
  - intros (pre & rest & -> & Hr).
    induction pre as [|c pre IH]; simpl.
    + destruct rest; simpl; now rewrite Hr.
    + rewrite IH. apply orb_true_r.
Qed.

Lemma match_here_star_skip (p : ascii -> bool) (r : Re.pattern) (s : string) :
  Re.match_here r s = true -> Re.match_here (Re.Star p :: r) s = true.
Proof. intros E. rewrite match_here_star_eq, E. reflexivity. Qed.

Lemma match_here_word_mono (w : string) (r r' : Re.pattern) :
  (forall s, Re.match_here r s = true -> Re.match_here r' s = true) ->
  forall s, Re.match_here (Re.word w ++ r) s = true ->
            Re.match_here (Re.word w ++ r') s = true.
Proof.
  intros Hr s E. apply match_here_word in E as (u & rest & -> & Hu & E).
  apply match_here_word. exists u, rest. auto.
Qed.

Lemma match_here_star_mono (p : ascii -> bool) (r r' : Re.pattern) :
  (forall s, Re.match_here r s = true -> Re.match_here r' s = true) ->
  forall s, Re.match_here (Re.Star p :: r) s = true ->
            Re.match_here (Re.Star p :: r') s = true.
Proof.
  intros Hr s E. apply match_here_star in E as (run & rest & -> & Hrun & E).
  apply match_here_star. exists run, rest. auto.
Qed.

Lemma search_mono (r r' : Re.pattern) :
  (forall s, Re.match_here r s = true -> Re.match_here r' s = true) ->
  forall s, Re.search r s = true -> Re.search r' s = true.
Proof.
  intros Hr s E. apply search_iff in E as (pre & rest & -> & E).
  apply search_iff. exists pre, rest. auto.
Qed.

(** The first two patterns are special cases of the third. *)
Lemma pattern_1_in_3 (s : string) :
  Re.search pattern_1 s = true -> Re.search pattern_3 s = true.
Proof.
  apply search_mono. unfold pattern_1, pattern_3.
  apply match_here_word_mono.
  apply (match_here_star_mono Re.sep).
  apply match_here_word_mono.
  intros t. apply (match_here_star_skip Re.dot).
Qed.

Lemma pattern_2_in_1 (s : string) :
  Re.search pattern_2 s = true -> Re.search pattern_1 s = true.
Proof.
  apply search_mono. unfold pattern_2, pattern_1.
  change (Re.word "memostyle" ++ Re.word ".pdf" ++ [Re.Eol])
    with (Re.word "memo" ++ Re.word "style" ++ Re.word ".pdf" ++ [Re.Eol]).
  apply match_here_word_mono.
  intros t. apply (match_here_star_skip Re.sep).
Qed.

Lemma is_target_file_pattern_3 (n : string) :
  is_target_file n = true <-> Re.search pattern_3 n = true.
Proof.
  unfold is_target_file, patterns. cbn [existsb].
  rewrite orb_false_r, !orb_true_iff. split.
  - intros [E|[E|E]]; auto using pattern_1_in_3, pattern_2_in_1.
  - auto.
Qed.

Lemma search_pattern_3_iff (n : string) :
  Re.search pattern_3 n = true <-> decorated n.
Proof.
  unfold pattern_3, decorated. split.
  - intros E. apply search_iff in E as (pre & r0 & -> & E).
    apply match_here_word in E as (u1 & r1 & -> & H1 & E).
    apply (match_here_star Re.sep) in E as (run & r2 & -> & H2 & E).
    apply match_here_word in E as (u2 & r3 & -> & H3 & E).
    apply (match_here_star Re.dot) in E as (x & r4 & -> & H4 & E).
    apply match_here_word in E as (u3 & r5 & -> & H5 & E).
    apply match_here_eol in E.
    exists pre, u1, run, u2, x, u3, r5. auto 10.
  - intros (pre & u1 & run & u2 & x & u3 & tail & -> & H1 & H2 & H3 & H4
            & H5 & H6).
    apply search_iff. eexists _, _. split; [reflexivity|].
    apply match_here_word. eexists _, _. split; [reflexivity|].
    split; [exact H1|].
    apply (match_here_star Re.sep). eexists _, _. split; [reflexivity|].
    split; [exact H2|].
    apply match_here_word. eexists _, _. split; [reflexivity|].
    split; [exact H3|].
    apply (match_here_star Re.dot). eexists _, _. split; [reflexivity|].
    split; [exact H4|].
    apply match_here_word. eexists _, _. split; [reflexivity|].
    split; [exact H5|].
    apply match_here_eol. exact H6.
Qed.

Lemma surface_form_decorated (n : string) :
  SurfaceForm.surface_form n -> SurfaceForm.form_decorated n.
Proof.
  intros [H|[(run & Hrun & H)|H]].
  - exists ""%string, ""%string. split; [reflexivity | exact H].
  - exists run, ""%string. split; [exact Hrun | exact H].
  - exact H.
Qed.

Lemma surface_form_ends_pdf (n : string) :
  SurfaceForm.surface_form n -> SurfaceForm.ends_with_ci n ".pdf".
Proof.
  intros H. apply surface_form_decorated in H as (run & x & _ & pre & E).
  exists (pre ++ "memo" ++ run ++ "style" ++ x)%string.
  rewrite E, !append_assoc. reflexivity.
Qed.

Lemma decorated_form (n : string) :
  Str.mem Str.newline n = false ->
  decorated n -> SurfaceForm.form_decorated n.
Proof.
  intros Hnl (pre & u1 & run & u2 & x & u3 & tail & -> & H1 & H2 & H3 & H4
              & H5 & H6).
  destruct H6 as [-> | ->].
  - exists (Str.lower run), (Str.lower x). split.
    + unfold SurfaceForm.separator_run.
      change (Str.all Re.sep (Str.lower run) = true).
      now rewrite all_sep_lower.
    + exists (Str.lower pre).
      rewrite !lower_append, H1, H3, H5. reflexivity.
  - rewrite !mem_append in Hnl. cbn in Hnl.
    rewrite !orb_true_r in Hnl. discriminate.
Qed.

Lemma form_decorated_matches (n : string) :
  Str.mem Str.newline n = false ->
  SurfaceForm.form_decorated n -> decorated n.
Proof.
  intros Hnl (run & x & Hrun & pre & E).
  apply lower_split in E as (a & n1 & -> & Ha & E).
  apply lower_split in E as (u1 & n2 & -> & H1 & E).
  apply lower_split in E as (run0 & n3 & -> & Hr & E).
  apply lower_split in E as (u2 & n4 & -> & H2 & E).
  apply lower_split in E as (x0 & u3 & -> & Hx & H3).
  exists a, u1, run0, u2, x0, u3, ""%string.
  rewrite append_empty_r. repeat split; auto.
  - rewrite <- all_sep_lower, Hr. exact Hrun.
  - apply no_newline_all_dot. rewrite !mem_append in Hnl.
    repeat (apply orb_false_elim in Hnl as [? Hnl]).
    assumption.
Qed.

(** C3 (amended).  For every name without a line feed, [is_target_file]
    holds exactly when the name, case-insensitively, ends with one of the
    three surface forms: the literal ["memostyle.pdf"]; ["memo"], a run
    of whitespace, hyphens and underscores, then ["style.pdf"]; or that
    prefix up to ["style"] followed by arbitrary characters before
    [".pdf"].  In particular it is false for a name that does not end
    with [".pdf"]. *)
Theorem is_target_file_surface_forms (N : string)
    (Hnl : Str.mem Str.newline N = false) :
  (is_target_file N = true <-> SurfaceForm.surface_form N)
  /\ (~ SurfaceForm.surface_form N -> is_target_file N = false)
  /\ (~ SurfaceForm.ends_with_ci N ".pdf" -> is_target_file N = false).
Proof.
  assert (Hiff : is_target_file N = true <-> SurfaceForm.surface_form N).
  { rewrite is_target_file_pattern_3, search_pattern_3_iff. split.
    - intros H. right. right. now apply decorated_form.
    - intros H. apply form_decorated_matches; [exact Hnl|].
      now apply surface_form_decorated. }
  split; [exact Hiff|]. split.
  - intros Hn. destruct (is_target_file N) eqn:E; [|reflexivity].
    exfalso. apply Hn, Hiff. reflexivity.
  - intros Hn. destruct (is_target_file N) eqn:E; [|reflexivity].
    exfalso. apply Hn, surface_form_ends_pdf, Hiff. reflexivity.
Qed.

Lemma is_target_file_surface_forms_witness :
  Str.mem Str.newline "Memo - Style (final).PDF" = false
  /\ is_target_file "Memo - Style (final).PDF" = true
  /\ SurfaceForm.surface_form "Memo - Style (final).PDF".
Proof.
  pose proof (is_target_file_surface_forms "Memo - Style (final).PDF"
                eq_refl) as (Hiff & _).
  split; [reflexivity|]. split; [reflexivity|].
  apply Hiff. reflexivity.
Defined.

(** C3 (as stated) fails on a name with a trailing line feed: [$] also
    matches just before it, so ["memostyle.pdf\n"] is a target although
    it does not end with [".pdf"] and has none of the surface forms. *)
Lemma is_target_file_trailing_newline :
  let N := ("memostyle.pdf" ++ String Str.newline "")%string in
  is_target_file N = true
  /\ ~ SurfaceForm.ends_with_ci N ".pdf"
  /\ ~ (is_target_file N = true <-> SurfaceForm.surface_form N).
Proof.
  intros N.
  assert (Hend : ~ SurfaceForm.ends_with_ci N ".pdf").
  { intros [pre E]. vm_compute in E.
    repeat (destruct pre as [|? pre];
            [discriminate | simpl in E; injection E as _ E]).
    destruct pre; discriminate. }
  split; [reflexivity|]. split; [exact Hend|].
  intros [Hto _]. apply Hend, surface_form_ends_pdf, Hto. reflexivity.
Qed.

(* ================================================================= *)
(** ** The retry wrapper *)

Section RetryProperties.
Context {W A : Type}.
Variable func : M W A.

Lemma backoff_step (ct : Q) (a : nat) :
  ct == INITIAL_TIMEOUT * BACKOFF_FACTOR ^ Z.of_nat a ->
  ct * BACKOFF_FACTOR == INITIAL_TIMEOUT * BACKOFF_FACTOR ^ Z.of_nat (S a).
Proof.
  intros E. rewrite Nat2Z.inj_succ, <- Z.add_1_r.
  rewrite Qpower_plus by (unfold BACKOFF_FACTOR; discriminate).
  rewrite E. change (BACKOFF_FACTOR ^ 1)%Q with BACKOFF_FACTOR. ring.
Qed.

Lemma robust_api_call_loop_retries :
  forall (len a : nat) (last_error : option exn) (ct : Q) (w : W),
    a + S len = MAX_RETRIES + 1 ->
    ct == INITIAL_TIMEOUT * BACKOFF_FACTOR ^ Z.of_nat a ->
    exists waits : list Q,
      let n := List.length waits in
      let final := nth_call func n w in
      let run := robust_api_call_loop func (seq a (S len)) last_error ct w in
      n <= len
      /\ (forall k, k < n -> transient_raise (nth_call func k w) = true)
      /\ (forall k q, nth_error waits k = Some q ->
            q == INITIAL_TIMEOUT * BACKOFF_FACTOR ^ Z.of_nat (a + S k))
      /\ world_of run = world_of final
      /\ outcome_of run = outcome_of final
      /\ (transient_raise final = true -> n = len)
      /\ trace_of run
         = retried_trace func w (a + 1) waits ++ trace_of final
           ++ (if transient_raise final
               then [Log ERROR MaxRetriesExceeded] else []).
Proof.
  induction len as [|len IH]; intros a last_error ct w Ha Hct.
  - (* the last attempt: [attempt = MAX_RETRIES] *)
    exists []. cbn [List.length nth_call retried_trace seq].
    assert (Ea : a = MAX_RETRIES) by lia. subst a.
    cbn [robust_api_call_loop]. unfold transient_raise, outcome_of, world_of, trace_of.
    destruct (func w) as [[w1 t1] r] eqn:Ef. cbn [fst snd].
    destruct r as [x|e|].
    + repeat split; try (intros; lia || discriminate).
      * intros [|k] q; discriminate.
      * now rewrite app_nil_r.
    + destruct (is_timeout_or_connection e) eqn:Et.
      * rewrite Nat.ltb_irrefl. cbn.
        repeat split; try (intros; lia).
        intros [|k] q; discriminate.
      * repeat split; try (intros; lia || discriminate).
        -- intros [|k] q; discriminate.
        -- now rewrite app_nil_r.
    + repeat split; try (intros; lia || discriminate).
      * intros [|k] q; discriminate.
      * now rewrite app_nil_r.
  - (* an attempt with retries left *)
    assert (Hlt : (a <? MAX_RETRIES) = true) by (apply Nat.ltb_lt; lia).
    change (seq a (S (S len))) with (a :: seq (S a) (S len)).
    cbn [robust_api_call_loop]. rewrite Hlt.
    destruct (func w) as [[w1 t1] r] eqn:Ef.
    destruct r as [x|e|];
      [ exists [] | destruct (is_timeout_or_connection e) eqn:Et;
                    [ | exists [] ] | exists [] ];
      try (cbn [List.length nth_call retried_trace];
           unfold transient_raise, outcome_of, world_of, trace_of;
           rewrite Ef; cbn [fst snd]; try rewrite Et;
           repeat split; try (intros; lia || discriminate);
           [ intros [|k] q; discriminate | now rewrite app_nil_r ]).
    destruct (IH (S a) (Some e) (ct * BACKOFF_FACTOR)%Q w1)
      as (waits & Hn & Hk & Hw & Hworld & Hout & Hfin & Htr);
      [lia | now apply backoff_step |].
    exists ((ct * BACKOFF_FACTOR)%Q :: waits).
    cbn [List.length nth_call retried_trace].
    unfold world_of at 1 3 5. unfold trace_of at 1 3. rewrite Ef. cbn [fst snd].
    unfold bind, log, sleep, emit.
    destruct (robust_api_call_loop func (seq (S a) (S len)) (Some e)
                (ct * BACKOFF_FACTOR)%Q w1) as [[w2 t2] r2] eqn:El.
    unfold world_of, outcome_of, trace_of in *. cbn [fst snd] in *.
    repeat split.
    + lia.
    + intros [|k] Hlt'.
      * cbn [nth_call]. unfold transient_raise, outcome_of.
        rewrite Ef. cbn [snd]. exact Et.
      * cbn [nth_call]. unfold world_of. rewrite Ef. cbn [fst].
        apply Hk. lia.
    + intros [|k] q Hq.
      * injection Hq as <-. rewrite Nat.add_1_r. now apply backoff_step.
      * cbn [nth_error] in Hq. rewrite <- Nat.add_succ_comm.
        now apply Hw.
    + exact Hworld.
    + exact Hout.
    + intros Hf. f_equal. now apply Hfin.
    + rewrite Htr. replace (S (a + 1)) with (S a + 1) by lia.
      cbn [app]. rewrite <- !app_assoc. reflexivity.
Qed.

(** C5.  [robust_api_call] invokes the operation again only after a
    read-timeout or connection error, at most [MAX_RETRIES] times (so
    at most [MAX_RETRIES + 1] invocations); before the [k]-th retry it
    logs a warning and waits [INITIAL_TIMEOUT * BACKOFF_FACTOR ^ k];
    the outcome is that of the last invocation: its value, the error
    it raised when that error is not transient (no wait follows it),
    or, once the ceiling is reached, the last transient error. *)
Theorem robust_api_call_retries (w : W) :
  exists waits : list Q,
    let retries := List.length waits in
    let final := nth_call func retries w in
    let run := robust_api_call func w in
    retries <= MAX_RETRIES
    /\ (forall k, k < retries -> transient_raise (nth_call func k w) = true)
    /\ (forall k q, nth_error waits k = Some q ->
          q == INITIAL_TIMEOUT * BACKOFF_FACTOR ^ Z.of_nat (S k))
    /\ world_of run = world_of final
    /\ outcome_of run = outcome_of final
    /\ (transient_raise final = true -> retries = MAX_RETRIES)
    /\ trace_of run
       = retried_trace func w 1 waits ++ trace_of final
         ++ (if transient_raise final
             then [Log ERROR MaxRetriesExceeded] else []).
Proof.
  unfold robust_api_call.
  replace (MAX_RETRIES + 1) with (S MAX_RETRIES) by (unfold MAX_RETRIES; lia).
  apply (robust_api_call_loop_retries MAX_RETRIES 0 None INITIAL_TIMEOUT w).
  - unfold MAX_RETRIES; lia.
  - cbn. ring.
Qed.

End RetryProperties.

(* ================================================================= *)
(** ** The scanner's failure policy *)

Section ScanProperties.
Context {W : Type} `{Remote W}.

Lemma with_retry_count_same (st : scan_locals) :
  with_retry_count st (s_retry_count st) = st.
Proof. destruct st; reflexivity. Qed.

(** A page that arrives with more to come: the scan goes on from the
    new cursor, with the retry counter reset, after the rate-limit
    delay. *)
Lemma scan_from_next_page (fuel : nat) (st : scan_locals) (w w1 : W)
    (t1 : list event) (response : ListFolderResult) :
  fetch_page (s_cursor st) w = (w1, t1, Ret response) ->
  has_more response = true ->
  let st1 := fst (process_entries (entries response) st) in
  let st2 := {| s_results := s_results st1;
                s_cursor := Some (cursor response);
                s_processed_entries := s_processed_entries st1;
                s_retry_count := 0 |} in
  scan_from (S fuel) st w
  = (world_of (scan_from fuel st2 w1),
     t1 ++ snd (process_entries (entries response) st)
     ++ Sleep API_DELAY :: trace_of (scan_from fuel st2 w1),
     outcome_of (scan_from fuel st2 w1)).
Proof.
  intros Hf Hm st1 st2. subst st1 st2.
  unfold scan_from, bind. cbn [scan_pages]. rewrite Hf, Hm.
  destruct (process_entries (entries response) st) as [st1 t2].
  cbn [negb fst snd]. unfold bind, sleep, emit.
  destruct (scan_pages fuel _ w1) as [[w3 t3] [[st3 [e|]]|e|]];
    unfold world_of, trace_of, outcome_of, log, emit, ret, raise;
    cbn [fst snd app];
    try destruct (target_files (append_failed (s_results st3) _));
    cbn [fst snd app]; rewrite <- ?app_assoc; reflexivity.
Qed.

Lemma scan_pages_exhausted :
  forall (n fuel : nat) (st : scan_locals) (w : W),
    s_retry_count st + n = Scan.MAX_RETRIES ->
    n < fuel ->
    (forall k, k <= n ->
       retryable_raise (nth_call (fetch_page (s_cursor st)) k w)) ->
    exists e,
      outcome_of (nth_call (fetch_page (s_cursor st)) n w) = Raise e
      /\ scan_pages fuel st w
         = (world_of (nth_call (fetch_page (s_cursor st)) n w),
            failed_fetches_trace (fetch_page (s_cursor st)) w
              (s_retry_count st) n,
            Ret (with_retry_count st Scan.MAX_RETRIES, Some e)).
Proof.
  induction n as [|n IH]; intros fuel st w Hrc Hfuel Hfail.
  - destruct fuel as [|fuel]; [lia|].
    destruct (Hfail 0 (le_n _)) as (e & He & Hre).
    exists e. split; [exact He|].
    cbn [nth_call failed_fetches_trace scan_pages] in *.
    unfold outcome_of, world_of, trace_of in *.
    destruct (fetch_page (s_cursor st) w) as [[w1 t1] r].
    cbn [fst snd] in *. subst r. rewrite Hre.
    replace (s_retry_count st <? Scan.MAX_RETRIES) with false
      by (symmetry; apply Nat.ltb_ge; lia).
    cbn [andb]. rewrite Nat.add_0_r in Hrc. rewrite <- Hrc.
    now rewrite with_retry_count_same.
  - destruct fuel as [|fuel]; [lia|].
    destruct (Hfail 0 (Nat.le_0_l _)) as (e0 & He0 & Hre0).
    destruct (IH fuel (with_retry_count st (S (s_retry_count st)))
                (world_of (fetch_page (s_cursor st) w)))
      as (e & He & Hrun).
    + cbn [with_retry_count s_retry_count]. lia.
    + lia.
    + intros k Hk. apply (Hfail (S k)). lia.
    + exists e. split; [exact He|].
      cbn [nth_call failed_fetches_trace scan_pages] in *.
      cbn [with_retry_count s_cursor s_retry_count] in Hrun.
      unfold outcome_of, world_of, trace_of in *.
      destruct (fetch_page (s_cursor st) w) as [[w1 t1] r].
      cbn [fst snd] in *. subst r. rewrite Hre0.
      replace (s_retry_count st <? Scan.MAX_RETRIES) with true
        by (symmetry; apply Nat.ltb_lt; lia).
      cbn [andb]. unfold bind, log, sleep, emit.
      fold (with_retry_count st (S (s_retry_count st))).
      rewrite Hrun. cbn [app]. reflexivity.
Qed.

(** C9.  When the fetch of a page fails until the scanner's retry
    ceiling is used up, the scan stops there: no further call is made.
    The pending cursor (or the target folder, before the first page)
    is recorded as failed; with at least one target already found the
    partial results are returned, with none the last error is raised
    to the caller. *)
Theorem scan_halts_when_retries_exhausted
    (fuel : nat) (st : scan_locals) (w : W) :
  let fetch := fetch_page (s_cursor st) in
  let n := Scan.MAX_RETRIES - s_retry_count st in
  s_retry_count st <= Scan.MAX_RETRIES ->
  n < fuel ->
  (forall k, k <= n -> retryable_raise (nth_call fetch k w)) ->
  exists e,
    outcome_of (nth_call fetch n w) = Raise e
    /\ world_of (scan_from fuel st w) = world_of (nth_call fetch n w)
    /\ trace_of (scan_from fuel st w)
       = failed_fetches_trace fetch w (s_retry_count st) n
         ++ Log ERROR (FatalScanError (s_processed_entries st) e)
         :: match target_files (s_results st) with
            | [] => []
            | _ :: _ => [Log INFO (ScanCompleted (s_processed_entries st))]
            end
    /\ outcome_of (scan_from fuel st w)
       = match target_files (s_results st) with
         | [] => Raise e
         | _ :: _ =>
             Ret {| target_files := target_files (s_results st);
                    other_files := other_files (s_results st);
                    failed_folders :=
                      failed_folders (s_results st)
                      ++ [cursor_or_target (s_cursor st)] |}
         end.
Proof.
  intros fetch n Hrc Hfuel Hfail.
  destruct (scan_pages_exhausted n fuel st w) as (e & He & Hrun);
    [subst n; lia | exact Hfuel | exact Hfail |].
  exists e. split; [exact He|].
  unfold scan_from, bind. rewrite Hrun.
  cbn [with_retry_count s_results s_cursor s_processed_entries].
  unfold log, emit, append_failed. cbn [target_files].
  destruct (target_files (s_results st)) as [|p ps];
    unfold world_of, trace_of, outcome_of; cbn; auto.
Qed.

End ScanProperties.

(* ================================================================= *)
(** ** The batch deleter *)

Section DeleteProperties.
Context {W : Type} `{Remote W}.

Lemma delete_attempts_app (t1 t2 : list event) :
  delete_attempts (t1 ++ t2) = delete_attempts t1 ++ delete_attempts t2.
Proof.
  induction t1 as [|ev t1 IH]; [reflexivity|].
  destruct ev; cbn; now rewrite ?IH.
Qed.

Lemma delete_attempts_attempt (x : list string * reply unit) :
  delete_attempts (attempt_events x) = [x].
Proof. destruct x as [b [[]|e]]; cbn; [|destruct (is_api_error e)]; reflexivity. Qed.

Lemma delete_attempts_flat_attempt (l : list (list string * reply unit)) :
  delete_attempts (flat_map attempt_events l) = l.
Proof.
  induction l as [|x l IH]; [reflexivity|].
  cbn [flat_map]. now rewrite delete_attempts_app, delete_attempts_attempt, IH.
Qed.

Lemma delete_attempts_flat_retry (l : list (list string * reply unit)) :
  delete_attempts (flat_map retry_events l) = l.
Proof.
  induction l as [|x l IH]; [reflexivity|].
  cbn [flat_map]. unfold retry_events at 1. cbn [app delete_attempts].
  now rewrite delete_attempts_app, delete_attempts_attempt, IH.
Qed.

Lemma delete_batch_live (b : list string) (w : W) :
  delete_batch false b w
  = (fst (files_delete_batch b w),
     attempt_events (b, snd (files_delete_batch b w)),
     match snd (files_delete_batch b w) with
     | Ok _ => Ret None
     | Err e => if is_api_error e then Ret (Some b) else Raise e
     end).
Proof.
  unfold delete_batch, try_except, bind, sleep, log, emit, call_delete_batch,
    remote. cbn [negb].
  destruct (files_delete_batch b w) as [w1 [[]|e]]; cbn.
  - reflexivity.
  - destruct (is_api_error e); reflexivity.
Qed.

Lemma delete_batch_dry (b : list string) (w : W) :
  delete_batch true b w
  = (w, [Sleep API_DELAY; Log INFO (ProcessedBatch (List.length b))],
     Ret None).
Proof. reflexivity. Qed.

Lemma retry_failed_cons (DRY_RUN : bool) (b : list string)
    (rest : list (list string)) (w : W) :
  retry_failed DRY_RUN (b :: rest) w
  = let '(w1, t1, r) := delete_batch DRY_RUN b w in
    match r with
    | Ret _ =>
        let '(w2, t2, r2) := retry_failed DRY_RUN rest w1 in
        (w2, Sleep (API_DELAY * 2)%Q :: t1 ++ t2, r2)
    | Raise e => (w1, Sleep (API_DELAY * 2)%Q :: t1, Raise e)
    | OutOfFuel => (w1, Sleep (API_DELAY * 2)%Q :: t1, OutOfFuel)
    end.
Proof.
  cbn [retry_failed]. unfold bind, sleep, emit.
  destruct (delete_batch DRY_RUN b w) as [[w1 t1] [y|e|]]; try reflexivity.
  destruct (retry_failed DRY_RUN rest w1) as [[w2 t2] r2]. reflexivity.
Qed.

(** *** The task of the pool is [delete_batch] *)

Lemma run_task_delete_batch (DRY_RUN : bool) (b : list string) (w : W) :
  run_task (delete_batch_task DRY_RUN b) w = delete_batch DRY_RUN b w.
Proof.
  unfold delete_batch, try_except, bind, sleep, log, emit, call_delete_batch,
    remote, ret.
  cbn [delete_batch_task run_task]. unfold after_sleep.
  destruct DRY_RUN; cbn [negb]; [reflexivity|].
  cbn [run_task]. destruct (files_delete_batch b w) as [w1 [[]|e]];
    cbn [after_call run_task]; [reflexivity|].
  destruct (is_api_error e); reflexivity.
Qed.

(** *** Lists changed at one place *)

Lemma replace_nth_app {X} (l1 l2 : list X) (x y : X) :
  replace_nth (List.length l1) y (l1 ++ x :: l2) = l1 ++ y :: l2.
Proof. induction l1 as [|z l1 IH]; cbn; [reflexivity | now rewrite IH]. Qed.

Lemma combine_app_same {X Y} (a1 a2 : list X) (b1 b2 : list Y) :
  List.length a1 = List.length b1 ->
  combine (a1 ++ a2) (b1 ++ b2) = combine a1 b1 ++ combine a2 b2.
Proof.
  revert b1; induction a1 as [|x a1 IH]; intros [|y b1] Hl;
    try discriminate; [reflexivity|].
  cbn. f_equal. apply IH. now injection Hl.
Qed.

(** Two lists of the same length cut at the same place. *)
Lemma split_both {X Y} (i : nat) (xs : list X) (ys : list Y) (y : Y) :
  List.length ys = List.length xs ->
  nth_error ys i = Some y ->
  exists xs1 x xs2 ys1 ys2,
    xs = xs1 ++ x :: xs2 /\ ys = ys1 ++ y :: ys2
    /\ List.length xs1 = i /\ List.length ys1 = i.
Proof.
  intros Hl Hy. apply nth_error_split in Hy as (ys1 & ys2 & -> & Hi).
  assert (Hx : i < List.length xs)
    by (rewrite <- Hl, length_app; cbn; lia).
  destruct (nth_error xs i) as [x|] eqn:Ex;
    [|apply nth_error_None in Ex; lia].
  apply nth_error_split in Ex as (xs1 & xs2 & -> & Hi').
  now exists xs1, x, xs2, ys1, ys2.
Qed.

Lemma app_same_length {X} (l1 l1' l2 l2' : list X) :
  List.length l1 = List.length l1' ->
  l1 ++ l2 = l1' ++ l2' -> l1 = l1' /\ l2 = l2'.
Proof.
  revert l1'; induction l1 as [|x l1 IH]; intros [|y l1'] Hl E;
    try discriminate; [now split|].
  cbn in E. injection E as -> E. injection Hl as Hl.
  destruct (IH l1' Hl E) as [-> ->]. now split.
Qed.
(** *** The pool, task by task *)

Section Pool.
Variable DRY_RUN : bool.
Variable Inv : W -> Prop.
Variable Good : list string -> reply unit -> Prop.
Hypothesis call_ok :
  DRY_RUN = false ->
  forall b w, Inv w ->
    Inv (fst (files_delete_batch b w))
    /\ Good b (snd (files_delete_batch b w)).

Lemma pool_at_app (bs1 bs2 : list (list string)) (st1 st2 : list stage) :
  List.length bs1 = List.length st1 ->
  pool_at DRY_RUN (bs1 ++ bs2) (st1 ++ st2)
  = pool_at DRY_RUN bs1 st1 ++ pool_at DRY_RUN bs2 st2.
Proof.
  intros Hl. unfold pool_at. now rewrite combine_app_same, map_app.
Qed.

Lemma events_of_app (bs1 bs2 : list (list string)) (st1 st2 : list stage) :
  List.length bs1 = List.length st1 ->
  events_of DRY_RUN (bs1 ++ bs2) (st1 ++ st2)
  = events_of DRY_RUN bs1 st1 ++ events_of DRY_RUN bs2 st2.
Proof.
  intros Hl. unfold events_of. now rewrite combine_app_same, flat_map_app.
Qed.

Lemma events_of_cons (b : list string) (bs : list (list string))
    (s : stage) (st : list stage) :
  events_of DRY_RUN (b :: bs) (s :: st)
  = events_at DRY_RUN b s ++ events_of DRY_RUN bs st.
Proof. reflexivity. Qed.

Lemma pool_at_cons (b : list string) (bs : list (list string))
    (s : stage) (st : list stage) :
  pool_at DRY_RUN (b :: bs) (s :: st)
  = slot_at DRY_RUN b s :: pool_at DRY_RUN bs st.
Proof. reflexivity. Qed.

(** One step of one task moves it one stage on and adds its event. *)
Lemma step_stage (b : list string) (s : stage) (w : W)
    (k : W -> step W (option (list string))) :
  fits DRY_RUN Good b s -> Inv w ->
  task (slot_at DRY_RUN b s) = Step k ->
  exists s' w' ev,
    k w = Moved w' ev (task (slot_at DRY_RUN b s'))
    /\ started (slot_at DRY_RUN b s') = true
    /\ events_at DRY_RUN b s' = events_at DRY_RUN b s ++ [ev]
    /\ fits DRY_RUN Good b s' /\ Inv w'
    /\ (DRY_RUN = true -> w' = w).
Proof.
  intros Hf Hw Hk. destruct s as [| |r|r]; cbn [slot_at task] in Hk.
  - injection Hk as <-. exists Waited, w, (Sleep API_DELAY).
    repeat split; auto.
  - unfold after_sleep in Hk. destruct DRY_RUN eqn:Ed; cbn [negb] in Hk.
    + cbn [after_call] in Hk. injection Hk as <-.
      exists (Logged (Ok tt)), w, (Log INFO (ProcessedBatch (List.length b))).
      cbn [slot_at task started events_at fits result_after returned].
      rewrite ?Ed. repeat split; auto.
    + injection Hk as <-.
      destruct (call_ok eq_refl b w Hw) as [Hw1 Hg].
      destruct (files_delete_batch b w) as [w1 r]. cbn [fst snd] in *.
      exists (Called r), w1, (DeleteBatch b r).
      cbn [slot_at task started events_at fits]. repeat split; auto.
      discriminate.
  - destruct Hf as [Ed Hg]. destruct r as [u|e]; cbn [after_call] in Hk.
    + injection Hk as <-.
      exists (Logged (Ok u)), w, (Log INFO (ProcessedBatch (List.length b))).
      cbn [slot_at task started events_at fits result_after attempt_events
             returned].
      rewrite Ed. repeat split; auto.
    + destruct (is_api_error e) eqn:Ee; [|discriminate].
      injection Hk as <-.
      exists (Logged (Err e)), w, (Log WARNING (BatchFailed e)).
      cbn [slot_at task started events_at fits result_after attempt_events
             returned].
      rewrite Ed, Ee. repeat split; auto.
  - discriminate.
Qed.

Lemma pool_step_sim (i : nat) (bs : list (list string))
    (stages : list stage) (w : W) :
  tasks_fit DRY_RUN Good bs stages -> Inv w ->
  exists stages' w' t,
    pool_step i (pool_at DRY_RUN bs stages) w
    = (w', t, pool_at DRY_RUN bs stages')
    /\ tasks_fit DRY_RUN Good bs stages' /\ Inv w'
    /\ Permutation (events_of DRY_RUN bs stages')
                   (events_of DRY_RUN bs stages ++ t)
    /\ (DRY_RUN = true -> w' = w).
Proof.
  intros [Hl Hf] Hw.
  assert (Hsame : exists stages' w' t,
            (w, @nil event, pool_at DRY_RUN bs stages)
            = (w', t, pool_at DRY_RUN bs stages')
            /\ tasks_fit DRY_RUN Good bs stages' /\ Inv w'
            /\ Permutation (events_of DRY_RUN bs stages')
                           (events_of DRY_RUN bs stages ++ t)
            /\ (DRY_RUN = true -> w' = w)).
  { exists stages, w, []. rewrite app_nil_r. repeat split; auto. }
  unfold pool_step.
  destruct (nth_error (pool_at DRY_RUN bs stages) i) as [sl|] eqn:En;
    [|exact Hsame].
  destruct (task sl) as [r|k] eqn:Et; [exact Hsame|].
  destruct (may_run i (pool_at DRY_RUN bs stages)); [|exact Hsame].
  clear Hsame. unfold pool_at in En. rewrite nth_error_map in En.
  destruct (nth_error (combine bs stages) i) as [[b s]|] eqn:Ec;
    [|discriminate].
  injection En as <-. cbn [fst snd] in Et.
  assert (Hs : nth_error stages i = Some s).
  { clear -Ec. revert bs stages Ec.
    induction i as [|i IH]; intros [|b0 bs] [|s0 stages] Ec;
      try discriminate; cbn in *; [congruence | eauto]. }
  destruct (split_both i bs stages s Hl Hs)
    as (bs1 & b' & bs2 & st1 & st2 & -> & -> & Hi1 & Hi2).
  assert (b' = b) as ->.
  { rewrite combine_app_same in Ec by lia.
    rewrite nth_error_app2 in Ec by (rewrite length_combine; lia).
    rewrite length_combine, Hi1, Hi2, Nat.min_id, Nat.sub_diag in Ec.
    cbn in Ec. congruence. }
  apply Forall2_app_inv_l in Hf as (st1' & st2' & Hf1 & Hf2 & E).
  apply app_same_length in E as [<- <-];
    [|apply Forall2_length in Hf1; lia].
  inversion Hf2 as [|? ? ? ? Hfs Hf2']; subst.
  destruct (step_stage b s w k Hfs Hw Et)
    as (s' & w' & ev & Hk & Hst & Hev & Hfs' & Hw' & Hdry).
  rewrite Hk. exists (st1 ++ s' :: st2), w', [ev].
  split.
  - f_equal. rewrite !pool_at_app by lia. rewrite !pool_at_cons.
    rewrite <- Hi2 at 1.
    replace (List.length st1) with (List.length (pool_at DRY_RUN bs1 st1))
      by (unfold pool_at; rewrite length_map, length_combine; lia).
    rewrite replace_nth_app. do 2 f_equal.
    destruct (slot_at DRY_RUN b s') as [st tk] eqn:Es.
    cbn [started task] in *. now subst st.
  - split; [split|].
    + rewrite !length_app in *. cbn [List.length] in *. lia.
    + apply Forall2_app; [exact Hf1|]. now constructor.
    + split; [exact Hw'|]. split; [|exact Hdry].
      rewrite !events_of_app by lia. rewrite !events_of_cons, Hev.
      rewrite <- !app_assoc. apply Permutation_app_head.
      apply Permutation_app_head. apply Permutation_app_comm.
Qed.

Lemma pool_run_sim (schedule : list nat) (bs : list (list string))
    (stages : list stage) (w : W) :
  tasks_fit DRY_RUN Good bs stages -> Inv w ->
  exists stages' w' t,
    pool_run schedule (pool_at DRY_RUN bs stages) w
    = (w', t, pool_at DRY_RUN bs stages')
    /\ tasks_fit DRY_RUN Good bs stages' /\ Inv w'
    /\ Permutation (events_of DRY_RUN bs stages')
                   (events_of DRY_RUN bs stages ++ t)
    /\ (DRY_RUN = true -> w' = w).
Proof.
  revert stages w. induction schedule as [|i rest IH]; intros stages w Hf Hw.
  - exists stages, w, []. rewrite app_nil_r. repeat split; auto; apply Hf.
  - cbn [pool_run].
    destruct (pool_step_sim i bs stages w Hf Hw)
      as (st1 & w1 & t1 & -> & Hf1 & Hw1 & Hp1 & Hd1).
    destruct (IH st1 w1 Hf1 Hw1) as (st2 & w2 & t2 & -> & Hf2 & Hw2 & Hp2 & Hd2).
    exists st2, w2, (t1 ++ t2). repeat split; try apply Hf2; auto.
    + rewrite Hp2, Hp1. now rewrite app_assoc.
    + intros Ed. rewrite (Hd2 Ed). auto.
Qed.

(** A task run to its end. *)
Lemma run_task_sim (b : list string) (s : stage) (w : W) :
  fits DRY_RUN Good b s -> Inv w ->
  exists s' w' t,
    run_task (task (slot_at DRY_RUN b s)) w = (w', t, outcome_at b s')
    /\ ended s'
    /\ slot_at DRY_RUN b s'
       = {| started := true; task := Done (outcome_at b s') |}
    /\ events_at DRY_RUN b s' = events_at DRY_RUN b s ++ t
    /\ fits DRY_RUN Good b s' /\ Inv w'
    /\ (ended s -> s' = s)
    /\ (DRY_RUN = true -> w' = w).
Proof.
  intros Hf Hw.
  assert (Hlogged : forall r w0, fits DRY_RUN Good b (Logged r) -> Inv w0 ->
            exists s' w' t,
              (w0, @nil event, result_after b r) = (w', t, outcome_at b s')
              /\ ended s'
              /\ slot_at DRY_RUN b s'
                 = {| started := true; task := Done (outcome_at b s') |}
              /\ events_at DRY_RUN b s' = events_at DRY_RUN b (Logged r) ++ t
              /\ fits DRY_RUN Good b s' /\ Inv w'
              /\ (ended (Logged r) -> s' = Logged r)
              /\ (DRY_RUN = true -> w' = w0)).
  { intros r w0 Hfr Hw0. exists (Logged r), w0, [].
    rewrite app_nil_r. cbn [outcome_at slot_at ended].
    repeat split; auto; apply Hfr. }
  assert (Hcalled : forall r w0, fits DRY_RUN Good b (Called r) -> Inv w0 ->
            exists s' w' t,
              run_task (after_call b r) w0 = (w', t, outcome_at b s')
              /\ ended s'
              /\ slot_at DRY_RUN b s'
                 = {| started := true; task := Done (outcome_at b s') |}
              /\ events_at DRY_RUN b s' = events_at DRY_RUN b (Called r) ++ t
              /\ fits DRY_RUN Good b s' /\ Inv w'
              /\ (ended (Called r) -> s' = Called r)
              /\ (DRY_RUN = true -> w' = w0)).
  { intros r w0 [Ed Hg] Hw0. destruct r as [u|e]; cbn [after_call].
    - exists (Logged (Ok u)), w0,
        [Log INFO (ProcessedBatch (List.length b))].
      cbn [run_task outcome_at result_after slot_at ended events_at fits
             attempt_events returned].
      rewrite Ed. repeat split; auto. intros [].
    - destruct (is_api_error e) eqn:Ee.
      + exists (Logged (Err e)), w0, [Log WARNING (BatchFailed e)].
        cbn [run_task outcome_at result_after slot_at ended events_at fits
               attempt_events returned].
        rewrite Ed, Ee. repeat split; auto. cbn. congruence.
      + exists (Called (Err e)), w0, [].
        cbn [run_task outcome_at result_after slot_at ended events_at fits
               after_call].
        rewrite Ee, app_nil_r. repeat split; auto. }
  assert (Hwaited : forall w0, Inv w0 ->
            exists s' w' t,
              run_task (after_sleep DRY_RUN b) w0 = (w', t, outcome_at b s')
              /\ ended s'
              /\ slot_at DRY_RUN b s'
                 = {| started := true; task := Done (outcome_at b s') |}
              /\ events_at DRY_RUN b s' = events_at DRY_RUN b Waited ++ t
              /\ fits DRY_RUN Good b s' /\ Inv w'
              /\ (DRY_RUN = true -> w' = w0)).
  { intros w0 Hw0. unfold after_sleep. destruct DRY_RUN eqn:Ed; cbn [negb].
    - exists (Logged (Ok tt)), w0,
        [Log INFO (ProcessedBatch (List.length b))].
      cbn [after_call run_task outcome_at result_after slot_at ended
             events_at fits returned].
      rewrite ?Ed. repeat split; auto.
    - cbn [run_task].
      destruct (call_ok eq_refl b w0 Hw0) as [Hw1 Hg].
      destruct (files_delete_batch b w0) as [w1 r]. cbn [fst snd] in *.
      destruct (Hcalled r w1) as (s' & w' & t & Hr & He & Hs & Hev & Hfs' & Hw' & _ & _);
        [now split | exact Hw1 |].
      rewrite Hr. exists s', w', (DeleteBatch b r :: t).
      repeat split; auto; try discriminate.
      all: rewrite Hev; reflexivity. }
  destruct s as [| |r|r]; cbn [slot_at task].
  - cbn [delete_batch_task run_task].
    destruct (Hwaited w Hw) as (s' & w' & t & Hr & He & Hs & Hev & Hfs' & Hw' & Hd).
    rewrite Hr. exists s', w', (Sleep API_DELAY :: t).
    repeat split; auto; try (now intros []).
    all: rewrite Hev; reflexivity.
  - destruct (Hwaited w Hw) as (s' & w' & t & Hr & He & Hs & Hev & Hfs' & Hw' & Hd).
    exists s', w', t. repeat split; auto. intros [].
  - now apply Hcalled.
  - cbn [run_task]. now apply Hlogged.
Qed.

(** [shutdown(wait=True)]: every task that was taken ends. *)
Lemma finish_sim (bs : list (list string)) (stages : list stage) (w : W) :
  tasks_fit DRY_RUN Good bs stages -> Inv w ->
  exists stages' w' t,
    finish (pool_at DRY_RUN bs stages) w = (w', t, pool_at DRY_RUN bs stages')
    /\ tasks_fit DRY_RUN Good bs stages' /\ Inv w'
    /\ Forall ended stages'
    /\ Permutation (events_of DRY_RUN bs stages')
                   (events_of DRY_RUN bs stages ++ t)
    /\ (DRY_RUN = true -> w' = w).
Proof.
  intros [Hl Hf]. revert w. induction Hf as [|b s bs stages Hfs Hf IH];
    intros w Hw.
  - exists [], w, []. cbn. repeat split; auto.
  - rewrite pool_at_cons. cbn [finish].
    destruct (run_task_sim b s w Hfs Hw)
      as (s' & w1 & t1 & -> & He & Hs & Hev & Hfs' & Hw1 & _ & Hd1).
    destruct IH with (w := w1) as (st' & w2 & t2 & -> & [Hl2 Hf2] & Hw2 & He2 & Hev2 & Hd2);
      [cbn in Hl; lia | exact Hw1 |].
    exists (s' :: st'), w2, (t1 ++ t2).
    rewrite pool_at_cons, Hs, !events_of_cons, Hev, Hev2.
    repeat split; auto.
    + cbn [List.length]. lia.
    + rewrite <- !app_assoc. apply Permutation_app_head.
      apply Permutation_app_swap_app.
    + intros Ed. rewrite (Hd2 Ed). auto.
Qed.
(** The results consumed in submission order. *)
Lemma collect_sim (bs : list (list string)) (stages : list stage) (w : W) :
  tasks_fit DRY_RUN Good bs stages -> Inv w ->
  Forall (fun b => b <> []) bs ->
  exists stages',
    let run := collect (pool_at DRY_RUN bs stages) w in
    tasks_fit DRY_RUN Good bs stages' /\ Inv (world_of run)
    /\ Permutation (events_of DRY_RUN bs stages')
                   (events_of DRY_RUN bs stages ++ trace_of run)
    /\ (Forall at_rest stages -> Forall at_rest stages')
    /\ (DRY_RUN = true -> world_of run = w)
    /\ match outcome_of run with
       | Ret ys =>
           Forall returned stages'
           /\ filter_none ys = api_failed (first_attempts bs stages')
       | Raise e =>
           is_api_error e = false
           /\ exists b, In (b, Err e) (first_attempts bs stages')
       | OutOfFuel => False
       end.
Proof.
  intros [Hl Hf]. revert w. induction Hf as [|b s bs stages Hfs Hf IH];
    intros w Hw Hne.
  - exists []. cbn. repeat split; auto; constructor.
  - rewrite pool_at_cons. cbn [collect]. unfold bind.
    destruct (run_task_sim b s w Hfs Hw)
      as (s' & w1 & t1 & -> & He & Hs & Hev & Hfs' & Hw1 & Hsame & Hd1).
    inversion Hne as [|? ? Hb Hne']; subst.
    destruct s' as [| |r|r]; try contradiction.
    + (* the call raised something else than an [ApiError] *)
      destruct r as [u|e]; [contradiction|]. cbn [ended] in He.
      cbn [outcome_at result_after]. rewrite He.
      exists (Called (Err e) :: stages).
      unfold world_of, trace_of, outcome_of. cbn [fst snd].
      rewrite !events_of_cons, Hev. cbn zeta.
      split; [split; [cbn [List.length] in *; lia | now constructor]|].
      split; [exact Hw1|].
      split; [rewrite <- !app_assoc; apply Permutation_app_head,
                Permutation_app_comm|].
      split.
      { intros Hall. inversion Hall; subst. constructor; [|assumption].
        right. exact He. }
      split; [exact Hd1|]. split; [exact He|].
      exists b. cbn [first_attempts]. now left.
    + (* the task returned *)
      destruct Hfs' as [Hg Hret].
      assert (Hout : exists y, outcome_at b (Logged r) = Ret y
                /\ filter_none (y :: nil)
                   = api_failed [(b, r)]).
      { destruct r as [u|e]; cbn [outcome_at result_after].
        - exists None. now split.
        - cbn [returned] in Hret. rewrite Hret. exists (Some b).
          split; [reflexivity|]. cbn [api_failed]. rewrite Hret.
          destruct b; [contradiction | reflexivity]. }
      destruct Hout as (y & -> & Hy).
      destruct (IH ltac:(cbn in Hl; lia) w1 Hw1 Hne')
        as (st' & Hf' & Hw' & Hp' & Hrest' & Hd' & Ho').
      cbn zeta in *.
      destruct (collect (pool_at DRY_RUN bs stages) w1) as [[w2 t2] r2].
      unfold world_of, trace_of, outcome_of in *. cbn [fst snd] in *.
      exists (Logged r :: st').
      assert (Hfit : tasks_fit DRY_RUN Good (b :: bs) (Logged r :: st')).
      { destruct Hf' as [Hl' Hf']. split; [cbn [List.length]; lia|].
        constructor; [now split | exact Hf']. }
      assert (Hperm : forall t,
                Permutation (events_of DRY_RUN (b :: bs) (Logged r :: st'))
                  (events_of DRY_RUN (b :: bs) (s :: stages)
                   ++ t1 ++ t2 ++ t)
                \/ t <> []).
      { intros [|ev t]; [left | right; discriminate].
        rewrite !events_of_cons, Hev, Hp', app_nil_r, <- !app_assoc.
        apply Permutation_app_head, Permutation_app_swap_app. }
      assert (Hrest : Forall at_rest (s :: stages) ->
                      Forall at_rest (Logged r :: st')).
      { intros Hall. inversion Hall; subst.
        constructor; [right; exact I | auto]. }
      destruct r2 as [ys|e|]; cbn [fst snd].
      * destruct (Hperm []) as [Hp|]; [|congruence].
        repeat split; try apply Hfit; auto.
        -- intros Ed. rewrite (Hd' Ed). auto.
        -- constructor; [exact Hret | apply Ho'].
        -- destruct Ho' as [_ Hys].
           change (filter_none (y :: ys))
             with (filter_none (y :: nil) ++ filter_none ys) at 1
             || (destruct y as [[|p q]|]; cbn [filter_none app] in *).
           all: cbn [first_attempts api_failed] in *.
           all: destruct r as [u|e]; cbn [api_failed] in Hy |- *;
             rewrite ?Hret in *; try discriminate; congruence.
      * destruct (Hperm []) as [Hp|]; [|congruence].
        rewrite app_nil_r in Hp.
        repeat split; try apply Hfit; auto.
        -- intros Ed. rewrite (Hd' Ed). auto.
        -- apply Ho'.
        -- destruct Ho' as [_ [b0 Hin]]. exists b0.
           cbn [first_attempts]. now right.
      * contradiction.
Qed.
(** *** The whole pass *)

Lemma dequeued_le {X Y} (pool : list (slot X Y)) :
  dequeued pool <= List.length pool.
Proof.
  induction pool as [|s pool IH]; cbn [dequeued List.length]; [lia|].
  destruct (dequeued pool); [destruct (started s)|]; lia.
Qed.

(** What the workers have not taken has made no step. *)
Lemma dequeued_rest {X Y} (pool : list (slot X Y)) :
  Forall (fun s => started s = false) (skipn (dequeued pool) pool).
Proof.
  induction pool as [|s pool IH]; cbn [dequeued]; [constructor|].
  destruct (dequeued pool) as [|n] eqn:Ed.
  - destruct (started s) eqn:Es; cbn [skipn] in *; [exact IH|].
    now constructor.
  - exact IH.
Qed.

Lemma pool_queued (bs : list (list string)) :
  map (fun x => {| started := false; task := delete_batch_task DRY_RUN x |}) bs
  = pool_at DRY_RUN bs (repeat Queued (List.length bs))
  /\ tasks_fit DRY_RUN Good bs (repeat Queued (List.length bs))
  /\ events_of DRY_RUN bs (repeat Queued (List.length bs)) = [].
Proof.
  induction bs as [|b bs (IH1 & [IH2 IH3] & IH4)].
  - repeat split; constructor.
  - cbn [List.length repeat map]. rewrite pool_at_cons, events_of_cons, IH1, IH4.
    repeat split; cbn [List.length]; auto. constructor; [exact I | exact IH3].
Qed.

Lemma cut_at {X} (n : nat) (l : list X) :
  n <= List.length l ->
  l = firstn n l ++ skipn n l /\ List.length (firstn n l) = n.
Proof.
  intros Hn. split; [now rewrite firstn_skipn|].
  rewrite length_firstn. lia.
Qed.

Lemma firstn_skipn_app {X} (l1 l2 : list X) :
  firstn (List.length l1) (l1 ++ l2) = l1
  /\ skipn (List.length l1) (l1 ++ l2) = l2.
Proof.
  split.
  - rewrite firstn_app, Nat.sub_diag, firstn_all. cbn. apply app_nil_r.
  - rewrite skipn_app, Nat.sub_diag, skipn_all. reflexivity.
Qed.

Lemma tasks_fit_app (bs1 bs2 : list (list string)) (st1 st2 : list stage) :
  List.length bs1 = List.length st1 ->
  tasks_fit DRY_RUN Good (bs1 ++ bs2) (st1 ++ st2)
  <-> tasks_fit DRY_RUN Good bs1 st1 /\ tasks_fit DRY_RUN Good bs2 st2.
Proof.
  intros Hl. unfold tasks_fit. rewrite !length_app. split.
  - intros [Hlen Hf].
    apply Forall2_app_inv_l in Hf as (a & b & Hf1 & Hf2 & E).
    apply app_same_length in E as [<- <-];
      [|apply Forall2_length in Hf1; lia].
    repeat split; auto; lia.
  - intros [[Hl1 Hf1] [Hl2 Hf2]]. split; [lia | now apply Forall2_app].
Qed.

Lemma executor_map_sim (bs : list (list string)) (w : W) :
  Inv w -> Forall (fun b => b <> []) bs ->
  exists stages,
    let run := executor_map (delete_batch_task DRY_RUN) bs w in
    tasks_fit DRY_RUN Good bs stages /\ Forall at_rest stages
    /\ Inv (world_of run)
    /\ Permutation (trace_of run) (events_of DRY_RUN bs stages)
    /\ (DRY_RUN = true -> world_of run = w)
    /\ match outcome_of run with
       | Ret ys =>
           Forall returned stages
           /\ filter_none ys = api_failed (first_attempts bs stages)
       | Raise e =>
           is_api_error e = false
           /\ exists b, In (b, Err e) (first_attempts bs stages)
       | OutOfFuel => False
       end.
Proof.
  intros Hw Hne. unfold executor_map.
  destruct (pool_queued bs) as (-> & Hq & Hev0).
  destruct (pool_run_sim (thread_schedule w) bs _ w Hq Hw)
    as (st1 & w1 & t1 & -> & Hf1 & Hw1 & Hp1 & Hd1).
  rewrite Hev0 in Hp1. cbn [app] in Hp1.
  set (n := dequeued (pool_at DRY_RUN bs st1)).
  pose proof (dequeued_le (pool_at DRY_RUN bs st1)) as Hn. fold n in Hn.
  pose proof (dequeued_rest (pool_at DRY_RUN bs st1)) as Hrest. fold n in Hrest.
  assert (Hlen : List.length (pool_at DRY_RUN bs st1) = List.length bs).
  { unfold pool_at. rewrite length_map, length_combine.
    destruct Hf1 as [Hl _]. lia. }
  destruct Hf1 as [Hl1 Hf1]. rewrite Hlen in Hn.
  destruct (cut_at n bs Hn) as [Eb Hb].
  destruct (cut_at n st1 ltac:(lia)) as [Es Hs].
  set (bsA := firstn n bs) in *. set (bsB := skipn n bs) in *.
  set (stA := firstn n st1) in *. set (stB := skipn n st1) in *.
  clearbody bsA bsB stA stB. subst bs st1.
  assert (Hfit : tasks_fit DRY_RUN Good bsA stA
                 /\ tasks_fit DRY_RUN Good bsB stB)
    by (apply tasks_fit_app; [lia | now split]).
  destruct Hfit as [HfA HfB].
  rewrite pool_at_app in * by lia.
  assert (HlA : List.length (pool_at DRY_RUN bsA stA) = n)
    by (unfold pool_at; rewrite length_map, length_combine; lia).
  rewrite <- HlA in Hrest |- *.
  destruct (firstn_skipn_app (pool_at DRY_RUN bsA stA)
              (pool_at DRY_RUN bsB stB)) as [-> Esk].
  rewrite Esk in *. clear Esk.
  destruct (finish_sim bsA stA w1 HfA Hw1)
    as (stA' & w2 & t2 & -> & HfA' & Hw2 & HeA & Hp2 & Hd2).
  assert (HqB : Forall at_rest stB).
  { destruct HfB as [HlB _]. clear -Hrest HlB. revert stB HlB Hrest.
    induction bsB as [|b bsB IH]; intros [|s stB] HlB Hrest;
      try discriminate; constructor.
    - inversion Hrest; subst. destruct s; try discriminate. now left.
    - apply IH; [cbn in HlB; lia | now inversion Hrest]. }
  assert (HlA' : List.length bsA = List.length stA')
    by (destruct HfA' as [HlA' _]; lia).
  rewrite <- pool_at_app by exact HlA'.
  assert (Hfit' : tasks_fit DRY_RUN Good (bsA ++ bsB) (stA' ++ stB))
    by (apply tasks_fit_app; [exact HlA' | now split]).
  destruct (collect_sim (bsA ++ bsB) (stA' ++ stB) w2 Hfit' Hw2 Hne)
    as (stages & Hfs & Hw3 & Hp3 & Hr3 & Hd3 & Ho3).
  cbn zeta in *.
  destruct (collect (pool_at DRY_RUN (bsA ++ bsB) (stA' ++ stB)) w2)
    as [[w3 t3] r3].
  unfold world_of, trace_of, outcome_of in *. cbn [fst snd] in *.
  exists stages. split; [exact Hfs|]. split.
  { apply Hr3, Forall_app. split; [|exact HqB].
    eapply Forall_impl; [|exact HeA]. intros s Hs'. now right. }
  split; [exact Hw3|]. split.
  { symmetry. rewrite Hp3. rewrite events_of_app by exact HlA'.
    rewrite Hp2. rewrite events_of_app in Hp1 by lia.
    transitivity ((events_of DRY_RUN bsA stA ++ events_of DRY_RUN bsB stB)
                  ++ t2 ++ t3);
      [|apply Permutation_app_tail; exact Hp1].
    rewrite <- !app_assoc. apply Permutation_app_head. rewrite !app_assoc.
    apply Permutation_app_tail, Permutation_app_comm. }
  split; [|exact Ho3].
  intros Ed. rewrite (Hd3 Ed), (Hd2 Ed). auto.
Qed.

End Pool.

(** *** The first pass, read off the stages *)

Lemma events_of_at_rest (Good : list string -> reply unit -> Prop)
    (bs : list (list string)) (stages : list stage) :
  tasks_fit false Good bs stages -> Forall at_rest stages ->
  events_of false bs stages
  = flat_map attempt_events (first_attempts bs stages).
Proof.
  intros [_ Hf] Hr. induction Hf as [|b s bs stages Hb Hf IH];
    [reflexivity|].
  inversion Hr as [|? ? Hs Hr']; subst.
  rewrite events_of_cons, (IH Hr'). cbn [first_attempts].
  destruct s as [| |r|r]; cbn [events_at flat_map].
  - reflexivity.
  - destruct Hs as [Hs|Hs]; [discriminate | contradiction].
  - destruct Hs as [Hs|Hs]; [discriminate|].
    destruct r as [[]|e]; [contradiction|]. cbn [ended] in Hs.
    cbn [attempt_events]. now rewrite Hs, app_nil_r.
  - reflexivity.
Qed.

Lemma events_of_dry (Good : list string -> reply unit -> Prop)
    (bs : list (list string)) (stages : list stage) :
  tasks_fit true Good bs stages -> Forall returned stages ->
  events_of true bs stages = flat_map dry_events bs
  /\ api_failed (first_attempts bs stages) = [].
Proof.
  intros [_ Hf] Hr. induction Hf as [|b s bs stages Hb Hf IH];
    [now split|].
  inversion Hr as [|? ? Hs Hr']; subst.
  destruct (IH Hr') as [IH1 IH2].
  rewrite events_of_cons, IH1. cbn [first_attempts].
  destruct s as [| |r|r]; try contradiction.
  cbn [fits] in Hb. destruct Hb as [-> _].
  cbn [events_at flat_map api_failed]. now split.
Qed.

Lemma first_attempts_fit (DRY_RUN : bool)
    (Good : list string -> reply unit -> Prop)
    (bs : list (list string)) (stages : list stage) :
  tasks_fit DRY_RUN Good bs stages ->
  forall b r, In (b, r) (first_attempts bs stages) ->
    if DRY_RUN then r = Ok tt else Good b r.
Proof.
  intros [_ Hf]. induction Hf as [|b0 s bs stages Hb Hf IH];
    intros b r Hin; [contradiction|].
  cbn [first_attempts] in Hin.
  destruct s as [| |r0|r0]; try (now apply IH);
    destruct Hin as [E|Hin]; try (now apply IH);
    injection E as -> ->; cbn [fits] in Hb.
  - destruct Hb as [-> Hg]. exact Hg.
  - now destruct Hb.
Qed.

Lemma first_attempts_returned (bs : list (list string))
    (stages : list stage) :
  List.length stages = List.length bs -> Forall returned stages ->
  map fst (first_attempts bs stages) = bs
  /\ forall b e, In (b, Err e) (first_attempts bs stages) ->
       is_api_error e = true.
Proof.
  revert stages; induction bs as [|b0 bs IH]; intros [|s stages] Hl Hr;
    try discriminate; [now split|].
  inversion Hr as [|? ? Hs Hr']; subst. injection Hl as Hl.
  destruct (IH stages Hl Hr') as [IH1 IH2].
  destruct s as [| |r|r]; try contradiction.
  cbn [first_attempts map fst]. rewrite IH1. split; [reflexivity|].
  intros b e [E|Hin]; [|now apply (IH2 b)].
  injection E as -> ->. exact Hs.
Qed.


Lemma delete_attempts_perm (t1 t2 : list event) :
  Permutation t1 t2 ->
  Permutation (delete_attempts t1) (delete_attempts t2).
Proof.
  induction 1 as [|ev t1 t2 Hp IH|ev1 ev2 t|t1 t2 t3 H1 IH1 H2 IH2].
  - constructor.
  - destruct ev; cbn [delete_attempts]; auto.
  - destruct ev1, ev2; cbn [delete_attempts];
      first [apply Permutation_refl | apply perm_swap].
  - now transitivity (delete_attempts t2).
Qed.

(** *** The partition into batches *)

Lemma range0_bound (stop step k : nat) :
  0 < step -> In k (range0 stop step) -> k < stop.
Proof.
  intros Hstep Hin. unfold range0 in Hin.
  apply in_map_iff in Hin as (j & <- & Hj). apply in_seq in Hj.
  pose proof (Nat.div_mod_eq (stop + step - 1) step) as Hd.
  pose proof (Nat.mod_upper_bound (stop + step - 1) step) as Hm.
  nia.
Qed.

Lemma batches_of_nonempty (file_paths : list string) :
  Forall (fun b => b <> []) (batches_of file_paths).
Proof.
  apply Forall_forall. intros b Hin. unfold batches_of in Hin.
  apply in_map_iff in Hin as (i & <- & Hi).
  apply range0_bound in Hi; [|unfold BATCH_SIZE; lia].
  unfold slice. intros E. apply (f_equal (@List.length string)) in E.
  rewrite length_firstn, length_skipn in E. cbn [List.length] in E.
  unfold BATCH_SIZE in E. lia.
Qed.

(** *** Counting attempts *)





(** *** The serial pass *)

Section Live.
Variable Inv : W -> Prop.
Variable Good : list string -> reply unit -> Prop.
Hypothesis call_ok :
  forall b w, Inv w ->
    Inv (fst (files_delete_batch b w))
    /\ Good b (snd (files_delete_batch b w)).

Lemma retry_failed_live (failed : list (list string)) (w : W) :
  Inv w ->
  exists rs : list (reply unit),
    let run := retry_failed false failed w in
    List.length rs <= List.length failed
    /\ trace_of run = flat_map retry_events (combine failed rs)
    /\ Inv (world_of run)
    /\ (forall b r, In (b, r) (combine failed rs) -> Good b r)
    /\ match outcome_of run with
       | Ret _ => List.length rs = List.length failed
       | Raise e =>
           is_api_error e = false
           /\ exists b, In (b, Err e) (combine failed rs)
       | OutOfFuel => False
       end.
Proof.
  revert w; induction failed as [|b failed IH]; intros w Hw.
  - exists []. cbn. repeat split; auto. intros ? ? [].
  - cbn zeta. rewrite retry_failed_cons, delete_batch_live.
    destruct (call_ok b w Hw) as [Hw1 Hg].
    destruct (files_delete_batch b w) as [w1 r] eqn:Ef. cbn [fst snd] in *.
    destruct (IH w1 Hw1) as (rs & Hlen & Htr & Hi & Hgs & Hout).
    cbn zeta in *.
    destruct (retry_failed false failed w1) as [[w2 t2] r2].
    unfold trace_of, outcome_of, world_of in *. cbn [fst snd] in *. subst t2.
    assert (Hgood : forall r', r' = r ->
              forall b' r0, In (b', r0) (combine (b :: failed) (r' :: rs)) ->
                Good b' r0).
    { intros r' -> b' r0 [E|Hin]; [now injection E as <- <- | now apply Hgs]. }
    destruct r as [[]|e]; [| destruct (is_api_error e) eqn:Ee ].
    + exists (Ok tt :: rs). cbn [fst snd flat_map List.length].
      split; [lia|]. split; [reflexivity|]. split; [exact Hi|].
      split; [now apply Hgood|].
      destruct r2; [lia | | exact Hout].
      destruct Hout as [He (b' & Hb')]. split; [exact He|].
      exists b'. now right.
    + exists (Err e :: rs). cbn [fst snd flat_map List.length].
      split; [lia|]. split.
      { cbn [combine flat_map]. unfold retry_events at 2.
        cbn [attempt_events]. now rewrite Ee. }
      split; [exact Hi|]. split; [now apply Hgood|].
      destruct r2; [lia | | exact Hout].
      destruct Hout as [He (b' & Hb')]. split; [exact He|].
      exists b'. now right.
    + exists [Err e]. cbn [fst snd List.length].
      split; [lia|]. split.
      { destruct failed; cbn [combine flat_map]; unfold retry_events;
          cbn [attempt_events]; rewrite Ee; now rewrite ?app_nil_r. }
      split; [exact Hw1|]. split.
      { intros b' r0 Hin. destruct failed; cbn [combine] in Hin;
          destruct Hin as [E|[]]; now injection E as <- <-. }
      split; [exact Ee|]. exists b. destruct failed; now left.
Qed.

(** The whole of [turbo_delete_files] in live mode: the pool, then the
    serial pass over the batches the pool handed back. *)
Lemma turbo_delete_files_live (file_paths : list string) (w : W) :
  Inv w ->
  exists (stages : list stage) (rs2 : list (reply unit))
         (pool_trace : list event),
    let bs := batches_of file_paths in
    let first := first_attempts bs stages in
    let second := combine (api_failed first) rs2 in
    let run := turbo_delete_files false file_paths w in
    List.length stages = List.length bs
    /\ Forall at_rest stages
    /\ List.length rs2 <= List.length (api_failed first)
    /\ trace_of run = pool_trace ++ flat_map retry_events second
    /\ Permutation pool_trace (flat_map attempt_events first)
    /\ Inv (world_of run)
    /\ (forall b r, In (b, r) (first ++ second) -> Good b r)
    /\ match outcome_of run with
       | Ret _ =>
           Forall returned stages
           /\ List.length rs2 = List.length (api_failed first)
       | Raise e =>
           is_api_error e = false
           /\ exists b, In (b, Err e) (first ++ second)
       | OutOfFuel => False
       end.
Proof.
  intros Hw. unfold turbo_delete_files, bind.
  destruct (executor_map_sim false Inv Good (fun _ => call_ok)
              (batches_of file_paths) w Hw (batches_of_nonempty file_paths))
    as (stages & Hfit & Hrest & Hw1 & Hp & _ & Ho).
  cbn zeta in *.
  rewrite (events_of_at_rest Good _ _ Hfit Hrest) in Hp.
  pose proof (first_attempts_fit false Good _ _ Hfit) as Hg1.
  cbn iota in Hg1.
  destruct (executor_map (delete_batch_task false) (batches_of file_paths) w)
    as [[w1 t1] r1].
  unfold trace_of, outcome_of, world_of in *. cbn [fst snd] in *.
  destruct r1 as [ys|e|]; [| |contradiction].
  - destruct Ho as [Hret Hys]. rewrite Hys.
    destruct (retry_failed_live
                (api_failed (first_attempts (batches_of file_paths) stages))
                w1 Hw1)
      as (rs2 & Hl2 & Ht2 & Hw2 & Hg2 & Ho2).
    cbn zeta in *.
    destruct (retry_failed false _ w1) as [[w2 t2] r2].
    unfold trace_of, outcome_of, world_of in *. cbn [fst snd] in *. subst t2.
    exists stages, rs2, t1.
    split; [apply Hfit|]. split; [exact Hrest|]. split; [exact Hl2|].
    split; [reflexivity|]. split; [exact Hp|]. split; [exact Hw2|].
    split.
    { intros b r Hin. apply in_app_or in Hin as [Hin|Hin]; auto. }
    destruct r2 as [[]|e|]; [now split | | exact Ho2].
    destruct Ho2 as [He (b & Hb)]. split; [exact He|].
    exists b. apply in_or_app. now right.
  - exists stages, [], t1.
    replace (combine (api_failed (first_attempts (batches_of file_paths)
                                    stages)) [])
      with (@nil (list string * reply unit))
      by (now destruct (api_failed _)).
    cbn [flat_map List.length]. rewrite !app_nil_r.
    split; [apply Hfit|]. split; [exact Hrest|]. split; [lia|].
    split; [reflexivity|]. split; [exact Hp|]. split; [exact Hw1|].
    split; [exact Hg1|]. exact Ho.
Qed.

End Live.

(** In dry-run mode the pool makes no call and hands nothing back. *)
Lemma turbo_delete_files_dry (file_paths : list string) (w : W) :
  let run := turbo_delete_files true file_paths w in
  world_of run = w
  /\ Permutation (trace_of run) (flat_map dry_events (batches_of file_paths))
  /\ outcome_of run = Ret tt.
Proof.
  unfold turbo_delete_files, bind. cbn zeta.
  destruct (executor_map_sim true (fun _ => True) (fun _ _ => True)
              ltac:(discriminate)
              (batches_of file_paths) w I (batches_of_nonempty file_paths))
    as (stages & Hfit & Hrest & _ & Hp & Hd & Ho).
  cbn zeta in *. specialize (Hd eq_refl).
  pose proof (first_attempts_fit true _ _ _ Hfit) as Hg1. cbn iota in Hg1.
  destruct (executor_map (delete_batch_task true) (batches_of file_paths) w)
    as [[w1 t1] r1].
  unfold trace_of, outcome_of, world_of in *. cbn [fst snd] in *. subst w1.
  destruct r1 as [ys|e|]; [| |contradiction].
  - destruct Ho as [Hret Hys].
    destruct (events_of_dry _ _ _ Hfit Hret) as [Hev Hnone].
    rewrite Hys, Hnone. cbn [retry_failed ret fst snd].
    rewrite app_nil_r, <- Hev. auto.
  - destruct Ho as [_ (b & Hb)]. now apply Hg1 in Hb.
Qed.



(** *** 250 paths *)

Lemma slice_eq {X} (l : list X) (i n : nat) :
  slice l i (i + n) = firstn n (skipn i l).
Proof. unfold slice. now replace (i + n - i) with n by lia. Qed.

Lemma batches_of_250 (file_paths : list string) :
  List.length file_paths = 250 ->
  batches_of file_paths
  = [firstn 100 file_paths;
     firstn 100 (skipn 100 file_paths);
     skipn 200 file_paths].
Proof.
  intros Hlen. unfold batches_of. rewrite Hlen.
  replace (range0 250 BATCH_SIZE) with [0; 100; 200]
    by (vm_compute; reflexivity).
  cbn [map]. unfold BATCH_SIZE. rewrite !slice_eq.
  rewrite (firstn_all2 (n := 100) (skipn 200 file_paths))
    by (rewrite length_skipn; lia).
  reflexivity.
Qed.

Lemma three_batches_concat {X} (l : list X) :
  firstn 100 l ++ firstn 100 (skipn 100 l) ++ skipn 200 l = l.
Proof.
  replace (skipn 200 l) with (skipn 100 (skipn 100 l))
    by (now rewrite skipn_skipn).
  now rewrite !firstn_skipn.
Qed.

Lemma filter_perm {X} (f : X -> bool) (l1 l2 : list X) :
  Permutation l1 l2 -> Permutation (filter f l1) (filter f l2).
Proof.
  induction 1 as [|x l1 l2 Hp IH|x y l|l1 l2 l3 H1 IH1 H2 IH2].
  - constructor.
  - cbn [filter]. destruct (f x); auto.
  - cbn [filter]. destruct (f x), (f y);
      first [apply Permutation_refl | apply perm_swap].
  - now transitivity (filter f l2).
Qed.

Lemma concat_deleted_perm (l1 l2 : list (list string * reply unit)) :
  Permutation l1 l2 ->
  Permutation (List.concat (deleted l1)) (List.concat (deleted l2)).
Proof.
  induction 1 as [|[b r] l1 l2 Hp IH|[b r] [b' r'] l|l1 l2 l3 H1 IH1 H2 IH2].
  - constructor.
  - destruct r; cbn [deleted List.concat]; [|exact IH].
    now apply Permutation_app_head.
  - destruct r, r'; cbn [deleted List.concat];
      first [apply Permutation_refl | apply Permutation_app_swap_app].
  - now transitivity (List.concat (deleted l2)).
Qed.

(** The three tasks of the pool have returned. *)
Lemma first_attempts_three (b1 b2 b3 : list string) (stages : list stage) :
  List.length stages = 3 -> Forall returned stages ->
  exists r1 r2 r3,
    first_attempts [b1; b2; b3] stages = [(b1, r1); (b2, r2); (b3, r3)]
    /\ Forall (fun r => returned (Logged r)) [r1; r2; r3].
Proof.
  intros Hl Hr. destruct stages as [|s1 [|s2 [|s3 [|s4 st]]]];
    try discriminate.
  inversion Hr as [|? ? H1 Hr1]; subst.
  inversion Hr1 as [|? ? H2 Hr2]; subst.
  inversion Hr2 as [|? ? H3 _]; subst.
  destruct s1 as [| |r1|r1], s2 as [| |r2|r2], s3 as [| |r3|r3];
    try contradiction.
  exists r1, r2, r3. split; [reflexivity|]. now repeat constructor.
Qed.

(** *** A pool whose workers run the tasks one after the other *)

Lemma dequeued_queued {X Y} (pool : list (slot X Y)) :
  Forall (fun s => started s = false) pool -> dequeued pool = 0.
Proof.
  induction 1 as [|s pool Hs Hp IH]; [reflexivity|].
  cbn [dequeued]. now rewrite IH, Hs.
Qed.

Lemma executor_map_in_turn {A B} (f : A -> proc W B) (xs : list A) (w : W) :
  thread_schedule w = [] ->
  executor_map f xs w
  = collect (map (fun x => {| started := false; task := f x |}) xs) w.
Proof.
  intros Hs. unfold executor_map. rewrite Hs. cbn [pool_run].
  rewrite dequeued_queued
    by (apply Forall_forall; intros s Hin;
        apply in_map_iff in Hin as (x & <- & _); reflexivity).
  cbn [firstn skipn finish app].
  now destruct (collect _ w) as [[w3 t3] r].
Qed.

Lemma collect_cons (DRY_RUN : bool) (b : list string)
    (bs : list (list string)) (w : W) :
  let queue :=
    map (fun x => {| started := false;
                     task := delete_batch_task (W := W) DRY_RUN x |}) in
  collect (queue (b :: bs)) w
  = let '(w1, t1, r) := delete_batch DRY_RUN b w in
    match r with
    | Ret y =>
        let '(w2, t2, r2) := collect (queue bs) w1 in
        (w2, t1 ++ t2,
         match r2 with
         | Ret ys => Ret (y :: ys)
         | Raise e => Raise e
         | OutOfFuel => OutOfFuel
         end)
    | Raise e => (w1, t1, Raise e)
    | OutOfFuel => (w1, t1, OutOfFuel)
    end.
Proof.
  cbn zeta. cbn [map collect task]. unfold bind, ret.
  rewrite run_task_delete_batch.
  destruct (delete_batch DRY_RUN b w) as [[w1 t1] [y|e|]]; try reflexivity.
  destruct (collect _ w1) as [[w2 t2] [ys|e|]]; try reflexivity.
  now rewrite app_nil_r.
Qed.

Lemma turbo_delete_files_250_in_turn (b1 b2 b3 : list string)
    (file_paths : list string) :
  batches_of file_paths = [b1; b2; b3] ->
  b1 ++ b2 ++ b3 = file_paths ->
  List.length b1 = 100 -> List.length b2 = 100 -> List.length b3 = 50 ->
  forall (w w1 w2 w3 w4 : W) (r1 r2 r3 : reply unit) (i : nat) (e : exn),
    thread_schedule w = [] ->
    files_delete_batch b1 w = (w1, r1) ->
    files_delete_batch b2 w1 = (w2, r2) ->
    files_delete_batch b3 w2 = (w3, r3) ->
    i < 3 ->
    is_api_error e = true ->
    [r1; r2; r3] = one_failure i e ->
    files_delete_batch (nth i [b1; b2; b3] []) w3 = (w4, Ok tt) ->
    let run := turbo_delete_files false file_paths w in
    let done := deleted (delete_attempts (trace_of run)) in
    outcome_of run = Ret tt
    /\ world_of run = w4
    /\ List.length (delete_attempts (trace_of run)) = 4
    /\ Permutation (List.concat done) file_paths
    /\ List.length (List.concat done) = 250.
Proof.
  intros Hb Hcat L1 L2 L3.
  assert (Hlen : List.length file_paths = 250)
    by (rewrite <- Hcat, !length_app; lia).
  intros w w1 w2 w3 w4 r1 r2 r3 i e Hs H1 H2 H3 Hi He Hr Hretry run done.
  subst run done. unfold turbo_delete_files, bind. rewrite Hb.
  rewrite (executor_map_in_turn _ _ _ Hs).
  assert (Hsome : forall b : list string, List.length b <> 0 ->
            forall xs, filter_none (Some b :: xs) = b :: filter_none xs).
  { intros [|p b] Hne xs; [contradiction | reflexivity]. }
  assert (Hnone : forall xs, filter_none (None :: xs) = filter_none xs)
    by reflexivity.
  destruct i as [|[|[|i]]]; [| | |lia]; injection Hr as -> -> ->;
    cbn [nth] in Hretry;
    rewrite (collect_cons false), delete_batch_live, H1; cbn [fst snd];
    rewrite ?He;
    rewrite (collect_cons false), delete_batch_live, H2; cbn [fst snd];
    rewrite ?He;
    rewrite (collect_cons false), delete_batch_live, H3; cbn [fst snd];
    rewrite ?He; cbn [map collect ret];
    repeat first [rewrite Hnone | rewrite Hsome by lia];
    change (filter_none []) with (@nil (list string));
    rewrite retry_failed_cons, delete_batch_live, Hretry;
    cbn [fst snd retry_failed ret];
    unfold outcome_of, world_of, trace_of; cbn [fst snd];
    rewrite ?app_nil_r;
    rewrite !delete_attempts_app, !delete_attempts_attempt;
    cbn [app delete_attempts];
    rewrite ?delete_attempts_app, ?delete_attempts_attempt;
    cbn [app delete_attempts deleted List.concat List.length];
    rewrite ?app_nil_r;
    (split; [reflexivity|]); (split; [reflexivity|]);
    (split; [reflexivity|]);
    (split; [|rewrite <- Hlen, <- Hcat, !length_app; lia]);
    rewrite <- Hcat.
  - rewrite (app_assoc b2 b3 b1). apply Permutation_app_comm.
  - apply Permutation_app_head, Permutation_app_comm.
  - reflexivity.
Qed.

(** C8.  250 paths make the three batches of 100, 100 and 50 paths, in
    order.  When, of the [files_delete_batch] calls of a live run,
    exactly one raises, the call for one of the three batches with an
    [ApiError], then whatever the order in which the workers of the
    pool run, the run ends normally after four calls: the three first
    attempts, in some order, then the retry of that batch, which goes
    through; the successful calls cover every path.  When the workers
    run the three tasks one after the other, in submission order, the
    replies can be told by the states the remote goes through: if the
    first attempt of exactly one batch raises an [ApiError] and its
    retry goes through, the run ends normally, in the state the retry
    leaves, and the successful calls cover every path: the other two
    batches first, then the retried one. *)
Theorem turbo_delete_files_250 (file_paths : list string)
    (Hlen : List.length file_paths = 250) :
  let b1 := firstn 100 file_paths in
  let b2 := firstn 100 (skipn 100 file_paths) in
  let b3 := skipn 200 file_paths in
  batches_of file_paths = [b1; b2; b3]
  /\ map (@List.length string) (batches_of file_paths) = [100; 100; 50]
  /\ List.concat (batches_of file_paths) = file_paths
  /\ (forall (w : W) (i : nat) (e : exn),
       let run := turbo_delete_files false file_paths w in
       let attempts := delete_attempts (trace_of run) in
       let done := deleted attempts in
       i < 3 ->
       is_api_error e = true ->
       filter failed attempts = [(nth i [b1; b2; b3] [], Err e)] ->
       outcome_of run = Ret tt
       /\ (exists first,
             Permutation first (combine [b1; b2; b3] (one_failure i e))
             /\ attempts = first ++ [(nth i [b1; b2; b3] [], Ok tt)])
       /\ List.length attempts = 4
       /\ Permutation (List.concat done) file_paths
       /\ List.length (List.concat done) = 250)
  /\ forall (w w1 w2 w3 w4 : W) (r1 r2 r3 : reply unit) (i : nat) (e : exn),
       thread_schedule w = [] ->
       files_delete_batch b1 w = (w1, r1) ->
       files_delete_batch b2 w1 = (w2, r2) ->
       files_delete_batch b3 w2 = (w3, r3) ->
       i < 3 ->
       is_api_error e = true ->
       [r1; r2; r3] = one_failure i e ->
       files_delete_batch (nth i [b1; b2; b3] []) w3 = (w4, Ok tt) ->
       let run := turbo_delete_files false file_paths w in
       let done := deleted (delete_attempts (trace_of run)) in
       outcome_of run = Ret tt
       /\ world_of run = w4
       /\ List.length (delete_attempts (trace_of run)) = 4
       /\ Permutation (List.concat done) file_paths
       /\ List.length (List.concat done) = 250.
Proof.
  intros b1 b2 b3.
  pose proof (batches_of_250 file_paths Hlen) as Hb. fold b1 b2 b3 in Hb.
  assert (Hcat : b1 ++ b2 ++ b3 = file_paths)
    by apply three_batches_concat.
  assert (L1 : List.length b1 = 100)
    by (subst b1; rewrite length_firstn; lia).
  assert (L2 : List.length b2 = 100)
    by (subst b2; rewrite length_firstn, length_skipn; lia).
  assert (L3 : List.length b3 = 50)
    by (subst b3; rewrite length_skipn; lia).
  clearbody b1 b2 b3.
  split; [exact Hb|]. split; [now rewrite Hb; cbn [map]; rewrite L1, L2, L3|].
  split; [rewrite Hb; cbn [List.concat]; now rewrite app_nil_r|].
  split; [|now apply turbo_delete_files_250_in_turn].
  intros w i e run attempts done Hi He Hfail.
  destruct (turbo_delete_files_live (fun _ => True) (fun _ _ => True)
              ltac:(now split) file_paths w I)
    as (stages & rs2 & pool_trace & Hl & _ & _ & Ht & Hp & _ & _ & Ho).
  cbn zeta in Hl, Ht, Hp, Ho. rewrite Hb in Hl, Ht, Hp, Ho.
  fold run in Ht, Ho.
  set (first := first_attempts [b1; b2; b3] stages) in *.
  set (second := combine (api_failed first) rs2) in *.
  assert (Hd : attempts = delete_attempts pool_trace ++ second).
  { unfold attempts. rewrite Ht.
    now rewrite delete_attempts_app, delete_attempts_flat_retry. }
  assert (Hp1 : Permutation (delete_attempts pool_trace) first).
  { rewrite <- (delete_attempts_flat_attempt first).
    now apply delete_attempts_perm. }
  assert (Herr : forall b e', In (b, Err e') (first ++ second) -> e' = e).
  { intros b e' Hin.
    assert (Hin' : In (b, Err e') (filter failed attempts)).
    { apply filter_In. split; [|reflexivity]. rewrite Hd.
      apply in_app_or in Hin as [Hin|Hin]; apply in_or_app;
        [left | now right].
      eapply Permutation_in; [symmetry; exact Hp1 | exact Hin]. }
    rewrite Hfail in Hin'. destruct Hin' as [E|[]]. congruence. }
  destruct (outcome_of run) as [[]|e'|] eqn:Eo; [| |contradiction].
  2:{ destruct Ho as [He' (b & Hb')]. apply Herr in Hb'. congruence. }
  destruct Ho as [Hret Hl2]. cbn [List.length] in Hl.
  destruct (first_attempts_three b1 b2 b3 stages Hl Hret)
    as (r1 & r2 & r3 & Hfirst & Hrs).
  fold first in Hfirst.
  pose proof (filter_perm failed _ _ Hp1) as Hpf.
  pose proof (Permutation_length Hpf) as Hlf.
  pose proof (Permutation_length Hp1) as Hl1.
  assert (Hsplit : filter failed (delete_attempts pool_trace)
                   ++ filter failed second
                   = [(nth i [b1; b2; b3] [], Err e)])
    by (rewrite <- filter_app, <- Hd; exact Hfail).
  pose proof (f_equal (@List.length _) Hsplit) as Hlen1.
  rewrite length_app in Hlen1. cbn [List.length] in Hlen1.
  assert (Hmain : Permutation first (combine [b1; b2; b3] (one_failure i e))
                  /\ second = [(nth i [b1; b2; b3] [], Ok tt)]).
  { clear Eo run Ht Hp Herr Hfail attempts done Hd.
    subst second. rewrite Hfirst in *. clear Hfirst first.
    inversion Hrs as [|? ? R1 Hrs1]; subst.
    inversion Hrs1 as [|? ? R2 Hrs2]; subst.
    inversion Hrs2 as [|? ? R3 _]; subst. clear Hrs Hrs1 Hrs2.
    cbn [returned] in R1, R2, R3.
    destruct r1 as [[]|e1], r2 as [[]|e2], r3 as [[]|e3];
      cbn [api_failed filter failed snd List.length] in *;
      rewrite ?R1, ?R2, ?R3 in *; cbn [List.length combine filter] in *;
      try lia;
      destruct rs2 as [|r' [|r'' rs2]]; try discriminate;
      cbn [combine filter failed snd List.length] in *;
      apply Permutation_sym, Permutation_length_1_inv in Hpf;
      rewrite Hpf in Hsplit;
      destruct r' as [[]|e']; try discriminate;
      cbn [filter failed snd app] in Hsplit;
      injection Hsplit as Hbi <-;
      destruct i as [|[|[|i]]]; try lia; simpl in Hbi; cbn [nth];
      unfold one_failure; cbn [map Nat.eqb combine];
      try (exfalso; apply (f_equal (@List.length string)) in Hbi; lia);
      subst;
      (split; [first [apply Permutation_refl | apply perm_swap]
              | reflexivity]). }
  destruct Hmain as [Hperm Hsec].
  split; [reflexivity|]. split.
  { exists (delete_attempts pool_trace). split.
    - now transitivity first.
    - now rewrite Hd, Hsec. }
  split; [now rewrite Hd, Hsec, length_app, Hl1, Hfirst|].
  assert (Hall : Permutation (List.concat done) file_paths).
  { unfold done.
    transitivity (List.concat
                    (deleted (combine [b1; b2; b3] (one_failure i e)
                              ++ [(nth i [b1; b2; b3] [], Ok tt)]))).
    { apply concat_deleted_perm. rewrite Hd, Hsec.
      apply Permutation_app_tail. now transitivity first. }
    rewrite <- Hcat. clear -Hi.
    destruct i as [|[|[|i]]]; try lia; unfold one_failure;
      cbn [map Nat.eqb combine nth app deleted List.concat];
      rewrite ?app_nil_r.
    - rewrite (app_assoc b2 b3 b1). apply Permutation_app_comm.
    - apply Permutation_app_head, Permutation_app_comm.
    - reflexivity. }
  split; [exact Hall|].
  now rewrite (Permutation_length Hall).
Qed.

End DeleteProperties.

(* ================================================================= *)
(** ** The folder reclaimer *)

Section ReclaimProperties.
Context {W : Type} `{Remote W}.
Variable DRY_RUN : bool.

Lemma all_files_are_targets_iff (response : ListFolderResult) :
  all_files_are_targets response = true <->
  forall entry, In entry (entries response) ->
                is_file_entry entry = true ->
                is_target_file (entry_name entry) = true.
Proof.
  unfold all_files_are_targets. rewrite forallb_forall. split.
  - intros Hall entry Hin Hfile. apply Hall, filter_In. auto.
  - intros Hall entry Hin. apply filter_In in Hin as [Hin Hfile]. auto.
Qed.

(** *** One reclaimability check *)

Lemma should_delete_eq (folder_path : string) (w : W) :
  should_delete folder_path w
  = (fst (files_list_folder folder_path false None w),
     ListFolder folder_path false
       (snd (files_list_folder folder_path false None w))
     :: match snd (files_list_folder folder_path false None w) with
        | Ok _ => []
        | Err e => [Log WARNING (CheckFailed folder_path e)]
        end,
     Ret match snd (files_list_folder folder_path false None w) with
         | Ok response => all_files_are_targets response
         | Err _ => false
         end).
Proof.
  unfold should_delete, try_except, bind, call_list_folder, remote, ret,
    log, emit.
  destruct (files_list_folder folder_path false None w) as [w1 [resp|e]];
    reflexivity.
Qed.

(** *** The shape of the events of one folder *)

Lemma check_folder_trace (remaining retry_count : nat) (folder : string)
    (w : W) :
  folder_trace DRY_RUN folder
    (trace_of (check_folder DRY_RUN remaining retry_count folder w)).
Proof.
  revert retry_count w; induction remaining as [|n IH]; intros rc w.
  - apply ft_nothing.
  - cbn [check_folder]. unfold try_except.
    destruct (excluded_exact folder); cbn [negb].
    + apply ft_nothing.
    + unfold bind at 1. rewrite should_delete_eq.
      destruct (files_list_folder folder false None w) as [w1 [resp|e]];
        cbn [fst snd].
      * destruct (all_files_are_targets resp) eqn:Ea.
        -- destruct DRY_RUN eqn:Ed.
           ++ cbn. now apply ft_dry_run.
           ++ unfold bind, call_delete_v2, remote, log, emit.
              destruct (files_delete_v2 folder w1) as [w2 [[]|e]].
              ** cbn. now apply ft_deleted.
              ** cbn [app]. destruct (is_timeout_or_api e).
                 --- specialize (IH (S rc) w2).
                     unfold sleep, emit, ret.
                     destruct (S rc =? MAX_RETRIES) eqn:Em;
                       cbn [app fst snd];
                       destruct (check_folder _ n (S rc) folder w2)
                         as [[w3 t3] r3];
                       unfold trace_of in *; cbn [fst snd app] in *;
                       pose proof (ft_retry false folder resp e (S rc) t3
                                     eq_refl Ea IH) as Hr;
                       unfold retry_log in Hr; rewrite Em in Hr;
                       exact Hr.
                 --- unfold trace_of. cbn [fst snd].
                     now apply ft_delete_raised.
        -- cbn. now apply ft_kept.
      * cbn. apply ft_check_failed.
Qed.

(** *** The events of the whole pass *)

Lemma reclaim_trace_silent (folders : list string) :
  reclaim_trace DRY_RUN folders [].
Proof.
  induction folders as [|f fs IH]; [apply rt_nil|].
  change (@nil event) with (@nil event ++ []).
  apply rt_cons; [apply ft_nothing | exact IH].
Qed.

Lemma check_folders_trace (folders : list string) (w : W) :
  reclaim_trace DRY_RUN folders (trace_of (check_folders DRY_RUN folders w)).
Proof.
  revert w; induction folders as [|f fs IH]; intros w.
  - apply rt_nil.
  - cbn [check_folders]. unfold bind.
    pose proof (check_folder_trace MAX_RETRIES 0 f w) as Hf.
    destruct (check_folder DRY_RUN MAX_RETRIES 0 f w) as [[w1 t1] r1].
    unfold trace_of in *. cbn [fst snd] in *.
    destruct r1 as [[]|e|].
    + specialize (IH w1).
      destruct (check_folders DRY_RUN fs w1) as [[w2 t2] r2].
      cbn [fst snd] in *. now apply rt_cons.
    + cbn [fst snd]. rewrite <- (app_nil_r t1).
      apply rt_cons; [exact Hf | apply reclaim_trace_silent].
    + cbn [fst snd]. rewrite <- (app_nil_r t1).
      apply rt_cons; [exact Hf | apply reclaim_trace_silent].
Qed.

(** *** Every delete is guarded by a check *)

Lemma guarded_app (t1 t2 : list event) :
  guarded t1 -> guarded t2 -> starts_clean t2 -> guarded (t1 ++ t2).
Proof.
  intros H1 H2 Hc. induction t1 as [|ev t1 IH]; [exact H2|].
  destruct H1 as [Hev H1]. cbn [app guarded]. split; [|auto].
  destruct t1 as [|ev1 t1]; [|exact Hev].
  cbn [app]. destruct t2 as [|[] t2]; cbn in Hc; tauto.
Qed.

Lemma starts_clean_app (t1 t2 : list event) :
  starts_clean t1 -> starts_clean t2 -> starts_clean (t1 ++ t2).
Proof. destruct t1; [auto | intros Hc _; exact Hc]. Qed.

Lemma folder_trace_guarded (folder : string) (t : list event) :
  folder_trace DRY_RUN folder t -> starts_clean t /\ guarded t.
Proof.
  induction 1 as [ | | | | resp Hd Ha | resp e Hd Ha
                   | resp e rc t Hd Ha Ht [Hc Hg] ];
    try (cbn; unfold checked_before; eauto 10; fail).
  split; [exact I|].
  cbn [app guarded]. split; [unfold checked_before; eauto|].
  split; [unfold retry_log; cbn; exact I|].
  apply guarded_app; [|exact Hg|exact Hc].
  unfold retry_log. destruct (rc =? MAX_RETRIES); cbn; auto.
Qed.

Lemma reclaim_trace_guarded (folders : list string) (t : list event) :
  reclaim_trace DRY_RUN folders t -> starts_clean t /\ guarded t.
Proof.
  induction 1 as [|f fs t ts Hf Hr [Hc Hg]]; [cbn; auto|].
  apply folder_trace_guarded in Hf as [Hfc Hfg].
  split; [now apply starts_clean_app | now apply guarded_app].
Qed.

Lemma guarded_before_delete (t pre : list event) (ev : event)
    (folder : string) (r : reply unit) (post : list event) :
  guarded t ->
  t = (pre ++ [ev]) ++ DeleteV2 folder r :: post ->
  checked_before folder ev.
Proof.
  revert t; induction pre as [|x pre IH]; intros t Hg ->.
  - cbn in Hg. tauto.
  - cbn [app guarded] in Hg. destruct Hg as [_ Hg]. eapply IH; eauto.
Qed.

(** *** A failed check settles a folder *)

Lemma no_delete_app (folder : string) (t1 t2 : list event) :
  no_delete folder t1 -> no_delete folder t2 ->
  no_delete folder (t1 ++ t2).
Proof.
  intros H1 H2. induction t1 as [|ev t1 IH]; [exact H2|].
  destruct ev; cbn in *; try tauto.
Qed.

Lemma settled_app (folder : string) (t1 t2 : list event) :
  settled folder t1 -> settled folder t2 ->
  no_failed_listing folder t1 \/ no_delete folder t2 ->
  settled folder (t1 ++ t2).
Proof.
  intros H1 H2 Hor. induction t1 as [|ev t1 IH]; [exact H2|].
  destruct ev as [| |g rec [resp|e]| | | | | |]; cbn in *; try tauto.
  destruct H1 as [Hnd H1]. split.
  - intros ->. destruct Hor as [[Hne _]|Hnd2]; [congruence|].
    apply no_delete_app; auto.
  - apply IH; tauto.
Qed.

Lemma no_delete_In (folder : string) (t : list event) :
  no_delete folder t -> forall r, ~ In (DeleteV2 folder r) t.
Proof.
  induction t as [|ev t IH]; intros Hn r Hin; [exact Hin|].
  destruct Hin as [E|Hin].
  - subst ev. cbn in Hn. tauto.
  - destruct ev; cbn in Hn; try (now apply (IH Hn r)).
    now apply (IH (proj2 Hn) r).
Qed.

Lemma folder_trace_other (folder g : string) (t : list event) :
  g <> folder -> folder_trace DRY_RUN g t ->
  no_delete folder t /\ no_failed_listing folder t.
Proof.
  intros Hne. induction 1 as [ | | | | | | resp e rc t Hd Ha Ht [IH1 IH2] ];
    try (cbn; tauto).
  unfold retry_log. destruct (rc =? MAX_RETRIES); cbn; tauto.
Qed.

Lemma folder_trace_settled (folder g : string) (t : list event) :
  folder_trace DRY_RUN g t -> settled folder t.
Proof.
  induction 1 as [ | | | | | | resp e rc t Hd Ha Ht IH ];
    try (cbn; tauto).
  unfold retry_log. destruct (rc =? MAX_RETRIES); cbn; tauto.
Qed.

Lemma reclaim_trace_no_delete (folder : string) (folders : list string)
    (t : list event) :
  ~ In folder folders -> reclaim_trace DRY_RUN folders t -> no_delete folder t.
Proof.
  intros Hnin. induction 1 as [|g fs t ts Hg Hr IH]; [exact I|].
  apply no_delete_app.
  - apply (folder_trace_other folder g); [|exact Hg].
    intros ->. apply Hnin. now left.
  - apply IH. intros Hin. apply Hnin. now right.
Qed.

Lemma reclaim_trace_settled (folder : string) (folders : list string)
    (t : list event) :
  NoDup folders -> reclaim_trace DRY_RUN folders t -> settled folder t.
Proof.
  intros Hnd. induction 1 as [|g fs t ts Hg Hr IH]; [exact I|].
  inversion Hnd as [|? ? Hnin Hnd']; subst.
  apply settled_app.
  - now apply (folder_trace_settled folder g).
  - now apply IH.
  - destruct (string_dec g folder) as [->|Hne].
    + right. now apply (reclaim_trace_no_delete folder fs).
    + left. now apply (folder_trace_other folder g).
Qed.

Lemma settled_after_failure (folder : string) (t pre : list event)
    (rec : bool) (e : exn) (post : list event) :
  settled folder t ->
  t = pre ++ ListFolder folder rec (Err e) :: post ->
  no_delete folder post.
Proof.
  revert t; induction pre as [|x pre IH]; intros t Hs ->.
  - cbn in Hs. tauto.
  - apply (IH (pre ++ ListFolder folder rec (Err e) :: post));
      [|reflexivity].
    destruct x as [| |g rec' [resp|e']| | | | | |]; cbn in Hs; tauto.
Qed.

(** *** The ancestor walk only runs out of turns on a loop without end *)

Lemma add_ancestors_diverges (fuel : nat) (folder : string)
    (s : list string) :
  String.length folder <= fuel ->
  add_ancestors fuel folder s = None ->
  exists g, Str.dirname g = g
            /\ String.length TARGET_FOLDER < String.length g.
Proof.
  revert folder s; induction fuel as [|fuel IH]; intros folder s Hlen;
    cbn [add_ancestors];
    destruct (String.length TARGET_FOLDER <? String.length folder) eqn:Et;
    try discriminate.
  - apply Nat.ltb_lt in Et. lia.
  - intros Hnone. apply Nat.ltb_lt in Et.
    pose proof (dirname_length folder) as Hd.
    destruct (Nat.eq_dec (String.length (Str.dirname folder))
                (String.length folder)) as [E|E].
    + exists folder. split; [now apply dirname_fixed | exact Et].
    + apply (IH (Str.dirname folder) (set_add folder s)); [lia|exact Hnone].
Qed.

(** *** The candidate folders are pairwise distinct *)

Lemma set_add_In (x y : string) (s : list string) :
  In y (set_add x s) <-> y = x \/ In y s.
Proof.
  induction s as [|z s IH]; cbn.
  - intuition congruence.
  - destruct (String.eqb_spec x z) as [->|Hne]; cbn.
    + intuition congruence.
    + rewrite IH. intuition congruence.
Qed.

Lemma set_add_NoDup (x : string) (s : list string) :
  NoDup s -> NoDup (set_add x s).
Proof.
  induction 1 as [|z s Hnin Hnd IH]; cbn.
  - constructor; [apply in_nil | constructor].
  - destruct (String.eqb_spec x z) as [->|Hne].
    + now constructor.
    + constructor; [|exact IH].
      rewrite set_add_In. intros [->|Hin]; [congruence | contradiction].
Qed.

Lemma add_ancestors_NoDup (fuel : nat) (folder : string)
    (s s' : list string) :
  NoDup s -> add_ancestors fuel folder s = Some s' -> NoDup s'.
Proof.
  revert folder s; induction fuel as [|fuel IH]; intros folder s Hnd;
    cbn [add_ancestors];
    destruct (String.length TARGET_FOLDER <? String.length folder);
    try discriminate; try (intros [= <-]; exact Hnd).
  apply IH. now apply set_add_NoDup.
Qed.

Lemma build_folder_list_NoDup (target_files : list string)
    (s s' : list string) :
  NoDup s -> build_folder_list target_files s = Some s' -> NoDup s'.
Proof.
  revert s; induction target_files as [|p ps IH]; intros s Hnd;
    cbn [build_folder_list].
  - intros [= <-]. exact Hnd.
  - destruct (add_ancestors _ _ s) as [s1|] eqn:Ea; [|discriminate].
    apply IH. eapply add_ancestors_NoDup; eauto.
Qed.

Lemma insert_by_depth_In (x y : string) (l : list string) :
  In y (insert_by_depth x l) <-> y = x \/ In y l.
Proof.
  induction l as [|z l IH]; cbn [insert_by_depth].
  - cbn. intuition congruence.
  - destruct (Str.segments z <=? Str.segments x); cbn [In].
    + intuition congruence.
    + rewrite IH. intuition congruence.
Qed.

Lemma insert_by_depth_NoDup (x : string) (l : list string) :
  ~ In x l -> NoDup l -> NoDup (insert_by_depth x l).
Proof.
  intros Hnin Hnd. induction Hnd as [|z l Hz Hnd IH];
    cbn [insert_by_depth].
  - constructor; [apply in_nil | constructor].
  - destruct (Str.segments z <=? Str.segments x).
    + constructor; [exact Hnin | now constructor].
    + constructor.
      * rewrite insert_by_depth_In. intros [->|Hin]; [|contradiction].
        apply Hnin. now left.
      * apply IH. intros Hin. apply Hnin. now right.
Qed.

Lemma sorted_deepest_first_In (y : string) (l : list string) :
  In y (sorted_deepest_first l) <-> In y l.
Proof.
  induction l as [|x l IH]; cbn; [tauto|].
  rewrite insert_by_depth_In, IH. intuition congruence.
Qed.

Lemma sorted_deepest_first_NoDup (l : list string) :
  NoDup l -> NoDup (sorted_deepest_first l).
Proof.
  induction 1 as [|x l Hx Hnd IH]; cbn; [constructor|].
  apply insert_by_depth_NoDup; [|exact IH].
  now rewrite sorted_deepest_first_In.
Qed.

(** *** The loop over a set meets every element once *)

Lemma remove_nth_Permutation {X} (i : nat) (l : list X) (d : X) :
  i < List.length l -> Permutation (nth i l d :: remove_nth i l) l.
Proof.
  revert i; induction l as [|y l IH]; intros [|i] Hi; cbn in Hi; try lia.
  - reflexivity.
  - cbn [nth remove_nth].
    transitivity (y :: nth i l d :: remove_nth i l); [apply perm_swap|].
    apply perm_skip, IH. lia.
Qed.

Lemma iteration_Permutation (code : list nat) (s : list string) :
  Permutation (iteration code s) s.
Proof.
  revert s; induction code as [|c code IH]; intros s; [reflexivity|].
  destruct s as [|x s]; [reflexivity|]. cbn [iteration].
  set (i := c mod List.length (x :: s)).
  transitivity (nth i (x :: s) x :: remove_nth i (x :: s));
    [apply perm_skip, IH|].
  apply remove_nth_Permutation. apply Nat.mod_upper_bound. discriminate.
Qed.

Lemma clean_empty_folders_reclaim (target_files : list string) (w : W) :
  exists folders,
    NoDup folders
    /\ reclaim_trace DRY_RUN folders
         (trace_of (clean_empty_folders DRY_RUN target_files w)).
Proof.
  unfold clean_empty_folders.
  destruct (build_folder_list target_files []) as [folders|] eqn:Eb.
  - exists (sorted_deepest_first (iteration (set_order w) folders)). split.
    + apply sorted_deepest_first_NoDup.
      eapply Permutation_NoDup;
        [symmetry; apply iteration_Permutation|].
      eapply build_folder_list_NoDup; [constructor | exact Eb].
    + apply check_folders_trace.
  - exists []. split; [constructor | apply rt_nil].
Qed.

(** *** A reclaimable folder is acted upon *)

Lemma action_follows_app (folder : string) (t1 t2 : list event) :
  action_follows DRY_RUN folder t1 -> action_follows DRY_RUN folder (t1 ++ t2).
Proof. destruct t1 as [|ev t1]; [intros [] | intros Ha; exact Ha]. Qed.

Lemma acted_app (t1 t2 : list event) :
  acted DRY_RUN t1 -> acted DRY_RUN t2 -> acted DRY_RUN (t1 ++ t2).
Proof.
  intros H1 H2. induction t1 as [|ev t1 IH]; [exact H2|].
  destruct ev as [| |g rec [resp|e]| | | | | |]; cbn [app acted] in *;
    try tauto.
  destruct H1 as [Ha H1]. split; [|tauto].
  intros Hall. apply action_follows_app. tauto.
Qed.

Lemma folder_trace_acted (folder : string) (t : list event) :
  folder_trace DRY_RUN folder t -> acted DRY_RUN t.
Proof.
  induction 1 as [ | | resp Ha | resp Hd Ha | resp Hd Ha | resp e Hd Ha
                   | resp e rc t Hd Ha Ht IH ];
    try (cbn; intuition congruence).
  cbn [app acted]. split; [cbn; auto|].
  unfold retry_log. destruct (rc =? MAX_RETRIES); cbn; exact IH.
Qed.

Lemma reclaim_trace_acted (folders : list string) (t : list event) :
  reclaim_trace DRY_RUN folders t -> acted DRY_RUN t.
Proof.
  induction 1 as [|f fs t ts Hf Hr IH]; [exact I|].
  apply acted_app; [now apply (folder_trace_acted f) | exact IH].
Qed.

Lemma acted_after_check (t pre : list event) (folder : string)
    (rec : bool) (response : ListFolderResult) (post : list event) :
  acted DRY_RUN t ->
  t = pre ++ ListFolder folder rec (Ok response) :: post ->
  all_files_are_targets response = true ->
  action_follows DRY_RUN folder post.
Proof.
  revert t; induction pre as [|x pre IH]; intros t Ha -> Hall.
  - cbn in Ha. tauto.
  - apply (IH (pre ++ ListFolder folder rec (Ok response) :: post));
      [|reflexivity|exact Hall].
    destruct x as [| |g rec' [resp|e']| | | | | |]; cbn in Ha; tauto.
Qed.

(** *** Dry run *)

Lemma folder_trace_dry (folder : string) (t : list event) :
  DRY_RUN = true -> folder_trace DRY_RUN folder t -> no_mutation t.
Proof.
  intros Hd. induction 1; try congruence; repeat constructor.
Qed.

Lemma reclaim_trace_dry (folders : list string) (t : list event) :
  DRY_RUN = true -> reclaim_trace DRY_RUN folders t -> no_mutation t.
Proof.
  intros Hd. induction 1 as [|f fs t ts Hf Hr IH]; [constructor|].
  apply Forall_app. split; [now apply (folder_trace_dry f) | exact IH].
Qed.

(** X21.  During [clean_empty_folders] a [files_delete_v2] call for a
    folder comes right after a listing of that very folder, and only
    in live mode; every file entry of the response to that listing
    (the one page [should_delete] reads) was a target.  Folder entries
    of the response play no role: in live mode every listing whose
    response has only targets among its file entries is followed by
    the delete. *)
Theorem reclaim_deletes_only_checked_folders
    (target_files : list string) (w : W) :
  let t := trace_of (clean_empty_folders DRY_RUN target_files w) in
  (forall pre folder r post,
     t = pre ++ DeleteV2 folder r :: post ->
     DRY_RUN = false
     /\ exists pre' response,
          pre = pre' ++ [ListFolder folder false (Ok response)]
          /\ forall entry,
               In entry (entries response) ->
               is_file_entry entry = true ->
               is_target_file (entry_name entry) = true)
  /\ (forall pre folder response post,
        t = pre ++ ListFolder folder false (Ok response) :: post ->
        DRY_RUN = false ->
        (forall name path_lower,
           In (FileMetadata name path_lower) (entries response) ->
           is_target_file name = true) ->
        exists r post', post = DeleteV2 folder r :: post').
Proof.
  intros t.
  destruct (clean_empty_folders_reclaim target_files w)
    as (folders & Hnd & Hr). fold t in Hr.
  split.
  - intros pre folder r post Ht. split.
    + destruct (bool_dec DRY_RUN true) as [Hd|Hd];
        [|destruct DRY_RUN; congruence].
      pose proof (reclaim_trace_dry _ _ Hd Hr) as Hm.
      rewrite Ht in Hm. apply Forall_app in Hm as [_ Hm].
      inversion Hm as [|? ? Hev _]. discriminate.
    + apply reclaim_trace_guarded in Hr as [Hc Hg].
      destruct pre as [|x pre0].
      * rewrite Ht in Hc. contradiction.
      * destruct (@exists_last _ (x :: pre0)) as (pre' & ev & E);
          [discriminate|].
        rewrite E in Ht. rewrite Ht in Hg.
        destruct (guarded_before_delete _ _ _ _ _ _ Hg eq_refl)
          as (response & -> & Hall).
        exists pre', response. split; [exact E|].
        now apply all_files_are_targets_iff.
  - intros pre folder response post Ht Hd Hfiles.
    apply reclaim_trace_acted in Hr.
    assert (Hall : all_files_are_targets response = true).
    { apply all_files_are_targets_iff.
      intros [n p|n p|n p] Hin Hf; cbn in Hf; try discriminate.
      exact (Hfiles n p Hin). }
    pose proof (acted_after_check _ _ _ _ _ _ Hr Ht Hall) as Ha.
    destruct post as [|[] post]; cbn in Ha; try contradiction.
    + destruct lvl, msg; try contradiction. destruct Ha; congruence.
    + destruct Ha as [_ ->]. eauto.
Qed.

(** C10.  A listing that raises, whatever the exception, makes
    [should_delete] log the failure and return [False] without raising;
    and once the listing of a folder has failed, [clean_empty_folders]
    issues no [files_delete_v2] for that folder. *)
Theorem failed_check_never_deletes (target_files : list string) (w : W) :
  (forall folder_path w0 w1 e,
     files_list_folder folder_path false None w0 = (w1, Err e) ->
     should_delete folder_path w0
     = (w1,
        [ListFolder folder_path false (Err e);
         Log WARNING (CheckFailed folder_path e)],
        Ret false))
  /\ (forall pre folder e post,
        trace_of (clean_empty_folders DRY_RUN target_files w)
        = pre ++ ListFolder folder false (Err e) :: post ->
        forall r, ~ In (DeleteV2 folder r) post).
Proof.
  split.
  - intros folder_path w0 w1 e Hl. rewrite should_delete_eq, Hl.
    reflexivity.
  - intros pre folder e post Ht.
    destruct (clean_empty_folders_reclaim target_files w)
      as (folders & Hnd & Hr).
    apply no_delete_In.
    eapply settled_after_failure; [|exact Ht].
    now apply (reclaim_trace_settled folder folders).
Qed.

End ReclaimProperties.

(* ================================================================= *)
(** ** Dry run *)

Section DryRunProperties.
Context {W : Type} `{Remote W}.

Variable P : event -> Prop.

Lemma traces_in_ret {A} (a : A) : traces_in P (ret a : M W A).
Proof. intros w. constructor. Qed.

Lemma traces_in_raise {A} (e : exn) : traces_in P (@raise W A e).
Proof. intros w. constructor. Qed.

Lemma traces_in_diverge {A} : traces_in P (@diverge W A).
Proof. intros w. constructor. Qed.

Lemma traces_in_emit (ev : event) :
  P ev -> traces_in P (emit ev : M W unit).
Proof. intros Hev w. repeat constructor. exact Hev. Qed.

Lemma traces_in_remote {A} (op : W -> W * reply A) (ev : reply A -> event) :
  (forall r, P (ev r)) -> traces_in P (remote op ev).
Proof.
  intros Hev w. unfold remote, trace_of.
  destruct (op w) as [w1 r]. repeat constructor. apply Hev.
Qed.

Lemma traces_in_bind {A B} (m : M W A) (f : A -> M W B) :
  traces_in P m -> (forall a, traces_in P (f a)) -> traces_in P (bind m f).
Proof.
  intros Hm Hf w. unfold bind, trace_of. specialize (Hm w).
  unfold trace_of in Hm.
  destruct (m w) as [[w1 t1] [a|e|]]; cbn [fst snd] in *; try exact Hm.
  specialize (Hf a w1). unfold trace_of in Hf.
  destruct (f a w1) as [[w2 t2] r2]. cbn [fst snd] in *.
  apply Forall_app. auto.
Qed.

Lemma traces_in_try_except {A} (m : M W A) (catches : exn -> bool)
    (handler : exn -> M W A) :
  traces_in P m -> (forall e, traces_in P (handler e)) ->
  traces_in P (try_except m catches handler).
Proof.
  intros Hm Hh w. unfold try_except, trace_of. specialize (Hm w).
  unfold trace_of in Hm.
  destruct (m w) as [[w1 t1] [a|e|]]; cbn [fst snd] in *; try exact Hm.
  destruct (catches e); [|exact Hm].
  specialize (Hh e w1). unfold trace_of in Hh.
  destruct (handler e w1) as [[w2 t2] r2]. cbn [fst snd] in *.
  apply Forall_app. auto.
Qed.

Lemma traces_in_try_finally {A} (m : M W A) (f : M W unit) :
  traces_in P m -> traces_in P f -> traces_in P (try_finally m f).
Proof.
  intros Hm Hf w. specialize (Hm w). unfold try_finally, trace_of in *.
  destruct (m w) as [[w1 t1] r]. cbn [fst snd] in *.
  specialize (Hf w1). unfold trace_of in Hf.
  destruct r as [a|e|]; [| |exact Hm];
    destruct (f w1) as [[w2 t2] r2]; cbn [fst snd] in *;
    apply Forall_app; auto.
Qed.

Hypothesis P_sleep : forall secs, P (Sleep secs).
Hypothesis P_retry_log :
  forall attempt wait_time, P (Log WARNING (TimeoutRetrying attempt wait_time)).
Hypothesis P_max_retries : P (Log ERROR MaxRetriesExceeded).

Lemma traces_in_robust_api_call_loop {A} (func : M W A)
    (attempts : list nat) (last_error : option exn) (ct : Q) :
  traces_in P func ->
  traces_in P (robust_api_call_loop func attempts last_error ct).
Proof.
  intros Hf. revert last_error ct.
  induction attempts as [|a rest IH]; intros last_error ct.
  - cbn [robust_api_call_loop]. apply traces_in_bind.
    + now apply traces_in_emit.
    + intros _. destruct last_error; apply traces_in_raise.
  - intros w. cbn [robust_api_call_loop]. specialize (Hf w).
    unfold trace_of in *.
    destruct (func w) as [[w1 t1] [x|e|]]; cbn [fst snd] in *;
      try exact Hf.
    destruct (is_timeout_or_connection e); [|exact Hf].
    destruct (a <? MAX_RETRIES).
    + pose proof (traces_in_bind _ (fun _ => _)
                    (traces_in_emit _ (P_retry_log (a + 1)
                                         (ct * BACKOFF_FACTOR)%Q))
                    (fun _ => traces_in_bind _ (fun _ => _)
                       (traces_in_emit _ (P_sleep (ct * BACKOFF_FACTOR)%Q))
                       (fun _ => IH (Some e) (ct * BACKOFF_FACTOR)%Q)) w1)
        as Hrest.
      unfold log, sleep, trace_of in *.
      destruct (bind (emit _) _ w1) as [[w2 t2] r2].
      cbn [fst snd] in *. apply Forall_app. auto.
    + pose proof (IH (Some e) ct w1) as Hrest. unfold trace_of in Hrest.
      destruct (robust_api_call_loop func rest (Some e) ct w1)
        as [[w2 t2] r2].
      cbn [fst snd] in *. apply Forall_app. auto.
Qed.

Lemma traces_in_robust_api_call {A} (func : M W A) :
  traces_in P func -> traces_in P (robust_api_call func).
Proof. apply traces_in_robust_api_call_loop. Qed.

End DryRunProperties.

Section DryRunMain.
Context {W : Type} `{Remote W}.

Lemma fetch_page_dry (c : option string) : traces_in dry_run_ok (fetch_page c).
Proof.
  destruct c as [c|]; cbn [fetch_page];
    apply traces_in_robust_api_call; try reflexivity;
    apply traces_in_remote; reflexivity.
Qed.

Lemma process_entries_dry (es : list Metadata) (st : scan_locals) :
  Forall dry_run_ok (snd (process_entries es st)).
Proof.
  unfold process_entries.
  assert (Hgen : forall acc, Forall dry_run_ok (snd acc) ->
                   Forall dry_run_ok (snd (fold_left process_entry es acc))).
  { induction es as [|entry es IH]; intros [st0 tr] Htr; [exact Htr|].
    cbn [fold_left]. apply IH. unfold process_entry.
    assert (Htr1 : Forall dry_run_ok
              (if S (s_processed_entries st0) mod 500 =? 0
               then tr ++ [Log INFO (ScannedEntries
                                       (S (s_processed_entries st0)))]
               else tr)).
    { destruct (_ =? 0); [|exact Htr].
      apply Forall_app. split; [exact Htr | repeat constructor]. }
    destruct entry as [name p|name p|name p].
    - destruct (is_target_file name); exact Htr1.
    - destruct (excluded_lower p); exact Htr1.
    - exact Htr1. }
  apply Hgen. constructor.
Qed.

Lemma scan_pages_dry (fuel : nat) (st : scan_locals) :
  traces_in dry_run_ok (scan_pages fuel st).
Proof.
  revert st; induction fuel as [|fuel IH]; intros st w.
  - constructor.
  - cbn [scan_pages]. pose proof (fetch_page_dry (s_cursor st) w) as Hf.
    unfold trace_of in *.
    destruct (fetch_page (s_cursor st) w) as [[w1 t1] [resp|e|]];
      cbn [fst snd] in *; try exact Hf.
    + pose proof (process_entries_dry (entries resp) st) as Hp.
      destruct (process_entries (entries resp) st) as [st1 t2].
      cbn [snd] in Hp.
      destruct (has_more resp); cbn [negb fst snd].
      * unfold bind, sleep, emit.
        match goal with
        | |- context [scan_pages fuel ?s w1] =>
            pose proof (IH s w1) as Hr;
            destruct (scan_pages fuel s w1) as [[w3 t3] r3]
        end.
        cbn [fst snd] in *. rewrite !Forall_app. repeat split; auto.
        repeat constructor.
      * apply Forall_app. auto.
    + destruct (is_api_or_request e && (s_retry_count st <? Scan.MAX_RETRIES));
        [|exact Hf].
      unfold bind, log, sleep, emit.
      match goal with
      | |- context [scan_pages fuel ?s w1] =>
          pose proof (IH s w1) as Hr;
          destruct (scan_pages fuel s w1) as [[w3 t3] r3]
      end.
      cbn [fst snd app] in *. rewrite !Forall_app. repeat split; auto.
      repeat constructor; exact Hr.
Qed.

Lemma scan_from_dry (fuel : nat) (st : scan_locals) :
  traces_in dry_run_ok (scan_from fuel st).
Proof.
  unfold scan_from. apply traces_in_bind; [apply scan_pages_dry|].
  intros [st1 [e|]].
  - apply traces_in_bind; [now apply traces_in_emit|]. intros _.
    destruct (target_files _); [apply traces_in_raise|].
    apply traces_in_bind; [now apply traces_in_emit|]. intros _.
    apply traces_in_ret.
  - apply traces_in_bind; [now apply traces_in_emit|]. intros _.
    apply traces_in_ret.
Qed.

Lemma dry_events_dry (bs : list (list string)) :
  Forall dry_run_ok (flat_map dry_events bs).
Proof.
  induction bs as [|b bs IH]; [constructor|].
  cbn [flat_map]. apply Forall_app. split; [repeat constructor | exact IH].
Qed.

Lemma traces_in_bind_ret {A B} (a : A) (f : A -> M W B) :
  traces_in dry_run_ok (f a) -> traces_in dry_run_ok (bind (ret a) f).
Proof.
  intros Hf w. specialize (Hf w). unfold bind, ret, trace_of in *.
  destruct (f a w) as [[w2 t2] r2]. exact Hf.
Qed.

Lemma main_try_dry (fuel : nat) : traces_in dry_run_ok (main_try true fuel).
Proof.
  unfold main_try. apply traces_in_bind; [apply scan_from_dry|].
  intros scan_results. destruct (target_files scan_results) as [|p ps];
    [apply traces_in_ret|].
  cbn [negb]. apply traces_in_bind_ret. cbn [negb].
  apply traces_in_bind.
  { intros w. destruct (turbo_delete_files_dry (p :: ps) w) as (_ & Hp & _).
    eapply Permutation_Forall; [symmetry; exact Hp | apply dry_events_dry]. }
  intros _. apply traces_in_bind_ret.
  apply traces_in_bind; [apply traces_in_ret|].
  intros _. apply traces_in_ret.
Qed.

Lemma main_finally_dry : traces_in dry_run_ok (main_finally (W := W)).
Proof.
  unfold main_finally. apply traces_in_bind; [now apply traces_in_emit|].
  intros _. now apply traces_in_emit.
Qed.

Lemma main_loop_dry (remaining retry_main fuel : nat) :
  traces_in dry_run_ok (main_loop true remaining retry_main fuel).
Proof.
  revert retry_main; induction remaining as [|n IH]; intros retry_main w.
  - constructor.
  - cbn [main_loop]. pose proof (main_try_dry fuel w) as Ht.
    unfold trace_of in *.
    destruct (main_try true fuel w) as [[w1 t1] [x|e|]];
      cbn [fst snd] in *; try exact Ht.
    + pose proof (main_finally_dry w1) as Hf. unfold trace_of in Hf.
      destruct (main_finally w1) as [[w2 t2] r2]. cbn [fst snd] in *.
      apply Forall_app. auto.
    + destruct (is_read_timeout e).
      * match goal with
        | |- context [bind (try_finally ?m ?f) ?k w1] =>
            assert (Hm : traces_in dry_run_ok (bind (try_finally m f) k))
        end.
        { apply traces_in_bind; [|intros _; apply IH].
          apply traces_in_try_finally; [|apply main_finally_dry].
          apply traces_in_bind; [now apply traces_in_remote|]. intros _.
          now apply traces_in_emit. }
        specialize (Hm w1). unfold trace_of in Hm.
        destruct (bind (try_finally _ _) _ w1) as [[w2 t2] r2].
        cbn [fst snd] in *. apply Forall_app. auto.
      * match goal with
        | |- context [bind (log CRITICAL ?m) ?k w1] =>
            assert (Hm : traces_in dry_run_ok (bind (log CRITICAL m) k))
        end.
        { apply traces_in_bind; [now apply traces_in_emit|]. intros _.
          apply main_finally_dry. }
        specialize (Hm w1). unfold trace_of in Hm.
        destruct (bind (log CRITICAL _) _ w1) as [[w2 t2] r2].
        cbn [fst snd] in *. apply Forall_app. auto.
Qed.

Lemma main_dry (fuel : nat) : traces_in dry_run_ok (main true fuel).
Proof.
  unfold main. apply traces_in_bind; [now apply traces_in_emit|].
  intros _. apply traces_in_bind; [now apply traces_in_remote|].
  intros _. apply main_loop_dry.
Qed.

End DryRunMain.

(** X20.  In dry-run mode [main] issues no delete at all, asks for no
    confirmation and never reaches the folder clean-up: its events are
    waits, client creations and closings, log lines other than the two
    of the clean-up, recursive listings and their continuations.
    [turbo_delete_files] leaves the remote as it is, returns, and its
    events are the delay and the log line of every batch, in an order
    that is up to the pool.  [clean_empty_folders], when it is called
    in dry-run mode, issues no delete either and logs the intended
    deletion right after every listing whose file entries are all
    targets. *)
Theorem dry_run_issues_no_mutation {W : Type} `{Remote W} :
  (forall fuel w,
     no_mutation (trace_of (main true fuel w))
     /\ Forall (fun ev => dry_run_event ev = true)
               (trace_of (main true fuel w)))
  /\ (forall file_paths w,
        let run := turbo_delete_files true file_paths w in
        world_of run = w
        /\ Permutation (trace_of run)
             (flat_map dry_events (batches_of file_paths))
        /\ outcome_of run = Ret tt)
  /\ (forall target_files w,
        let t := trace_of (clean_empty_folders true target_files w) in
        no_mutation t
        /\ forall pre folder response post,
             t = pre ++ ListFolder folder false (Ok response) :: post ->
             all_files_are_targets response = true ->
             exists post', post = Log INFO (DryRunWouldDelete folder) :: post').
Proof.
  split; [|split].
  - intros fuel w. pose proof (main_dry fuel w) as Hm. split; [|exact Hm].
    unfold no_mutation. eapply Forall_impl; [|exact Hm].
    intros [] Hev; unfold dry_run_ok in Hev; cbn in *; congruence.
  - apply turbo_delete_files_dry.
  - intros target_files w t.
    destruct (clean_empty_folders_reclaim true target_files w)
      as (folders & Hnd & Hr). fold t in Hr.
    split; [now apply (reclaim_trace_dry true folders)|].
    intros pre folder response post Ht Hall.
    apply reclaim_trace_acted in Hr.
    pose proof (acted_after_check true _ _ _ _ _ _ Hr Ht Hall) as Ha.
    destruct post as [|[] post]; cbn in Ha; try contradiction.
    + destruct lvl, msg; try contradiction. destruct Ha as [_ ->]. eauto.
    + destruct Ha; discriminate.
Qed.


(** C1 (the run that breaks it).  A memo inside the excluded folder
    [.../David/Archive] is listed by the recursive scan as a file entry;
    only folder entries are compared with the exclusions, so its path
    ends up among the targets. *)
Lemma scan_reports_file_under_excluded_folder :
  excluded_lower Runs.archived_memo = true
  /\ outcome_of (scan_target_folder 1 Runs.tree_with_archive)
     = Ret {| target_files := [Runs.archived_memo];
              other_files := [];
              failed_folders := [] |}.
Proof. split; vm_compute; reflexivity. Qed.

(** C2 (the run that breaks it).  The folder [.../sub] directly holds a
    memo and a report; its listing comes on two pages, the memo on the
    first, which says that more follows, the report on the second.
    [should_delete] reads the entries of the first page only and never
    asks for the rest: the check succeeds and, in live mode, the
    folder is deleted with a non-target file in it. *)
Lemma reclaim_deletes_folder_with_unread_page :
  let w := Runs.script [Ok Runs.memo_and_more; Runs.report_page] [] [] in
  let run := clean_empty_folders false [Runs.sub_memo] w in
  is_target_file "report.pdf" = false
  /\ has_more Runs.memo_and_more = true
  /\ snd (files_list_folder_continue (cursor Runs.memo_and_more)
            (world_of run))
     = Runs.report_page
  /\ trace_of run
     = [ListFolder Runs.sub false (Ok Runs.memo_and_more);
        DeleteV2 Runs.sub (Ok tt);
        Log INFO (DeletedFolder Runs.sub)]
  /\ outcome_of run = Ret tt.
Proof. repeat split; vm_compute; reflexivity. Qed.

(** C4 (the run that breaks it).  The candidate [.../david/archive] lies
    under the excluded prefix [.../David/Archive] once cases are folded,
    but [clean_empty_folders] compares the lower-cased path with the
    prefixes as written, which no lower-case path starts with: the
    folder is listed and, in live mode, deleted. *)
Lemma reclaim_deletes_folder_under_excluded_prefix :
  (forall folder, Str.lower folder = folder -> excluded_exact folder = false)
  /\ excluded_lower Runs.archive = true
  /\ excluded_exact Runs.archive = false
  /\ trace_of (clean_empty_folders false [Runs.archived_memo]
                 (Runs.script [] [] []))
     = [ListFolder Runs.archive false (Ok Scripted.empty_page);
        DeleteV2 Runs.archive (Ok tt);
        Log INFO (DeletedFolder Runs.archive)].
Proof.
  split; [exact excluded_exact_lower_case|].
  repeat split; vm_compute; reflexivity.
Qed.

(** C6 (the run that breaks it).  In dry-run mode [main] stops after
    the batches: the prompt that guards the folder clean-up is asked
    in live mode only, and without it the clean-up is not called.
    Here the scan finds a memo in [.../sub]; the folder is a candidate
    and its listing would show it reclaimable, as the direct call of
    [clean_empty_folders] shows, yet [main] neither lists it nor logs
    the intended deletion. *)
Lemma dry_run_main_skips_reclaim :
  let w := Runs.script
             [Scripted.page [FileMetadata "memo style.pdf" Runs.sub_memo];
              Ok Runs.memos_and_folder] [] [] in
  let w' := Runs.script [Ok Runs.memos_and_folder] [] [] in
  main true 5 w
  = (w',
     [Log INFO CleanupStarted; CreateClient (Ok tt);
      ListFolder TARGET_FOLDER true
        (Scripted.page [FileMetadata "memo style.pdf" Runs.sub_memo]);
      Log INFO (ScanCompleted 1);
      Sleep API_DELAY; Log INFO (ProcessedBatch 1);
      CloseClient; Log INFO Completed],
     Ret tt)
  /\ ~ In (Log INFO (DryRunWouldDelete Runs.sub)) (trace_of (main true 5 w))
  /\ trace_of (clean_empty_folders true [Runs.sub_memo] w')
     = [ListFolder Runs.sub false (Ok Runs.memos_and_folder);
        Log INFO (DryRunWouldDelete Runs.sub)].
Proof.
  intros w w'.
  assert (Hrun : main true 5 w
                 = (w',
                    [Log INFO CleanupStarted; CreateClient (Ok tt);
                     ListFolder TARGET_FOLDER true
                       (Scripted.page
                          [FileMetadata "memo style.pdf" Runs.sub_memo]);
                     Log INFO (ScanCompleted 1);
                     Sleep API_DELAY; Log INFO (ProcessedBatch 1);
                     CloseClient; Log INFO Completed],
                    Ret tt)) by (vm_compute; reflexivity).
  split; [exact Hrun|]. split; [|vm_compute; reflexivity].
  rewrite Hrun. unfold trace_of. cbn [fst snd In].
  intros Hin. repeat (destruct Hin as [Hin|Hin]; [discriminate|]).
  exact Hin.
Qed.

(** *** The matcher and [dirname] on sample names *)

Example is_target_hyphen : is_target_file "memo-style.pdf" = true.
Proof. reflexivity. Qed.
Example is_target_mixed_case : is_target_file "MemoStyle.PDF" = true.
Proof. reflexivity. Qed.
Example is_target_report : is_target_file "report.pdf" = false.
Proof. reflexivity. Qed.
Example is_target_decorated :
  is_target_file "x memo _- style (1).pdf" = true.
Proof. reflexivity. Qed.
Example is_target_backup : is_target_file "memostyle.pdf.bak" = false.
Proof. reflexivity. Qed.
Example dirname_file : Str.dirname "/a/b/c.pdf" = "/a/b".
Proof. reflexivity. Qed.
Example dirname_top : Str.dirname "/a" = "/".
Proof. reflexivity. Qed.
Example dirname_slashes : Str.dirname "//" = "//".
Proof. reflexivity. Qed.
Example dirname_relative : Str.dirname "abc" = "".
Proof. reflexivity. Qed.

(** *** The retry wrapper on scripted failures *)

(** Six transient failures: five waits of 90, 135, 202.5, 303.75 and
    455.625 seconds, then the sixth error is raised. *)
Example robust_api_call_exhausted :
  let w := Runs.script
             [Runs.timeout "1"; Runs.timeout "2"; Runs.timeout "3";
              Runs.timeout "4"; Runs.timeout "5";
              Err (Exn ConnectionError "6"); Ok Scripted.empty_page] [] [] in
  let run := robust_api_call (call_list_folder "x" false None) w in
  outcome_of run = Raise (Exn ConnectionError "6")
  /\ world_of run = Runs.script [Ok Scripted.empty_page] [] []
  /\ map Qred (flat_map (fun ev => match ev with Sleep q => [q] | _ => [] end)
                 (trace_of run))
     = [90; 135; 405 # 2; 1215 # 4; 3645 # 8]%Q.
Proof. repeat split; vm_compute; reflexivity. Qed.

(** Two transient failures, then a page. *)
Example robust_api_call_recovers :
  let w := Runs.script
             [Runs.timeout "1"; Runs.timeout "2"; Ok Runs.memos_and_folder]
             [] [] in
  let run := robust_api_call (call_list_folder "x" false None) w in
  outcome_of run = Ret Runs.memos_and_folder
  /\ List.length (trace_of run) = 7.
Proof. repeat split; vm_compute; reflexivity. Qed.

(** An authorization failure is raised at once: one call, no wait. *)
Example robust_api_call_not_transient :
  let w := Runs.script [Err (Exn AuthError "expired"); Runs.timeout "2"]
             [] [] in
  robust_api_call (call_list_folder "x" false None) w
  = (Runs.script [Runs.timeout "2"] [] [],
     [ListFolder "x" false (Err (Exn AuthError "expired"))],
     Raise (Exn AuthError "expired")).
Proof. vm_compute; reflexivity. Qed.

(** *** The scanner on scripted failures *)

(** One page with a target, then the continuation fails four times: the
    partial result comes back with the cursor recorded as failed. *)
Example scan_partial_result :
  let first := Ok {| entries := [FileMetadata "memo style.pdf" Runs.sub_memo];
                     cursor := "c1"; has_more := true |} in
  let w := Runs.script
             [first; Runs.api_error "1"; Runs.api_error "2";
              Runs.api_error "3"; Runs.api_error "4";
              Ok Runs.memos_and_folder] [] [] in
  let run := scan_target_folder 10 w in
  outcome_of run
  = Ret {| target_files := [Runs.sub_memo]; other_files := [];
           failed_folders := ["c1"] |}
  /\ world_of run = Runs.script [Ok Runs.memos_and_folder] [] [].
Proof. repeat split; vm_compute; reflexivity. Qed.

(** The first page fails four times: nothing was found, the error is
    raised. *)
Example scan_fatal :
  let w := Runs.script
             [Runs.api_error "1"; Runs.api_error "2"; Runs.api_error "3";
              Runs.api_error "4"; Ok Runs.memos_and_folder] [] [] in
  let run := scan_target_folder 10 w in
  outcome_of run = Raise (Exn ApiError "4")
  /\ world_of run = Runs.script [Ok Runs.memos_and_folder] [] [].
Proof. repeat split; vm_compute; reflexivity. Qed.

Lemma scan_halts_when_retries_exhausted_witness :
  let st := {| s_results := {| target_files := [Runs.sub_memo];
                               other_files := []; failed_folders := [] |};
               s_cursor := Some "c1";
               s_processed_entries := 1;
               s_retry_count := 0 |} in
  let w := Runs.script
             [Runs.api_error "1"; Runs.api_error "2"; Runs.api_error "3";
              Runs.api_error "4"; Ok Runs.memos_and_folder] [] [] in
  exists e,
    outcome_of (scan_from 10 st w)
    = Ret {| target_files := [Runs.sub_memo]; other_files := [];
             failed_folders := ["c1"] |}
    /\ world_of (scan_from 10 st w)
       = Runs.script [Ok Runs.memos_and_folder] [] []
    /\ outcome_of (nth_call (fetch_page (Some "c1")) 3 w) = Raise e.
Proof.
  intros st w.
  destruct (scan_halts_when_retries_exhausted 10 st w)
    as (e & He & Hw & _ & Ho).
  - cbn. unfold Scan.MAX_RETRIES. lia.
  - cbn. unfold Scan.MAX_RETRIES. lia.
  - intros k Hk. cbn in Hk. unfold Scan.MAX_RETRIES in Hk.
    destruct k as [|[|[|[|k]]]]; [| | | |lia];
      eexists; split; vm_compute; reflexivity.
  - exists e. split; [exact Ho|]. split; [|exact He].
    rewrite Hw. vm_compute. reflexivity.
Defined.

(** *** The batch deleter on 250 paths *)

(** The workers take the third batch first; the call for the first
    batch comes second and fails.  With no schedule the tasks run in
    turn and the call for the second batch fails. *)
Lemma turbo_delete_files_250_witness :
  let replies := [Ok tt; Runs.api_error "busy"; Ok tt; Ok tt] in
  let w := Runs.scheduled [2; 2; 0; 0; 1; 1] (Runs.script [] replies []) in
  let run := turbo_delete_files false Runs.paths_250 w in
  let run' := turbo_delete_files false Runs.paths_250
                (Runs.script [] replies []) in
  List.length Runs.paths_250 = 250
  /\ map (@List.length string) (batches_of Runs.paths_250) = [100; 100; 50]
  /\ filter failed (delete_attempts (trace_of run))
     = [(firstn 100 Runs.paths_250, Err (Exn ApiError "busy"))]
  /\ outcome_of run = Ret tt
  /\ List.length (delete_attempts (trace_of run)) = 4
  /\ List.length
       (List.concat (deleted (delete_attempts (trace_of run)))) = 250
  /\ outcome_of run' = Ret tt
  /\ world_of run' = Runs.script [] [] []
  /\ List.length
       (List.concat (deleted (delete_attempts (trace_of run')))) = 250.
Proof.
  intros replies w run run'.
  assert (Hlen : List.length Runs.paths_250 = 250) by (vm_compute; reflexivity).
  assert (Hfail : filter failed (delete_attempts (trace_of run))
                  = [(firstn 100 Runs.paths_250, Err (Exn ApiError "busy"))])
    by (vm_compute; reflexivity).
  destruct (turbo_delete_files_250 Runs.paths_250 Hlen)
    as (_ & Hsizes & _ & Hrun & Hturn).
  destruct (Hrun w 0 (Exn ApiError "busy") ltac:(lia) eq_refl Hfail)
    as (Ho & _ & Hn & _ & Hall).
  destruct (Hturn (Runs.script [] replies [])
              (Runs.script [] [Runs.api_error "busy"; Ok tt; Ok tt] [])
              (Runs.script [] [Ok tt; Ok tt] [])
              (Runs.script [] [Ok tt] [])
              (Runs.script [] [] [])
              (Ok tt) (Runs.api_error "busy") (Ok tt)
              1 (Exn ApiError "busy"))
    as (Ho' & Hw' & _ & _ & Hall'); try reflexivity; [lia|].
  repeat split; assumption.
Defined.

(** *** The folder reclaimer on scripted listings *)

(** A folder holding two memos and a sub-folder is deleted in live
    mode: the sub-folder does not count. *)
Lemma reclaim_deletes_only_checked_folders_witness :
  let w := Runs.script [Ok Runs.memos_and_folder] [] [] in
  trace_of (clean_empty_folders false [Runs.sub_memo] w)
  = [ListFolder Runs.sub false (Ok Runs.memos_and_folder);
     DeleteV2 Runs.sub (Ok tt);
     Log INFO (DeletedFolder Runs.sub)]
  /\ exists pre' response,
       [ListFolder Runs.sub false (Ok Runs.memos_and_folder)]
       = pre' ++ [ListFolder Runs.sub false (Ok response)]
       /\ forall entry,
            In entry (entries response) ->
            is_file_entry entry = true ->
            is_target_file (entry_name entry) = true.
Proof.
  intros w.
  assert (Ht : trace_of (clean_empty_folders false [Runs.sub_memo] w)
               = [ListFolder Runs.sub false (Ok Runs.memos_and_folder)]
                 ++ DeleteV2 Runs.sub (Ok tt)
                 :: [Log INFO (DeletedFolder Runs.sub)])
    by (vm_compute; reflexivity).
  split; [exact Ht|].
  exact (proj2 (proj1 (reclaim_deletes_only_checked_folders false
                         [Runs.sub_memo] w) _ _ _ _ Ht)).
Defined.

(** The listing of the folder raises: nothing is deleted, whatever the
    exception. *)
Lemma failed_check_never_deletes_witness :
  let w := Runs.script [Err (Exn AuthError "expired")] [] [] in
  trace_of (clean_empty_folders false [Runs.sub_memo] w)
  = [ListFolder Runs.sub false (Err (Exn AuthError "expired"));
     Log WARNING (CheckFailed Runs.sub (Exn AuthError "expired"))]
  /\ forall r,
       ~ In (DeleteV2 Runs.sub r)
            [Log WARNING (CheckFailed Runs.sub (Exn AuthError "expired"))].
Proof.
  intros w.
  assert (Ht : trace_of (clean_empty_folders false [Runs.sub_memo] w)
               = [] ++ ListFolder Runs.sub false (Err (Exn AuthError "expired"))
                 :: [Log WARNING
                       (CheckFailed Runs.sub (Exn AuthError "expired"))])
    by (vm_compute; reflexivity).
  split; [exact Ht|].
  exact (proj2 (failed_check_never_deletes false [Runs.sub_memo] w) _ _ _ _ Ht).
Defined.

(** In dry-run mode the same folder is listed and the intended deletion
    is logged. *)
Lemma dry_run_issues_no_mutation_witness :
  let w := Runs.script [Ok Runs.memos_and_folder] [] [] in
  all_files_are_targets Runs.memos_and_folder = true
  /\ exists post',
       [Log INFO (DryRunWouldDelete Runs.sub)]
       = Log INFO (DryRunWouldDelete Runs.sub) :: post'.
Proof.
  intros w.
  assert (Hall : all_files_are_targets Runs.memos_and_folder = true)
    by (vm_compute; reflexivity).
  split; [exact Hall|].
  refine (proj2 (proj2 (proj2 dry_run_issues_no_mutation) [Runs.sub_memo] w)
            [] Runs.sub Runs.memos_and_folder _ _ Hall).
  vm_compute. reflexivity.
Defined.

(* ================================================================= *)
(** * Further properties *)

(** ** The matcher *)

Lemma dot_lower_char (c : ascii) : Re.dot (Str.lower_char c) = Re.dot c.
Proof. destruct c as [[] [] [] [] [] [] [] []]; reflexivity. Qed.

Lemma all_dot_lower (s : string) :
  Str.all Re.dot (Str.lower s) = Str.all Re.dot s.
Proof.
  induction s as [|c s IH]; [reflexivity|].
  cbn [Str.lower Str.all]. now rewrite dot_lower_char, IH.
Qed.

Lemma lower_char_newline (c : ascii) :
  Str.lower_char c = Str.newline -> c = Str.newline.
Proof. destruct c as [[] [] [] [] [] [] [] []]; cbv; congruence. Qed.

Lemma lower_eol (t : string) :
  (t = ""%string \/ t = String Str.newline "") <->
  (Str.lower t = ""%string \/ Str.lower t = String Str.newline "").
Proof.
  split.
  - intros [-> | ->]; [left | right]; reflexivity.
  - destruct t as [|c [|d t]]; cbn [Str.lower]; intros [E|E];
      try discriminate; auto.
    injection E as E. apply lower_char_newline in E. subst c. now right.
Qed.

Lemma decorated_lower (n : string) : decorated (Str.lower n) <-> decorated n.
Proof.
  split.
  - intros (pre & u1 & run & u2 & x & u3 & tail & E & H1 & H2 & H3 & H4
            & H5 & H6).
    apply lower_split in E as (a & n1 & -> & <- & E).
    apply lower_split in E as (a1 & n2 & -> & <- & E).
    apply lower_split in E as (r & n3 & -> & <- & E).
    apply lower_split in E as (a2 & n4 & -> & <- & E).
    apply lower_split in E as (y & n5 & -> & <- & E).
    apply lower_split in E as (a3 & t & -> & <- & <-).
    rewrite lower_idem in H1, H3, H5.
    rewrite all_sep_lower in H2. rewrite all_dot_lower in H4.
    apply lower_eol in H6.
    exists a, a1, r, a2, y, a3, t. auto 10.
  - intros (pre & u1 & run & u2 & x & u3 & tail & -> & H1 & H2 & H3 & H4
            & H5 & H6).
    exists (Str.lower pre), (Str.lower u1), (Str.lower run), (Str.lower u2),
      (Str.lower x), (Str.lower u3), (Str.lower tail).
    rewrite !lower_append, !lower_idem, all_sep_lower, all_dot_lower.
    apply lower_eol in H6. auto 10.
Qed.

(** X1.  [is_target_file] holds exactly for the names that split into
    any prefix, ["memo"], a run of [[\s\-_]], ["style"], characters
    other than a line feed, [".pdf"] (letters in either case) and then
    nothing or one line feed: the first two patterns of the list add
    nothing to the third. *)
Theorem is_target_file_exact (N : string) :
  is_target_file N = Re.search pattern_3 N
  /\ (is_target_file N = true <-> decorated N).
Proof.
  assert (Hiff : is_target_file N = true <-> Re.search pattern_3 N = true)
    by apply is_target_file_pattern_3.
  split.
  - destruct (is_target_file N), (Re.search pattern_3 N); try reflexivity.
    + symmetry. now apply Hiff.
    + now apply Hiff.
  - rewrite Hiff. apply search_pattern_3_iff.
Qed.

(** X2.  The match does not depend on the case of the letters, and a
    name is a target as soon as one of its suffixes is. *)
Theorem is_target_file_case_and_prefix (N pre : string) :
  is_target_file (Str.lower N) = is_target_file N
  /\ (is_target_file N = true -> is_target_file (pre ++ N)%string = true).
Proof.
  split.
  - assert (Hiff : is_target_file (Str.lower N) = true
                   <-> is_target_file N = true).
    { rewrite !is_target_file_pattern_3, !search_pattern_3_iff.
      apply decorated_lower. }
    destruct (is_target_file (Str.lower N)), (is_target_file N);
      try reflexivity.
    + symmetry. now apply Hiff.
    + now apply Hiff.
  - rewrite !is_target_file_pattern_3, !search_iff.
    intros (p & rest & -> & Hm). exists (pre ++ p)%string, rest.
    split; [now rewrite append_assoc | exact Hm].
Qed.

Lemma is_target_file_case_and_prefix_witness :
  is_target_file "2024 MEMO_STYLE.PDF" = true.
Proof.
  apply (proj2 (is_target_file_case_and_prefix "MEMO_STYLE.PDF" "2024 ")).
  reflexivity.
Defined.

(** ** The partition into batches, for any number of paths *)

Lemma firstn_plus {X} (n m : nat) (l : list X) :
  firstn (n + m) l = firstn n l ++ firstn m (skipn n l).
Proof.
  revert l; induction n as [|n IH]; intros [|x l]; cbn [Nat.add firstn skipn app];
    try reflexivity.
  - now rewrite firstn_nil.
  - now rewrite IH.
Qed.

Lemma batches_of_slices (file_paths : list string) :
  batches_of file_paths
  = map (fun k => firstn BATCH_SIZE (skipn (k * BATCH_SIZE) file_paths))
        (seq 0 ((List.length file_paths + BATCH_SIZE - 1) / BATCH_SIZE)).
Proof.
  unfold batches_of, range0. rewrite map_map. apply map_ext.
  intros k. apply slice_eq.
Qed.

Lemma concat_slices {X} (B : nat) (l : list X) (q a : nat) :
  List.concat (map (fun k => firstn B (skipn (k * B) l)) (seq a q))
  = firstn (q * B) (skipn (a * B) l).
Proof.
  revert a; induction q as [|q IH]; intros a; [reflexivity|].
  cbn [seq map List.concat]. rewrite IH.
  replace (S q * B) with (B + q * B) by lia.
  rewrite firstn_plus, skipn_skipn.
  now replace (B + a * B) with (S a * B) by lia.
Qed.

Lemma batch_count_covers (n : nat) :
  n <= (n + BATCH_SIZE - 1) / BATCH_SIZE * BATCH_SIZE
  /\ ((n + BATCH_SIZE - 1) / BATCH_SIZE - 1) * BATCH_SIZE < n + 0 ^ n.
Proof.
  unfold BATCH_SIZE.
  pose proof (Nat.div_mod_eq (n + 100 - 1) 100) as Hd.
  pose proof (Nat.mod_upper_bound (n + 100 - 1) 100) as Hm.
  destruct n as [|n]; [cbn; lia|].
  replace (0 ^ S n) with 0 by (cbn; lia). split; nia.
Qed.

Lemma batches_of_concat (file_paths : list string) :
  List.concat (batches_of file_paths) = file_paths.
Proof.
  pose proof (batch_count_covers (List.length file_paths)) as [Hup _].
  rewrite batches_of_slices, concat_slices.
  cbn [Nat.mul skipn]. apply firstn_all2. exact Hup.
Qed.

(** X3.  The batches of [turbo_delete_files] partition the paths, in
    order: their concatenation is the input, there are
    [ceil(n / BATCH_SIZE)] of them (none for no path), every batch but
    the last holds exactly [BATCH_SIZE] paths and the last holds between
    1 and [BATCH_SIZE]. *)
Theorem batches_of_partition (file_paths : list string) :
  let batches := batches_of file_paths in
  List.concat batches = file_paths
  /\ List.length batches
     = (List.length file_paths + BATCH_SIZE - 1) / BATCH_SIZE
  /\ (batches = [] <-> file_paths = [])
  /\ Forall (fun b => 1 <= List.length b <= BATCH_SIZE) batches
  /\ forall i, S i < List.length batches ->
               List.length (nth i batches []) = BATCH_SIZE.
Proof.
  intros batches. subst batches.
  pose proof (batch_count_covers (List.length file_paths)) as [Hup Hlow].
  set (q := (List.length file_paths + BATCH_SIZE - 1) / BATCH_SIZE) in *.
  assert (Hlen : List.length (batches_of file_paths) = q).
  { rewrite batches_of_slices. fold q. now rewrite length_map, length_seq. }
  pose proof (batches_of_concat file_paths) as Hcat.
  split; [exact Hcat|]. split; [exact Hlen|]. split; [|split].
  - split.
    + intros E. now rewrite E in Hcat.
    + intros E. rewrite E. vm_compute. reflexivity.
  - pose proof (batches_of_nonempty file_paths) as Hne.
    rewrite batches_of_slices in *. fold q in Hne |- *.
    apply Forall_forall. intros b Hin.
    rewrite Forall_forall in Hne. specialize (Hne b Hin).
    apply in_map_iff in Hin as (k & <- & _).
    split.
    + destruct (firstn _ _); [congruence | cbn; lia].
    + rewrite length_firstn. lia.
  - intros i Hi. rewrite batches_of_slices. fold q.
    rewrite Hlen in Hi.
    rewrite (nth_indep _ []
               (firstn BATCH_SIZE (skipn (q * BATCH_SIZE) file_paths)))
      by (rewrite length_map, length_seq; lia).
    rewrite (map_nth
               (fun k => firstn BATCH_SIZE (skipn (k * BATCH_SIZE) file_paths))
               (seq 0 q) q i).
    rewrite seq_nth by lia. cbn [Nat.add].
    rewrite length_firstn, length_skipn.
    assert (S i * BATCH_SIZE <= (q - 1) * BATCH_SIZE)
      by (apply Nat.mul_le_mono_r; lia).
    clearbody q. unfold BATCH_SIZE in *.
    destruct (List.length file_paths) as [|n]; [cbn in Hlow; lia|].
    replace (0 ^ S n) with 0 in Hlow by (cbn; lia). lia.
Qed.

(** ** A remote that never fails *)

Section ReliableRemote.
Context {W : Type} `{Remote W}.
Variable Inv : W -> Prop.
Hypothesis delete_succeeds :
  forall b w, Inv w ->
    Inv (fst (files_delete_batch b w)) /\ snd (files_delete_batch b w) = Ok tt.

Lemma all_ok_attempts (l : list (list string * reply unit)) :
  (forall b r, In (b, r) l -> r = Ok tt) ->
  l = map (fun b => (b, Ok tt)) (map fst l) /\ api_failed l = [].
Proof.
  induction l as [|[b r] l IH]; intros Hall; [now split|].
  destruct IH as [IH1 IH2]; [intros b' r' Hin; apply (Hall b'); now right|].
  rewrite (Hall b r) by now left.
  cbn [map fst api_failed]. rewrite <- IH1. now split.
Qed.

Lemma deleted_all_ok (bs : list (list string)) :
  deleted (map (fun b => (b, Ok tt)) bs) = bs.
Proof. induction bs as [|b bs IH]; [reflexivity|]. cbn. now rewrite IH. Qed.

(** X4.  Against a remote whose batch delete always succeeds, live
    [turbo_delete_files] returns normally after exactly one call per
    batch, all successful, in an order that is up to the pool, with no
    retry: its events are those of one successful attempt per batch.
    The paths deleted are the input paths, each once. *)
Theorem turbo_delete_files_all_succeed (file_paths : list string) (w : W) :
  Inv w ->
  let run := turbo_delete_files false file_paths w in
  let attempts := delete_attempts (trace_of run) in
  let all_ok := map (fun b => (b, Ok tt)) (batches_of file_paths) in
  outcome_of run = Ret tt
  /\ Inv (world_of run)
  /\ Permutation (trace_of run) (flat_map attempt_events all_ok)
  /\ Permutation attempts all_ok
  /\ Permutation (List.concat (deleted attempts)) file_paths.
Proof.
  intros Hw run attempts all_ok. subst run attempts all_ok.
  destruct (turbo_delete_files_live Inv (fun _ r => r = Ok tt)
              delete_succeeds file_paths w Hw)
    as (stages & rs2 & pool_trace & Hl & _ & _ & Ht & Hp & Hw' & Hg & Ho).
  cbn zeta in *.
  set (first := first_attempts (batches_of file_paths) stages) in *.
  destruct (all_ok_attempts first) as [Hfirst Hnone].
  { intros b r Hin. apply (Hg b). apply in_or_app. now left. }
  rewrite Hnone in *. cbn [combine flat_map] in *. rewrite app_nil_r in *.
  destruct (outcome_of _) as [[]|e|]; [| |contradiction].
  2:{ destruct Ho as [_ (b & Hb)]. now apply Hg in Hb. }
  destruct Ho as [Hret _].
  destruct (first_attempts_returned _ _ Hl Hret) as [Hfst _].
  fold first in Hfst. rewrite Hfst in Hfirst.
  assert (Hpt : Permutation
                  (trace_of (turbo_delete_files false file_paths w))
                  (flat_map attempt_events
                     (map (fun b => (b, Ok tt)) (batches_of file_paths))))
    by (now rewrite Ht, <- Hfirst).
  assert (Hpa : Permutation
                  (delete_attempts
                     (trace_of (turbo_delete_files false file_paths w)))
                  (map (fun b => (b, Ok tt)) (batches_of file_paths))).
  { rewrite <- (delete_attempts_flat_attempt (map _ (batches_of file_paths))).
    now apply delete_attempts_perm. }
  repeat split; try assumption.
  rewrite <- (batches_of_concat file_paths) at 2.
  rewrite <- (deleted_all_ok (batches_of file_paths)).
  now apply concat_deleted_perm.
Qed.

End ReliableRemote.

Lemma scripted_deletes_succeed (b : list string) (w : Scripted.world) :
  Scripted.deletions w = [] ->
  Scripted.deletions (fst (files_delete_batch b w)) = []
  /\ snd (files_delete_batch b w) = Ok tt.
Proof.
  intros Hw. cbn [files_delete_batch Scripted.remote].
  unfold Scripted.next_deletion. rewrite Hw. cbn. auto.
Defined.

Lemma turbo_delete_files_all_succeed_witness :
  let w := Runs.scheduled [1; 0; 2; 2; 1] (Runs.script [] [] []) in
  let run := turbo_delete_files false Runs.paths_250 w in
  outcome_of run = Ret tt
  /\ Permutation (List.concat (deleted (delete_attempts (trace_of run))))
       Runs.paths_250.
Proof.
  intros w run.
  destruct (turbo_delete_files_all_succeed
              (fun w => Scripted.deletions w = [])
              scripted_deletes_succeed
              Runs.paths_250 w eq_refl)
    as (Ho & _ & _ & _ & Hc).
  split; assumption.
Defined.

(** ** [dirname], once more *)

Lemma count_slash_no_mem (s : string) :
  Str.mem Str.slash s = false -> Str.count_slash s = 0.
Proof.
  induction s as [|c s IH]; [reflexivity|].
  cbn [Str.mem Str.count_slash]. intros E.
  apply orb_false_elim in E as [E1 E2].
  rewrite Ascii.eqb_sym, E1, (IH E2). reflexivity.
Qed.

Lemma count_slash_head (p : string) :
  Str.count_slash (Str.head_upto_last_slash p) = Str.count_slash p.
Proof.
  induction p as [|c p IH]; [reflexivity|].
  cbn [Str.head_upto_last_slash Str.count_slash].
  destruct (Str.mem Str.slash p) eqn:Em.
  - cbn [Str.count_slash]. now rewrite IH.
  - rewrite (count_slash_no_mem p Em).
    destruct (Ascii.eqb c Str.slash) eqn:Ec; cbn [Str.count_slash];
      rewrite ?Ec; reflexivity.
Qed.

Lemma count_slash_rstrip (s : string) :
  Str.count_slash (Str.rstrip_slash s) + String.length s
  = Str.count_slash s + String.length (Str.rstrip_slash s).
Proof.
  induction s as [|c s IH]; [reflexivity|].
  cbn [Str.rstrip_slash Str.count_slash String.length].
  destruct (Str.rstrip_slash s) as [|d r] eqn:Er.
  - cbn [Str.count_slash String.length] in IH.
    destruct (Ascii.eqb c Str.slash) eqn:Ec;
      cbn [Str.count_slash String.length]; rewrite ?Ec; lia.
  - cbn [Str.count_slash String.length] in *. lia.
Qed.

Lemma head_nonempty (p : string) :
  Str.mem Str.slash p = true -> Str.head_upto_last_slash p <> ""%string.
Proof.
  destruct p as [|c p]; [discriminate|].
  cbn [Str.mem Str.head_upto_last_slash]. intros E.
  destruct (Str.mem Str.slash p); [discriminate|].
  rewrite orb_false_r, Ascii.eqb_sym in E. rewrite E. discriminate.
Qed.

Lemma head_last_is_slash (p : string) :
  Str.head_upto_last_slash p = ""%string
  \/ last_is_slash (Str.head_upto_last_slash p) = true.
Proof.
  induction p as [|c p IH]; [now left|].
  cbn [Str.head_upto_last_slash].
  destruct (Str.mem Str.slash p) eqn:Em.
  - right. pose proof (head_nonempty p Em) as Hne.
    destruct IH as [E|E]; [contradiction|].
    destruct (Str.head_upto_last_slash p); [contradiction | exact E].
  - destruct (Ascii.eqb c Str.slash) eqn:Ec; [right | now left].
    cbn. exact Ec.
Qed.

Lemma rstrip_fixed_last (s : string) :
  Str.rstrip_slash s = s -> last_is_slash s = false.
Proof.
  induction s as [|c s IH]; [reflexivity|].
  cbn [Str.rstrip_slash].
  destruct (Str.rstrip_slash s) as [|d r] eqn:Er.
  - destruct (Ascii.eqb c Str.slash) eqn:Ec; [discriminate|].
    intros [= <-]. cbn. exact Ec.
  - intros [= <-]. specialize (IH eq_refl). exact IH.
Qed.

Lemma dirname_only_slashes (p : string) :
  only_slashes (Str.dirname p) = true ->
  Str.dirname p = Str.head_upto_last_slash p.
Proof.
  unfold Str.dirname, only_slashes.
  destruct (Str.all (Ascii.eqb Str.slash) (Str.head_upto_last_slash p))
    eqn:Eh; [reflexivity|].
  intros Er. exfalso.
  (* stripping the slashes at the end of a head that is not made of
     slashes leaves a character that is not a slash *)
  revert Eh Er. generalize (Str.head_upto_last_slash p) as h.
  induction h as [|c h IH]; [discriminate|].
  cbn [Str.rstrip_slash Str.all].
  destruct (Str.rstrip_slash h) as [|d r] eqn:Eh.
  - destruct (Ascii.eqb c Str.slash) eqn:Ec.
    + rewrite Ascii.eqb_sym, Ec. cbn [andb]. intros Ha _.
      apply IH; [exact Ha | reflexivity].
    + cbn [Str.all]. rewrite Ascii.eqb_sym, Ec. discriminate.
  - cbn [Str.all]. destruct (Ascii.eqb Str.slash c); cbn [andb].
    + intros Ha Hr. apply IH; assumption.
    + discriminate.
Qed.

Lemma dirname_fixed_only_slashes (g : string) :
  Str.dirname g = g -> only_slashes g = true.
Proof.
  intros Hg. unfold Str.dirname in Hg. unfold only_slashes.
  destruct (Str.all (Ascii.eqb Str.slash) (Str.head_upto_last_slash g))
    eqn:Eh.
  - now rewrite Hg in Eh.
  - exfalso.
    pose proof (head_upto_last_slash_length g) as Hl.
    pose proof (rstrip_slash_length (Str.head_upto_last_slash g)) as Hr.
    assert (Hhead : Str.head_upto_last_slash g = g)
      by (apply head_upto_last_slash_full; rewrite Hg in Hr; lia).
    rewrite Hhead in *.
    pose proof (rstrip_fixed_last g Hg) as Hlast.
    destruct (head_last_is_slash g) as [E|E]; rewrite Hhead in E.
    + subst g. discriminate.
    + congruence.
Qed.

(** A step up that does not land on a run of slashes loses a segment. *)
Lemma dirname_fewer_segments (f : string) :
  only_slashes (Str.dirname f) = false ->
  Str.segments (Str.dirname f) < Str.segments f.
Proof.
  intros Hn. unfold Str.segments. apply -> Nat.succ_lt_mono.
  unfold Str.dirname, only_slashes in *.
  destruct (Str.all (Ascii.eqb Str.slash) (Str.head_upto_last_slash f))
    eqn:Eh; [congruence|].
  pose proof (count_slash_rstrip (Str.head_upto_last_slash f)) as Hc.
  pose proof (rstrip_slash_length (Str.head_upto_last_slash f)) as Hl.
  rewrite count_slash_head in Hc.
  destruct (Nat.eq_dec
              (String.length (Str.rstrip_slash (Str.head_upto_last_slash f)))
              (String.length (Str.head_upto_last_slash f))) as [E|E]; [|lia].
  exfalso. apply rstrip_slash_full in E.
  apply rstrip_fixed_last in E.
  destruct (head_last_is_slash f) as [E0|E1]; [|congruence].
  rewrite E0 in Eh. discriminate.
Qed.

Lemma head_is_prefix (p : string) :
  exists r, p = (Str.head_upto_last_slash p ++ r)%string.
Proof.
  induction p as [|c p [r IH]]; [now exists ""%string|].
  cbn [Str.head_upto_last_slash].
  destruct (Str.mem Str.slash p).
  - exists r. cbn. now rewrite <- IH.
  - destruct (Ascii.eqb c Str.slash); [now exists p | now exists (String c p)].
Qed.

Lemma rstrip_is_prefix (s : string) :
  exists r, s = (Str.rstrip_slash s ++ r)%string.
Proof.
  induction s as [|c s [r IH]]; [now exists ""%string|].
  cbn [Str.rstrip_slash].
  destruct (Str.rstrip_slash s) as [|d t].
  - cbn in IH. subst r.
    destruct (Ascii.eqb c Str.slash); [now exists (String c s) | now exists s].
  - exists r. cbn in *. now rewrite <- IH.
Qed.

Lemma dirname_is_prefix (p : string) :
  exists r, p = (Str.dirname p ++ r)%string.
Proof.
  unfold Str.dirname. destruct (head_is_prefix p) as [r Hr].
  destruct (Str.all _ _); [now exists r|].
  destruct (rstrip_is_prefix (Str.head_upto_last_slash p)) as [r' Hr'].
  exists (r' ++ r)%string. now rewrite <- append_assoc, <- Hr', <- Hr.
Qed.

Lemma iter_dirname_is_prefix (k : nat) (p : string) :
  exists r, p = (Nat.iter k Str.dirname p ++ r)%string.
Proof.
  induction k as [|k [r IH]]; [exists ""%string; now rewrite append_empty_r|].
  rewrite Nat.iter_succ.
  destruct (dirname_is_prefix (Nat.iter k Str.dirname p)) as [r' Hr'].
  exists (r' ++ r)%string. now rewrite <- append_assoc, <- Hr', <- IH.
Qed.

Lemma iter_dirname_length (k : nat) (p : string) :
  String.length (Nat.iter k Str.dirname p) <= String.length p.
Proof.
  induction k as [|k IH]; [reflexivity|]. rewrite Nat.iter_succ.
  pose proof (dirname_length (Nat.iter k Str.dirname p)). lia.
Qed.

Lemma only_slashes_prefix (g r : string) :
  only_slashes g = true ->
  String.length g <= leading_slashes (g ++ r)%string.
Proof.
  unfold only_slashes. induction g as [|c g IH]; [cbn; lia|].
  cbn [Str.all]. intros E. apply andb_true_iff in E as [Ec Eg].
  cbn. rewrite Ascii.eqb_sym, Ec. specialize (IH Eg). cbn. lia.
Qed.

(** X5.  [dirname] returns a prefix of its argument, never longer; it
    returns the argument itself exactly on runs of slashes (the empty
    string included); and every other step up that does not land on a
    run of slashes has fewer [/]-separated segments. *)
Theorem dirname_steps_up (p : string) :
  (exists r, p = (Str.dirname p ++ r)%string)
  /\ String.length (Str.dirname p) <= String.length p
  /\ (Str.dirname p = p <-> only_slashes p = true)
  /\ (only_slashes (Str.dirname p) = false ->
      Str.segments (Str.dirname p) < Str.segments p).
Proof.
  split; [apply dirname_is_prefix|]. split; [apply dirname_length|].
  split; [|apply dirname_fewer_segments].
  split; [apply dirname_fixed_only_slashes|].
  intros Hs. unfold Str.dirname.
  assert (Hh : Str.head_upto_last_slash p = p).
  { unfold only_slashes in Hs. clear -Hs.
    induction p as [|c p IH]; [reflexivity|].
    cbn [Str.all] in Hs. apply andb_true_iff in Hs as [Hc Hp].
    cbn [Str.head_upto_last_slash]. rewrite (IH Hp).
    destruct (Str.mem Str.slash p) eqn:Em; [reflexivity|].
    rewrite Ascii.eqb_sym, Hc.
    destruct p as [|d p]; [reflexivity|].
    cbn [Str.all Str.mem] in *. apply andb_true_iff in Hp as [Hd _].
    rewrite Hd in Em. discriminate. }
  rewrite Hh. unfold only_slashes in Hs. now rewrite Hs.
Qed.

Lemma dirname_steps_up_witness :
  Str.segments (Str.dirname "/a/b//c.pdf") < Str.segments "/a/b//c.pdf".
Proof.
  apply (proj2 (proj2 (proj2 (dirname_steps_up "/a/b//c.pdf")))).
  reflexivity.
Defined.

(** ** The candidate folders of the clean-up *)

Lemma iter_dirname_shift (k : nat) (p : string) :
  Nat.iter k Str.dirname (Str.dirname p) = Nat.iter (S k) Str.dirname p.
Proof. symmetry. apply Nat.iter_succ_r. Qed.

Lemma add_ancestors_In (fuel : nat) (folder : string) (s s' : list string)
    (f : string) :
  add_ancestors fuel folder s = Some s' ->
  In f s' <->
  In f s \/ exists k, Nat.iter k Str.dirname folder = f
                      /\ String.length TARGET_FOLDER < String.length f.
Proof.
  revert folder s; induction fuel as [|fuel IH]; intros folder s;
    cbn [add_ancestors];
    destruct (String.length TARGET_FOLDER <? String.length folder) eqn:Et;
    try discriminate.
  1, 3: intros [= <-]; apply Nat.ltb_ge in Et; split; [now left|];
    intros [Hin|[k [<- Hk]]]; [exact Hin|];
    pose proof (iter_dirname_length k folder); lia.
  intros Hs. rewrite (IH _ _ Hs), set_add_In. apply Nat.ltb_lt in Et. split.
  - intros [[->|Hin]|[k [<- Hk]]].
    + right. now exists 0.
    + now left.
    + right. exists (S k). now rewrite <- iter_dirname_shift.
  - intros [Hin|[[|k] [<- Hk]]].
    + left. now right.
    + left. now left.
    + right. exists k. now rewrite iter_dirname_shift.
Qed.

Lemma build_folder_list_In (target_files : list string) (s s' : list string)
    (f : string) :
  build_folder_list target_files s = Some s' ->
  In f s' <->
  In f s \/ exists p, In p target_files /\ ancestor_of f p
                      /\ String.length TARGET_FOLDER < String.length f.
Proof.
  revert s; induction target_files as [|p ps IH]; intros s;
    cbn [build_folder_list].
  - intros [= <-]. split; [now left|].
    intros [Hin|[p [[] _]]]. exact Hin.
  - destruct (add_ancestors _ _ s) as [s1|] eqn:Ea; [|discriminate].
    intros Hb. rewrite (IH _ Hb), (add_ancestors_In _ _ _ _ f Ea).
    unfold ancestor_of. split.
    + intros [[Hin|[k [<- Hk]]]|[q [Hq Hr]]].
      * now left.
      * right. exists p. split; [now left|]. split; [|exact Hk].
        exists k. now rewrite iter_dirname_shift.
      * right. exists q. split; [now right | exact Hr].
    + intros [Hin|[q [[<-|Hq] [[k Hk] Hl]]]].
      * left. now left.
      * left. right. exists k. now rewrite iter_dirname_shift.
      * right. exists q. split; [exact Hq|]. split; [now exists k | exact Hl].
Qed.

(** X6.  When the ancestor walk of [clean_empty_folders] ends, the
    folders it collected are pairwise distinct and are exactly the
    proper ancestors (by repeated [os.path.dirname]) of the target
    files whose path is longer than [TARGET_FOLDER]. *)
Theorem build_folder_list_ancestors (target_files folders : list string) :
  build_folder_list target_files [] = Some folders ->
  NoDup folders
  /\ forall f, In f folders <->
               exists p, In p target_files /\ ancestor_of f p
                         /\ String.length TARGET_FOLDER < String.length f.
Proof.
  intros Hb. split.
  - eapply build_folder_list_NoDup; [constructor | exact Hb].
  - intros f. rewrite (build_folder_list_In _ _ _ f Hb). split.
    + intros [[]|Hex]. exact Hex.
    + intros Hex. now right.
Qed.

Lemma build_folder_list_ancestors_witness :
  NoDup ["/$ jlr data migration/david/sub/a"%string; Runs.sub]
  /\ forall f,
       In f ["/$ jlr data migration/david/sub/a"%string; Runs.sub] <->
       exists p,
         In p ["/$ jlr data migration/david/sub/a/memo style.pdf"%string;
               Runs.sub_memo]
         /\ ancestor_of f p
         /\ String.length TARGET_FOLDER < String.length f.
Proof.
  apply (build_folder_list_ancestors
           ["/$ jlr data migration/david/sub/a/memo style.pdf"%string;
            Runs.sub_memo]).
  reflexivity.
Defined.

(** ** The order of the clean-up *)

Lemma insert_by_depth_Permutation (x : string) (l : list string) :
  Permutation (x :: l) (insert_by_depth x l).
Proof.
  induction l as [|y l IH]; cbn [insert_by_depth]; [reflexivity|].
  destruct (Str.segments y <=? Str.segments x); [reflexivity|].
  rewrite perm_swap. now apply perm_skip.
Qed.

Lemma insert_by_depth_sorted (x : string) (l : list string) :
  StronglySorted deeper_first l ->
  StronglySorted deeper_first (insert_by_depth x l).
Proof.
  induction 1 as [|y l Hs IH Hy]; cbn [insert_by_depth].
  - constructor; constructor.
  - destruct (Str.segments y <=? Str.segments x) eqn:E.
    + apply Nat.leb_le in E. constructor; [now constructor|].
      constructor; [exact E|].
      eapply Forall_impl; [|exact Hy]. unfold deeper_first. intros z Hz. lia.
    + apply Nat.leb_gt in E. constructor; [exact IH|].
      rewrite Forall_forall in *. intros z Hz.
      apply insert_by_depth_In in Hz as [->|Hz]; [|now apply Hy].
      unfold deeper_first. lia.
Qed.

Lemma insert_by_depth_stable (d : nat) (x : string) (l : list string) :
  filter (fun y => Str.segments y =? d) (insert_by_depth x l)
  = filter (fun y => Str.segments y =? d) (x :: l).
Proof.
  induction l as [|y l IH]; cbn [insert_by_depth]; [reflexivity|].
  destruct (Str.segments y <=? Str.segments x) eqn:E; [reflexivity|].
  apply Nat.leb_gt in E. cbn [filter] in *. rewrite IH.
  destruct (Str.segments x =? d) eqn:Ex; [|reflexivity].
  apply Nat.eqb_eq in Ex.
  destruct (Str.segments y =? d) eqn:Ey; [|reflexivity].
  apply Nat.eqb_eq in Ey. lia.
Qed.

Lemma sorted_deepest_first_sorted (l : list string) :
  StronglySorted deeper_first (sorted_deepest_first l).
Proof.
  unfold sorted_deepest_first.
  induction l as [|x l IH]; cbn [fold_right]; [constructor|].
  now apply insert_by_depth_sorted.
Qed.

(** X7.  The order in which [clean_empty_folders] visits its
    candidates, [sorted(..., key=lambda x: -len(x.split('/')))], is a
    rearrangement of the candidates in which no folder comes after one
    with fewer [/]-separated segments, and which keeps folders of equal
    depth in the order they had. *)
Theorem sorted_deepest_first_sorts (l : list string) :
  Permutation l (sorted_deepest_first l)
  /\ StronglySorted deeper_first (sorted_deepest_first l)
  /\ forall d, filter (fun y => Str.segments y =? d) (sorted_deepest_first l)
               = filter (fun y => Str.segments y =? d) l.
Proof.
  unfold sorted_deepest_first.
  induction l as [|x l [IHp [IHs IHf]]]; cbn [fold_right].
  - repeat split; constructor.
  - split; [|split].
    + rewrite <- insert_by_depth_Permutation. now apply perm_skip.
    + now apply insert_by_depth_sorted.
    + intros d. rewrite insert_by_depth_stable. cbn [filter].
      now rewrite IHf.
Qed.

(** ** When the ancestor walk ends *)

Lemma leading_slashes_no_mem (s : string) :
  Str.mem Str.slash s = false -> leading_slashes s = 0.
Proof.
  destruct s as [|c s]; [reflexivity|]. cbn [Str.mem leading_slashes].
  intros E. apply orb_false_elim in E as [E _].
  rewrite Ascii.eqb_sym in E. now rewrite E.
Qed.

Lemma leading_slashes_head (p : string) :
  leading_slashes (Str.head_upto_last_slash p) = leading_slashes p.
Proof.
  induction p as [|c p IH]; [reflexivity|].
  cbn [Str.head_upto_last_slash leading_slashes].
  destruct (Str.mem Str.slash p) eqn:Em.
  - cbn [leading_slashes]. now rewrite IH.
  - rewrite (leading_slashes_no_mem p Em).
    destruct (Ascii.eqb c Str.slash) eqn:Ec; cbn [leading_slashes];
      rewrite ?Ec; reflexivity.
Qed.

Lemma rstrip_empty (h : string) :
  Str.rstrip_slash h = ""%string -> Str.all (Ascii.eqb Str.slash) h = true.
Proof.
  induction h as [|c h IH]; [reflexivity|]. cbn [Str.rstrip_slash Str.all].
  destruct (Str.rstrip_slash h); [|discriminate].
  destruct (Ascii.eqb c Str.slash) eqn:Ec; [|discriminate].
  intros _. rewrite Ascii.eqb_sym, Ec. now apply IH.
Qed.

Lemma leading_slashes_rstrip (h : string) :
  Str.all (Ascii.eqb Str.slash) h = false ->
  leading_slashes (Str.rstrip_slash h) = leading_slashes h.
Proof.
  induction h as [|c h IH]; [discriminate|].
  cbn [Str.rstrip_slash Str.all leading_slashes].
  rewrite (Ascii.eqb_sym Str.slash c).
  destruct (Ascii.eqb c Str.slash) eqn:Ec; cbn [andb].
  - intros Ha. specialize (IH Ha).
    destruct (Str.rstrip_slash h) as [|d r] eqn:Er.
    + apply rstrip_empty in Er. congruence.
    + change (leading_slashes (String c (String d r)))
        with (if Ascii.eqb c Str.slash
              then S (leading_slashes (String d r)) else 0).
      now rewrite Ec, IH.
  - intros _. destruct (Str.rstrip_slash h); cbn [leading_slashes];
      now rewrite Ec.
Qed.

(** [dirname] keeps the slashes a path starts with. *)
Lemma leading_slashes_dirname (p : string) :
  leading_slashes (Str.dirname p) = leading_slashes p.
Proof.
  unfold Str.dirname.
  destruct (Str.all (Ascii.eqb Str.slash) (Str.head_upto_last_slash p))
    eqn:Eh.
  - apply leading_slashes_head.
  - now rewrite (leading_slashes_rstrip _ Eh), leading_slashes_head.
Qed.

Lemma leading_slashes_iter (k : nat) (p : string) :
  leading_slashes (Nat.iter k Str.dirname p) = leading_slashes p.
Proof.
  induction k as [|k IH]; [reflexivity|].
  now rewrite Nat.iter_succ, leading_slashes_dirname.
Qed.

Lemma leading_slashes_length (s : string) :
  leading_slashes s <= String.length s.
Proof.
  induction s as [|c s IH]; [reflexivity|]. cbn [leading_slashes].
  destruct (Ascii.eqb c Str.slash); cbn [String.length]; lia.
Qed.

Lemma only_slashes_leading (g : string) :
  only_slashes g = true -> leading_slashes g = String.length g.
Proof.
  intros Hg. pose proof (only_slashes_prefix g "" Hg) as Hp.
  rewrite append_empty_r in Hp.
  pose proof (leading_slashes_length g). lia.
Qed.

(** A walk that starts above more slashes than [TARGET_FOLDER] has
    characters uses up any number of turns. *)
Lemma add_ancestors_stuck (fuel : nat) (folder : string) (s : list string) :
  String.length TARGET_FOLDER < leading_slashes folder ->
  add_ancestors fuel folder s = None.
Proof.
  revert folder s; induction fuel as [|fuel IH]; intros folder s Hl;
    cbn [add_ancestors]; pose proof (leading_slashes_length folder) as Hle;
    destruct (Nat.ltb_spec (String.length TARGET_FOLDER)
                (String.length folder)) as [Hlt|Hge]; try lia.
  - reflexivity.
  - apply IH. now rewrite leading_slashes_dirname.
Qed.

(** A walk with one turn per character of its start ends unless it
    starts above that many slashes. *)
Lemma add_ancestors_ends (fuel : nat) (folder : string) (s : list string) :
  String.length folder <= fuel ->
  leading_slashes folder <= String.length TARGET_FOLDER ->
  exists s', add_ancestors fuel folder s = Some s'.
Proof.
  revert folder s; induction fuel as [|fuel IH]; intros folder s Hlen Hl;
    cbn [add_ancestors];
    destruct (Nat.ltb_spec (String.length TARGET_FOLDER)
                (String.length folder)) as [Hlt|Hge]; try lia; eauto.
  pose proof (dirname_length folder) as Hd.
  destruct (Nat.eq_dec (String.length (Str.dirname folder))
              (String.length folder)) as [E|E].
  - apply dirname_fixed, dirname_fixed_only_slashes, only_slashes_leading
      in E. lia.
  - apply IH; [lia | now rewrite leading_slashes_dirname].
Qed.

Lemma build_folder_list_ends (target_files s : list string) :
  Forall (fun p => leading_slashes p <= String.length TARGET_FOLDER)
         target_files ->
  exists s', build_folder_list target_files s = Some s'.
Proof.
  intros Hall. revert s. induction Hall as [|p ps Hp Hps IH]; intros s;
    cbn [build_folder_list]; [eauto|].
  destruct (add_ancestors_ends (String.length (Str.dirname p))
              (Str.dirname p) s) as [s1 ->];
    [lia | now rewrite leading_slashes_dirname | apply IH].
Qed.

Lemma build_folder_list_stuck (target_files s : list string) :
  Exists (fun p => String.length TARGET_FOLDER < leading_slashes p)
         target_files ->
  build_folder_list target_files s = None.
Proof.
  intros Hex. revert s. induction Hex as [p ps Hp|p ps Hps IH]; intros s;
    cbn [build_folder_list].
  - rewrite add_ancestors_stuck; [reflexivity|].
    now rewrite leading_slashes_dirname.
  - destruct (add_ancestors _ _ s); [apply IH | reflexivity].
Qed.

(** X8.  The ancestor walk of [clean_empty_folders] ends for every
    list of paths none of which starts with more slashes than
    [TARGET_FOLDER] has characters; a path that does start with more
    slashes than that keeps the [while] loop running for ever: [dirname]
    has reached a run of slashes, which it returns unchanged and which
    is longer than [TARGET_FOLDER]. *)
Theorem build_folder_list_halts (target_files : list string) :
  (build_folder_list target_files [] = None <->
   Exists (fun p => String.length TARGET_FOLDER < leading_slashes p)
          target_files)
  /\ forall p, String.length TARGET_FOLDER < leading_slashes p ->
       (forall fuel s, add_ancestors fuel (Str.dirname p) s = None)
       /\ exists k, let g := Nat.iter (S k) Str.dirname p in
                    Str.dirname g = g
                    /\ String.length TARGET_FOLDER < String.length g.
Proof.
  split.
  - split; [|apply build_folder_list_stuck].
    intros Hnone.
    destruct (Exists_dec
                (fun p => String.length TARGET_FOLDER < leading_slashes p)
                target_files (fun p => lt_dec _ _)) as [Hex|Hnex];
      [exact Hex|].
    apply Forall_Exists_neg in Hnex.
    destruct (build_folder_list_ends target_files []) as [s' Hs'];
      [|congruence].
    eapply Forall_impl; [|exact Hnex]. cbn. intros; lia.
  - intros p Hp. split.
    + intros fuel s. apply add_ancestors_stuck.
      now rewrite leading_slashes_dirname.
    + (* the lengths cannot go down for ever *)
      assert (Hfix : forall n q, String.length q <= n ->
                exists k, Str.dirname (Nat.iter k Str.dirname q)
                          = Nat.iter k Str.dirname q).
      { induction n as [|n IH]; intros q Hq.
        - exists 0. cbn. apply dirname_fixed.
          pose proof (dirname_length q). lia.
        - pose proof (dirname_length q) as Hd.
          destruct (Nat.eq_dec (String.length (Str.dirname q))
                      (String.length q)) as [E|E].
          + exists 0. now apply dirname_fixed.
          + destruct (IH (Str.dirname q)) as [k Hk]; [lia|].
            exists (S k). now rewrite <- !iter_dirname_shift. }
      destruct (Hfix _ (Str.dirname p) (Nat.le_refl _)) as [k Hk].
      exists k. cbn zeta. rewrite <- iter_dirname_shift. split; [exact Hk|].
      pose proof (leading_slashes_length (Nat.iter k Str.dirname (Str.dirname p))).
      rewrite leading_slashes_iter, leading_slashes_dirname in *. lia.
Qed.

Lemma build_folder_list_halts_witness :
  (forall fuel s,
      add_ancestors fuel
        (Str.dirname "////////////////////////////memo style.pdf") s = None)
  /\ exists k,
       let g := Nat.iter (S k) Str.dirname
                  "////////////////////////////memo style.pdf" in
       Str.dirname g = g /\ String.length TARGET_FOLDER < String.length g.
Proof.
  apply (proj2 (build_folder_list_halts [])). vm_compute. lia.
Defined.

Lemma build_folder_list_each (target_files s s' : list string) (p : string) :
  build_folder_list target_files s = Some s' ->
  In p target_files ->
  exists s1 s2,
    add_ancestors (String.length (Str.dirname p)) (Str.dirname p) s1
    = Some s2.
Proof.
  revert s; induction target_files as [|q qs IH]; intros s;
    cbn [build_folder_list]; [intros _ []|].
  destruct (add_ancestors _ _ s) as [s1|] eqn:Ea; [|discriminate].
  intros Hb [->|Hin]; [now exists s, s1 | eauto].
Qed.

(** X9.  Children go first: when the ancestor walk ends, no candidate
    is visited after its parent folder, in whatever order the loop
    meets the elements of the set. *)
Theorem sorted_deepest_first_child_first
    (target_files folders l1 l2 : list string) (code : list nat)
    (g f : string) :
  build_folder_list target_files [] = Some folders ->
  sorted_deepest_first (iteration code folders) = l1 ++ g :: l2 ->
  In f l2 -> Str.dirname f <> g.
Proof.
  intros Hb Hs Hf Hg.
  pose proof (sorted_deepest_first_sorted (iteration code folders))
    as Hsorted.
  assert (Hfin : In f folders).
  { apply (Permutation_in _ (iteration_Permutation code folders)).
    apply sorted_deepest_first_In. rewrite Hs, in_app_iff. right. now right. }
  assert (Hgin : In g folders).
  { apply (Permutation_in _ (iteration_Permutation code folders)).
    apply sorted_deepest_first_In. rewrite Hs, in_app_iff. right. now left. }
  rewrite Hs in Hsorted.
  (* [f] after [g] is not deeper than [g] *)
  assert (Hle : Str.segments f <= Str.segments g).
  { clear -Hsorted Hf. induction l1 as [|x l1 IH].
    - cbn in Hsorted. apply StronglySorted_inv in Hsorted as [_ Hall].
      rewrite Forall_forall in Hall. exact (Hall f Hf).
    - cbn in Hsorted. apply StronglySorted_inv in Hsorted as [Hs _]. auto. }
  destruct (only_slashes g) eqn:Eo.
  - (* a parent made of slashes and longer than [TARGET_FOLDER] stops
       the walk from ending *)
    apply (build_folder_list_In _ _ _ f Hb) in Hfin as [[]|[p [Hp [[k Hk] _]]]].
    apply (build_folder_list_In _ _ _ g Hb) in Hgin as [[]|[_ [_ [_ Hlen]]]].
    destruct (build_folder_list_each _ _ _ p Hb Hp) as [s1 [s2 Hsome]].
    rewrite add_ancestors_stuck in Hsome; [discriminate|].
    rewrite leading_slashes_dirname, <- (leading_slashes_iter (S k) p), Hk.
    rewrite <- (leading_slashes_dirname f), Hg.
    now rewrite (only_slashes_leading g Eo).
  - subst g. pose proof (dirname_fewer_segments f Eo). lia.
Qed.

Lemma sorted_deepest_first_child_first_witness :
  Str.dirname "/$ jlr data migration/david/sub/a"
  <> "/$ jlr data migration/david/sub/a/b"%string.
Proof.
  apply (sorted_deepest_first_child_first
           [Runs.sub_memo;
            "/$ jlr data migration/david/sub/a/b/memo style.pdf"%string]
           [Runs.sub; "/$ jlr data migration/david/sub/a/b"%string;
            "/$ jlr data migration/david/sub/a"%string]
           []
           ["/$ jlr data migration/david/sub/a"%string; Runs.sub]
           [2; 0]
           "/$ jlr data migration/david/sub/a/b"
           "/$ jlr data migration/david/sub/a").
  - reflexivity.
  - reflexivity.
  - now left.
Defined.

(** ** What the clean-up touches, and how often *)

Section ReclaimScope.
Context {W : Type} `{Remote W}.
Variable DRY_RUN : bool.

Lemma check_folder_excluded (remaining retry_count : nat) (folder : string)
    (w : W) :
  excluded_exact folder = true ->
  check_folder DRY_RUN remaining retry_count folder w = (w, [], Ret tt).
Proof.
  intros Hex. destruct remaining; cbn [check_folder]; [reflexivity|].
  unfold try_except. now rewrite Hex.
Qed.

Lemma folder_trace_touched (folder : string) (t : list event) :
  folder_trace DRY_RUN folder t ->
  Forall (fun ev => forall g, touched ev = Some g -> g = folder) t.
Proof.
  induction 1 as [| | | | | |resp e rc t Hd Ha Ht IH];
    repeat (constructor; [cbn; intros g; congruence|]); try constructor.
  destruct (rc =? MAX_RETRIES); [|exact IH].
  constructor; [cbn; intros g; congruence | exact IH].
Qed.

Lemma check_folder_touched (remaining retry_count : nat) (folder : string)
    (w : W) :
  Forall (fun ev => forall g, touched ev = Some g ->
                              g = folder /\ excluded_exact g = false)
         (trace_of (check_folder DRY_RUN remaining retry_count folder w)).
Proof.
  destruct (excluded_exact folder) eqn:Hex.
  - rewrite check_folder_excluded by exact Hex. constructor.
  - eapply Forall_impl;
      [|apply folder_trace_touched, check_folder_trace].
    cbn. intros ev Hev g Hg. rewrite (Hev g Hg). auto.
Qed.

(** The events of a pass are those of its first folder, then those of
    the rest of the pass (none when the first folder raised). *)
Lemma check_folders_split (folder : string) (rest : list string) (w : W) :
  exists t2,
    trace_of (check_folders DRY_RUN (folder :: rest) w)
    = trace_of (check_folder DRY_RUN MAX_RETRIES 0 folder w) ++ t2
    /\ (t2 = [] \/ exists w1, t2 = trace_of (check_folders DRY_RUN rest w1)).
Proof.
  cbn [check_folders]. unfold bind.
  destruct (check_folder DRY_RUN MAX_RETRIES 0 folder w) as [[w1 t1] r1].
  destruct r1 as [[]|e|]; unfold trace_of; cbn [fst snd].
  - destruct (check_folders DRY_RUN rest w1) as [[w2 t2] r2] eqn:E.
    exists t2. split; [reflexivity|]. right. exists w1. now rewrite E.
  - exists []. split; [now rewrite app_nil_r | now left].
  - exists []. split; [now rewrite app_nil_r | now left].
Qed.

Lemma check_folders_touched (folders : list string) (w : W) :
  Forall (fun ev => forall g, touched ev = Some g ->
                              In g folders /\ excluded_exact g = false)
         (trace_of (check_folders DRY_RUN folders w)).
Proof.
  revert w; induction folders as [|f fs IH]; intros w; [constructor|].
  destruct (check_folders_split f fs w) as [t2 [-> Ht2]].
  apply Forall_app. split.
  - eapply Forall_impl; [|apply check_folder_touched].
    cbn. intros ev Hev g Hg. destruct (Hev g Hg) as [-> Hex].
    split; [now left | exact Hex].
  - destruct Ht2 as [->|[w1 ->]]; [constructor|].
    eapply Forall_impl; [|apply IH].
    cbn. intros ev Hev g Hg. destruct (Hev g Hg). split; [now right | auto].
Qed.

(** X10.  Every folder that [clean_empty_folders] lists or deletes is
    a candidate that its [EXCLUDE_FOLDERS] test lets through: a proper
    ancestor of one of the target files, with a path longer than
    [TARGET_FOLDER] that starts with none of the excluded prefixes as
    they are written. *)
Theorem clean_empty_folders_touches_candidates
    (target_files : list string) (w : W) (ev : event) (g : string) :
  In ev (trace_of (clean_empty_folders DRY_RUN target_files w)) ->
  touched ev = Some g ->
  excluded_exact g = false
  /\ String.length TARGET_FOLDER < String.length g
  /\ exists p, In p target_files /\ ancestor_of g p.
Proof.
  unfold clean_empty_folders.
  destruct (build_folder_list target_files []) as [folders|] eqn:Eb;
    [|intros []].
  intros Hin Hg.
  pose proof (check_folders_touched
                (sorted_deepest_first (iteration (set_order w) folders)) w)
    as Hall.
  rewrite Forall_forall in Hall. destruct (Hall ev Hin g Hg) as [Hc Hex].
  rewrite sorted_deepest_first_In in Hc.
  apply (Permutation_in _ (iteration_Permutation _ folders)) in Hc.
  apply (build_folder_list_In _ _ _ g Eb) in Hc
    as [[]|[p [Hp [Hanc Hlen]]]].
  split; [exact Hex|]. split; [exact Hlen|]. now exists p.
Qed.

(** *** At most [MAX_RETRIES] turns per folder *)

Section Counting.
Variable P : event -> bool.
Hypothesis P_log : forall lvl msg, P (Log lvl msg) = false.
Hypothesis P_sleep : forall secs, P (Sleep secs) = false.
Hypothesis P_once : forall folder r1 r2,
  P (ListFolder folder false r1) && P (DeleteV2 folder r2) = false.

Lemma check_folder_count (remaining retry_count : nat) (folder : string)
    (w : W) :
  List.length
    (filter P (trace_of (check_folder DRY_RUN remaining retry_count folder w)))
  <= remaining.
Proof.
  revert retry_count w; induction remaining as [|n IH]; intros rc w.
  - cbn. lia.
  - cbn [check_folder]. unfold try_except.
    destruct (excluded_exact folder); cbn [negb]; [cbn; lia|].
    unfold bind at 1. rewrite should_delete_eq.
    destruct (files_list_folder folder false None w) as [w1 [resp|e]];
      cbn [fst snd].
    + destruct (all_files_are_targets resp).
      * destruct DRY_RUN.
        -- cbn. rewrite P_log.
           destruct (P (ListFolder folder false (Ok resp))); cbn; lia.
        -- unfold bind, call_delete_v2, remote, log, emit.
           destruct (files_delete_v2 folder w1) as [w2 [[]|e]].
           ++ cbn. rewrite P_log.
              pose proof (P_once folder (Ok resp) (Ok tt)) as Ho.
              destruct (P (ListFolder folder false (Ok resp))),
                (P (DeleteV2 folder (Ok tt))); cbn in *;
                try discriminate; lia.
           ++ cbn [app]. pose proof (P_once folder (Ok resp) (Err e)) as Ho.
              destruct (is_timeout_or_api e).
              ** specialize (IH (S rc) w2). unfold sleep, emit, ret.
                 destruct (S rc =? MAX_RETRIES); cbn [app fst snd];
                   destruct (check_folder _ n (S rc) folder w2)
                     as [[w3 t3] r3];
                   unfold trace_of in *; cbn [fst snd app filter] in *;
                   rewrite ?P_log, ?P_sleep;
                   destruct (P (ListFolder folder false (Ok resp))),
                     (P (DeleteV2 folder (Err e))); cbn in *;
                     try discriminate; lia.
              ** unfold trace_of. cbn [fst snd filter].
                 destruct (P (ListFolder folder false (Ok resp))),
                   (P (DeleteV2 folder (Err e))); cbn in *;
                   try discriminate; lia.
      * cbn. destruct (P (ListFolder folder false (Ok resp))); cbn; lia.
    + cbn. rewrite P_log.
      destruct (P (ListFolder folder false (Err e))); cbn; lia.
Qed.

Lemma check_folders_count (g : string) (folders : list string) (w : W) :
  (forall ev, P ev = true -> touched ev = Some g) ->
  NoDup folders ->
  List.length (filter P (trace_of (check_folders DRY_RUN folders w)))
  <= MAX_RETRIES
  /\ (~ In g folders ->
      filter P (trace_of (check_folders DRY_RUN folders w)) = []).
Proof.
  intros HP Hnd. revert w.
  assert (Hnone : forall folders w, ~ In g folders ->
            filter P (trace_of (check_folders DRY_RUN folders w)) = []).
  { intros fs w Hnin.
    pose proof (check_folders_touched fs w) as Hall.
    induction Hall as [|ev t Hev Ht IH]; [reflexivity|].
    cbn [filter]. destruct (P ev) eqn:Ep; [|exact IH].
    destruct (Hev g (HP ev Ep)) as [Hin _]. contradiction. }
  intros w. split; [|apply Hnone].
  revert w. induction Hnd as [|f fs Hf Hnd IH]; intros w; [cbn; lia|].
  destruct (check_folders_split f fs w) as [t2 [-> Ht2]].
  rewrite filter_app, length_app.
  destruct (String.eqb_spec f g) as [->|Hne].
  - pose proof (check_folder_count MAX_RETRIES 0 g w).
    destruct Ht2 as [->|[w1 ->]]; [cbn [filter List.length]; lia|].
    rewrite (Hnone fs w1 Hf). cbn [List.length]. lia.
  - assert (E : filter P (trace_of (check_folder DRY_RUN MAX_RETRIES 0 f w))
                = []).
    { pose proof (check_folder_touched MAX_RETRIES 0 f w) as Hall.
      induction Hall as [|ev t Hev Ht IHt]; [reflexivity|].
      cbn [filter]. destruct (P ev) eqn:Ep; [|exact IHt].
      destruct (Hev g (HP ev Ep)) as [Hin _]. congruence. }
    rewrite E. destruct Ht2 as [->|[w1 ->]];
      [cbn [filter List.length]; unfold MAX_RETRIES; lia|].
    cbn [List.length Nat.add]. apply IH.
Qed.

End Counting.

(** *** What leaves the folder loop *)

Lemma check_folder_outcome (remaining retry_count : nat) (folder : string)
    (w : W) :
  match outcome_of (check_folder DRY_RUN remaining retry_count folder w) with
  | Ret _ => True
  | Raise e => is_timeout_or_api e = false /\ DRY_RUN = false
  | OutOfFuel => False
  end.
Proof.
  revert retry_count w; induction remaining as [|n IH]; intros rc w.
  - exact I.
  - cbn [check_folder]. unfold try_except.
    destruct (excluded_exact folder); cbn [negb]; [exact I|].
    unfold bind at 1. rewrite should_delete_eq.
    destruct (files_list_folder folder false None w) as [w1 [resp|e]];
      cbn [fst snd]; [|exact I].
    destruct (all_files_are_targets resp); [|exact I].
    destruct DRY_RUN; [exact I|].
    unfold bind, call_delete_v2, remote, log, emit.
    destruct (files_delete_v2 folder w1) as [w2 [[]|e]]; [exact I|].
    destruct (is_timeout_or_api e) eqn:Ee; [|now split].
    specialize (IH (S rc) w2). unfold sleep, emit, ret.
    destruct (S rc =? MAX_RETRIES); cbn [app fst snd];
      destruct (check_folder _ n (S rc) folder w2) as [[w3 t3] r3];
      exact IH.
Qed.

Lemma check_folders_outcome (folders : list string) (w : W) :
  match outcome_of (check_folders DRY_RUN folders w) with
  | Ret _ => True
  | Raise e => is_timeout_or_api e = false /\ DRY_RUN = false
  | OutOfFuel => False
  end.
Proof.
  revert w; induction folders as [|f fs IH]; intros w; [exact I|].
  cbn [check_folders]. unfold bind.
  pose proof (check_folder_outcome MAX_RETRIES 0 f w) as Hf.
  destruct (check_folder DRY_RUN MAX_RETRIES 0 f w) as [[w1 t1] r1].
  unfold outcome_of in *. cbn [snd] in *.
  destruct r1 as [[]|e|]; [|exact Hf|exact Hf].
  specialize (IH w1).
  destruct (check_folders DRY_RUN fs w1) as [[w2 t2] r2]. exact IH.
Qed.

(** X11.  In a run of [clean_empty_folders] no folder is listed more
    than [MAX_RETRIES] times and none is the subject of more than
    [MAX_RETRIES] delete calls.  The function lets no [ReadTimeout]
    and no [ApiError] out, and raises nothing at all in a dry run; it
    fails to end exactly when a target path starts with more slashes
    than [TARGET_FOLDER] has characters. *)
Theorem clean_empty_folders_bounded
    (target_files : list string) (w : W) (g : string) :
  let run := clean_empty_folders DRY_RUN target_files w in
  List.length (filter (is_listing_of g) (trace_of run)) <= MAX_RETRIES
  /\ List.length (filter (is_delete_of g) (trace_of run)) <= MAX_RETRIES
  /\ match outcome_of run with
     | Ret _ =>
         Forall (fun p => leading_slashes p <= String.length TARGET_FOLDER)
                target_files
     | Raise e =>
         is_timeout_or_api e = false /\ DRY_RUN = false
         /\ Forall (fun p => leading_slashes p <= String.length TARGET_FOLDER)
                   target_files
     | OutOfFuel =>
         Exists (fun p => String.length TARGET_FOLDER < leading_slashes p)
                target_files
     end.
Proof.
  cbn zeta. unfold clean_empty_folders.
  destruct (build_folder_list target_files []) as [folders|] eqn:Eb.
  - set (visited := sorted_deepest_first (iteration (set_order w) folders)).
    assert (Hnd : NoDup visited).
    { apply sorted_deepest_first_NoDup.
      eapply Permutation_NoDup;
        [symmetry; apply iteration_Permutation|].
      eapply build_folder_list_NoDup; [constructor | exact Eb]. }
    split; [|split].
    + destruct (check_folders_count (is_listing_of g)
                  (fun _ _ => eq_refl) (fun _ => eq_refl)
                  (fun _ _ _ => andb_false_r _)
                  g visited w) as [Hl _];
        [|exact Hnd|exact Hl].
      intros [] Hev; try discriminate. cbn in *.
      apply String.eqb_eq in Hev. now subst.
    + destruct (check_folders_count (is_delete_of g)
                  (fun _ _ => eq_refl) (fun _ => eq_refl)
                  (fun _ _ _ => eq_refl)
                  g visited w) as [Hl _];
        [|exact Hnd|exact Hl].
      intros [] Hev; try discriminate. cbn in *.
      apply String.eqb_eq in Hev. now subst.
    + pose proof (check_folders_outcome visited w) as Ho.
      assert (Hfor : Forall
                (fun p => leading_slashes p <= String.length TARGET_FOLDER)
                target_files).
      { assert (Hnex : ~ Exists
                  (fun p => String.length TARGET_FOLDER < leading_slashes p)
                  target_files).
        { intros Hex. apply (build_folder_list_stuck _ []) in Hex.
          congruence. }
        apply Forall_Exists_neg in Hnex.
        eapply Forall_impl; [|exact Hnex]. cbn. intros; lia. }
      destruct (outcome_of _) as [[]|e|]; [exact Hfor | | destruct Ho].
      destruct Ho as [Ho1 Ho2]. repeat split; assumption.
  - unfold diverge, trace_of, outcome_of. cbn [fst snd filter List.length].
    split; [unfold MAX_RETRIES; lia|]. split; [unfold MAX_RETRIES; lia|].
    destruct (Exists_dec
                (fun p => String.length TARGET_FOLDER < leading_slashes p)
                target_files (fun p => lt_dec _ _)) as [Hex|Hnex];
      [exact Hex|].
    apply Forall_Exists_neg in Hnex.
    destruct (build_folder_list_ends target_files []) as [s' Hs'];
      [|congruence].
    eapply Forall_impl; [|exact Hnex]. cbn. intros; lia.
Qed.

End ReclaimScope.

Lemma clean_empty_folders_touches_candidates_witness :
  excluded_exact Runs.sub = false
  /\ String.length TARGET_FOLDER < String.length Runs.sub
  /\ exists p, In p [Runs.sub_memo] /\ ancestor_of Runs.sub p.
Proof.
  apply (clean_empty_folders_touches_candidates false [Runs.sub_memo]
           (Runs.script [Ok Runs.memos_and_folder] [] [])
           (DeleteV2 Runs.sub (Ok tt)) Runs.sub).
  - vm_compute. right. left. reflexivity.
  - reflexivity.
Defined.

(** ** The entries of a page *)

Lemma progress_lines_step (n len : nat) :
  progress_lines n (S len)
  = (if S n mod 500 =? 0 then [Log INFO (ScannedEntries (S n))] else [])
    ++ progress_lines (S n) len.
Proof.
  unfold progress_lines. cbn [seq filter].
  destruct (S n mod 500 =? 0); reflexivity.
Qed.

Lemma process_entries_from (es : list Metadata) (st : scan_locals)
    (tr : list event) :
  fold_left process_entry es (st, tr)
  = ({| s_results :=
          {| target_files := target_files (s_results st) ++ matching_paths es;
             other_files := other_files (s_results st);
             failed_folders := failed_folders (s_results st) |};
        s_cursor := s_cursor st;
        s_processed_entries := s_processed_entries st + List.length es;
        s_retry_count := s_retry_count st |},
     tr ++ progress_lines (s_processed_entries st) (List.length es)).
Proof.
  revert st tr; induction es as [|entry es IH]; intros [[tf o ff] c n rc] tr.
  - cbn [fold_left s_results s_cursor s_processed_entries s_retry_count
           target_files other_files failed_folders matching_paths flat_map
           List.length].
    now rewrite Nat.add_0_r, !app_nil_r.
  - cbn [fold_left List.length]. rewrite progress_lines_step.
    cbn [s_results s_cursor s_processed_entries s_retry_count
           target_files other_files failed_folders].
    assert (Hstep : process_entry
                      ({| s_results := {| target_files := tf;
                                          other_files := o;
                                          failed_folders := ff |};
                          s_cursor := c; s_processed_entries := n;
                          s_retry_count := rc |}, tr) entry
                    = ({| s_results :=
                            {| target_files := tf ++ matching_paths [entry];
                               other_files := o; failed_folders := ff |};
                          s_cursor := c; s_processed_entries := S n;
                          s_retry_count := rc |},
                       tr ++ (if S n mod 500 =? 0
                              then [Log INFO (ScannedEntries (S n))]
                              else []))).
    { unfold process_entry, append_target, matching_paths.
      cbn [s_results s_cursor s_processed_entries s_retry_count
             target_files other_files failed_folders flat_map].
      destruct (S n mod 500 =? 0); rewrite ?app_nil_r;
        destruct entry as [name p|name p|name p];
        try destruct (is_target_file name);
        try destruct (excluded_lower p);
        cbn [app]; rewrite ?app_nil_r; reflexivity. }
    rewrite Hstep, IH.
    cbn [s_results s_cursor s_processed_entries s_retry_count
           target_files other_files failed_folders].
    replace (matching_paths (entry :: es))
      with (matching_paths [entry] ++ matching_paths es)
      by (unfold matching_paths; cbn [flat_map]; now rewrite app_nil_r).
    rewrite <- !app_assoc, Nat.add_succ_r. reflexivity.
Qed.

(** X12.  Processing the entries of a page appends to
    [results['target_files']] the [path_lower] of the file entries
    whose name is a target, in page order, whether or not they lie in
    an excluded folder; it leaves [other_files], [failed_folders], the
    cursor and the retry count alone, adds the number of entries to
    [processed_entries], and logs one progress line for each multiple
    of 500 that the count passes. *)
Theorem process_entries_closed_form (es : list Metadata) (st : scan_locals) :
  process_entries es st
  = ({| s_results :=
          {| target_files := target_files (s_results st) ++ matching_paths es;
             other_files := other_files (s_results st);
             failed_folders := failed_folders (s_results st) |};
        s_cursor := s_cursor st;
        s_processed_entries := s_processed_entries st + List.length es;
        s_retry_count := s_retry_count st |},
     progress_lines (s_processed_entries st) (List.length es)).
Proof. unfold process_entries. now rewrite process_entries_from. Qed.

(** ** What a scan returns *)

Section ScanResult.
Context {W : Type} `{Remote W}.

Lemma listed_entries_app (t1 t2 : list event) :
  listed_entries (t1 ++ t2) = listed_entries t1 ++ listed_entries t2.
Proof. apply flat_map_app. Qed.

Lemma matching_paths_app (es1 es2 : list Metadata) :
  matching_paths (es1 ++ es2) = matching_paths es1 ++ matching_paths es2.
Proof. apply flat_map_app. Qed.

Lemma listed_entries_progress (n len : nat) :
  listed_entries (progress_lines n len) = [].
Proof.
  unfold progress_lines. generalize (filter (fun k => k mod 500 =? 0)
                                       (seq (S n) len)) as l.
  induction l as [|k l IH]; [reflexivity | exact IH].
Qed.

Lemma listed_entries_sleep (secs : Q) (t : list event) :
  listed_entries (Sleep secs :: t) = listed_entries t.
Proof. reflexivity. Qed.

Lemma listed_entries_log (lvl : level) (msg : log_msg) (t : list event) :
  listed_entries (Log lvl msg :: t) = listed_entries t.
Proof. reflexivity. Qed.

(** A call that shows the page it returns, and nothing when it
    raises, still does so behind [robust_api_call]. *)
Lemma robust_api_call_loop_listed (func : M W ListFolderResult)
    (attempts : list nat) (last_error : option exn) (ct : Q) :
  (forall w, listed_entries (trace_of (func w))
             = match outcome_of (func w) with
               | Ret r => entries r
               | _ => []
               end) ->
  forall w,
    listed_entries
      (trace_of (robust_api_call_loop func attempts last_error ct w))
    = match outcome_of (robust_api_call_loop func attempts last_error ct w)
      with
      | Ret r => entries r
      | _ => []
      end.
Proof.
  intros Hf. revert last_error ct.
  induction attempts as [|a rest IH]; intros last_error ct w.
  - cbn [robust_api_call_loop]. destruct last_error; reflexivity.
  - cbn [robust_api_call_loop]. specialize (Hf w).
    unfold trace_of, outcome_of in *.
    destruct (func w) as [[w1 t1] [x|e|]]; cbn [fst snd] in *;
      try exact Hf.
    destruct (is_timeout_or_connection e); [|exact Hf].
    destruct (a <? MAX_RETRIES).
    + unfold bind, log, sleep, emit.
      specialize (IH (Some e) (ct * BACKOFF_FACTOR)%Q w1).
      destruct (robust_api_call_loop func rest _ _ w1) as [[w2 t2] r2].
      cbn [fst snd app] in *. rewrite listed_entries_app, Hf. exact IH.
    + specialize (IH (Some e) ct w1).
      destruct (robust_api_call_loop func rest _ _ w1) as [[w2 t2] r2].
      cbn [fst snd app] in *. rewrite listed_entries_app, Hf. exact IH.
Qed.

Lemma fetch_page_listed (c : option string) (w : W) :
  listed_entries (trace_of (fetch_page c w))
  = match outcome_of (fetch_page c w) with
    | Ret r => entries r
    | _ => []
    end.
Proof.
  destruct c as [c|]; cbn [fetch_page]; unfold robust_api_call;
    apply robust_api_call_loop_listed; intros w0;
    unfold call_list_folder, call_list_folder_continue, remote,
      trace_of, outcome_of.
  - destruct (files_list_folder_continue c w0) as [w1 [r|e]];
      cbn; now rewrite ?app_nil_r.
  - destruct (files_list_folder TARGET_FOLDER true (Some 2000) w0)
      as [w1 [r|e]]; cbn; now rewrite ?app_nil_r.
Qed.

(** The loop leaves with the targets of the pages it received added
    to those it started with, and never by an exception of its own. *)
Lemma scan_pages_result (fuel : nat) (st : scan_locals) (w : W) :
  match outcome_of (scan_pages fuel st w) with
  | Ret (st', _) =>
      s_results st'
      = {| target_files :=
             target_files (s_results st)
             ++ matching_paths
                  (listed_entries (trace_of (scan_pages fuel st w)));
           other_files := other_files (s_results st);
           failed_folders := failed_folders (s_results st) |}
      /\ s_processed_entries st'
         = s_processed_entries st
           + List.length (listed_entries (trace_of (scan_pages fuel st w)))
  | Raise _ => False
  | OutOfFuel => True
  end.
Proof.
  revert st w; induction fuel as [|fuel IH]; intros st w; [exact I|].
  cbn [scan_pages]. pose proof (fetch_page_listed (s_cursor st) w) as Hf.
  unfold trace_of, outcome_of in *.
  destruct (fetch_page (s_cursor st) w) as [[w1 t1] [resp|e|]];
    cbn [fst snd] in *; [| |exact I].
  - unfold process_entries. rewrite process_entries_from. cbn [app].
    destruct (has_more resp); cbn [negb fst snd].
    + unfold bind, sleep, emit.
      match goal with
      | |- context [scan_pages fuel ?s w1] =>
          pose proof (IH s w1) as Hr;
          destruct (scan_pages fuel s w1) as [[w3 t3] r3]
      end.
      cbn [fst snd app s_results s_processed_entries target_files
             other_files failed_folders] in *.
      destruct r3 as [[st' err]|e|]; [|exact Hr|exact I].
      destruct Hr as [-> ->].
      rewrite !listed_entries_app, listed_entries_progress, Hf,
        listed_entries_sleep.
      cbn [app]. rewrite matching_paths_app, length_app, <- app_assoc.
      split; [reflexivity | lia].
    + cbn [s_results s_processed_entries target_files other_files
             failed_folders].
      rewrite listed_entries_app, listed_entries_progress, Hf, app_nil_r.
      split; reflexivity.
  - destruct (is_api_or_request e && (s_retry_count st <? Scan.MAX_RETRIES)).
    + unfold bind, log, sleep, emit.
      match goal with
      | |- context [scan_pages fuel ?s w1] =>
          pose proof (IH s w1) as Hr;
          destruct (scan_pages fuel s w1) as [[w3 t3] r3]
      end.
      cbn [fst snd app s_results s_processed_entries target_files
             other_files failed_folders] in *.
      destruct r3 as [[st' err]|e'|]; [|exact Hr|exact I].
      destruct Hr as [-> ->].
      rewrite !listed_entries_app, Hf, listed_entries_log,
        listed_entries_sleep.
      cbn [app]. split; reflexivity.
    + cbn [fst snd]. rewrite Hf. cbn [matching_paths flat_map List.length].
      rewrite app_nil_r, Nat.add_0_r. destruct st as [[tf o ff] c n rc].
      split; reflexivity.
Qed.

(** X13.  What [scan_target_folder] returns: [target_files] is, in
    order, the [path_lower] of every file entry with a target name on
    the pages the listing calls returned, pages received before a
    fatal error included; [other_files] is always empty;
    [failed_folders] is empty or has one entry, and it has one only
    when some target was found.  The function raises only when no
    target was found, and the last line it logs when it returns gives
    the number of entries received. *)
Theorem scan_target_folder_result (fuel : nat) (w : W) :
  let run := scan_target_folder fuel w in
  let received := listed_entries (trace_of run) in
  match outcome_of run with
  | Ret res =>
      target_files res = matching_paths received
      /\ other_files res = []
      /\ (failed_folders res = []
          \/ matching_paths received <> []
             /\ exists c, failed_folders res = [c])
      /\ exists t, trace_of run
                   = t ++ [Log INFO (ScanCompleted (List.length received))]
  | Raise _ => matching_paths received = []
  | OutOfFuel => True
  end.
Proof.
  cbn zeta. unfold scan_target_folder, scan_from, bind.
  pose proof (scan_pages_result fuel scan_init w) as Hp.
  unfold trace_of, outcome_of in *.
  destruct (scan_pages fuel scan_init w) as [[w1 t1] [[st err]|e|]];
    cbn [fst snd] in *; [|destruct Hp|exact I].
  destruct Hp as [Hres Hn]. cbn [scan_init s_results s_processed_entries
    target_files other_files failed_folders app Nat.add] in *.
  destruct err as [e|].
  - unfold log, emit, append_failed. rewrite Hres.
    cbn [target_files other_files failed_folders app fst snd].
    destruct (matching_paths (listed_entries t1)) as [|p ps] eqn:Em;
      unfold raise, ret; cbn [fst snd];
      rewrite ?listed_entries_app; cbn [listed_entries flat_map];
      rewrite ?app_nil_r.
    + exact Em.
    + rewrite Em, Hn. split; [reflexivity|]. split; [reflexivity|].
      split; [right; split; [discriminate | eexists; reflexivity]|].
      eexists (t1 ++ [_]). rewrite <- app_assoc. reflexivity.
  - unfold log, emit, ret. cbn [fst snd].
    rewrite listed_entries_app. cbn [listed_entries flat_map].
    rewrite app_nil_r, Hres, Hn.
    cbn [target_files other_files failed_folders].
    split; [reflexivity|]. split; [reflexivity|]. split; [now left|].
    eexists. reflexivity.
Qed.

End ScanResult.

(** ** The time spent in [robust_api_call] *)

Lemma total_sleep_app (t1 t2 : list event) :
  (total_sleep (t1 ++ t2) == total_sleep t1 + total_sleep t2)%Q.
Proof.
  induction t1 as [|ev t1 IH]; cbn [app total_sleep].
  - ring.
  - destruct ev; rewrite IH; ring.
Qed.

Lemma worst_case_wait_nonneg (attempts : list nat) (ct : Q) :
  (0 <= ct)%Q -> (0 <= worst_case_wait attempts ct)%Q.
Proof.
  revert ct; induction attempts as [|a rest IH]; intros ct Hct;
    cbn [worst_case_wait]; [apply Qle_refl|].
  assert (Hb : (0 <= ct * BACKOFF_FACTOR)%Q)
    by (apply Qmult_le_0_compat; [exact Hct | discriminate]).
  destruct (a <? MAX_RETRIES); [|now apply IH].
  specialize (IH _ Hb).
  replace 0%Q with (0 + 0)%Q by reflexivity. now apply Qplus_le_compat.
Qed.

Section RetryWaits.
Context {W A : Type}.
Variable func : M W A.
Hypothesis func_awake : forall w, (total_sleep (trace_of (func w)) == 0)%Q.

Lemma robust_api_call_loop_waits (attempts : list nat)
    (last_error : option exn) (ct : Q) (w : W) :
  (0 <= ct)%Q ->
  (total_sleep (trace_of (robust_api_call_loop func attempts last_error ct w))
   <= worst_case_wait attempts ct)%Q.
Proof.
  revert last_error ct w.
  induction attempts as [|a rest IH]; intros last_error ct w Hct.
  - cbn [robust_api_call_loop worst_case_wait].
    destruct last_error; cbn; apply Qle_refl.
  - cbn [robust_api_call_loop].
    pose proof (worst_case_wait_nonneg (a :: rest) ct Hct) as Hnn.
    cbn [worst_case_wait] in *. pose proof (func_awake w) as Hf.
    unfold trace_of in *.
    destruct (func w) as [[w1 t1] [x|e|]]; cbn [fst snd] in *;
      try (rewrite Hf; exact Hnn).
    destruct (is_timeout_or_connection e); [|rewrite Hf; exact Hnn].
    assert (Hb : (0 <= ct * BACKOFF_FACTOR)%Q)
      by (apply Qmult_le_0_compat; [exact Hct | discriminate]).
    destruct (a <? MAX_RETRIES).
    + unfold bind, log, sleep, emit.
      specialize (IH (Some e) (ct * BACKOFF_FACTOR)%Q w1 Hb).
      destruct (robust_api_call_loop func rest _ _ w1) as [[w2 t2] r2].
      cbn [fst snd app] in *. rewrite total_sleep_app, Hf.
      cbn [total_sleep]. rewrite Qplus_0_l. now apply Qplus_le_compat; [apply Qle_refl|].
    + specialize (IH (Some e) ct w1 Hct).
      destruct (robust_api_call_loop func rest _ _ w1) as [[w2 t2] r2].
      cbn [fst snd] in *. rewrite total_sleep_app, Hf, Qplus_0_l. exact IH.
Qed.

(** X14.  Around an operation that does not sleep itself,
    [robust_api_call] never waits more than 1186.875 seconds in all
    (the sum of its five back-off waits); and when the first
    invocation returns, or raises something other than a
    [ReadTimeout] or [ConnectionError], the wrapper adds nothing: no
    wait, no log line, no second invocation. *)
Theorem robust_api_call_waits (w : W) :
  (total_sleep (trace_of (robust_api_call func w)) <= 9495 # 8)%Q
  /\ (match outcome_of (func w) with
      | Raise e => is_timeout_or_connection e = false
      | _ => True
      end -> robust_api_call func w = func w).
Proof.
  split.
  - eapply Qle_trans;
      [apply robust_api_call_loop_waits; discriminate|].
    vm_compute. discriminate.
  - unfold robust_api_call. cbn [seq Nat.add MAX_RETRIES robust_api_call_loop].
    unfold outcome_of. destruct (func w) as [[w1 t1] [x|e|]]; cbn [snd];
      try reflexivity.
    now intros ->.
Qed.

End RetryWaits.

Lemma call_list_folder_awake {W : Type} `{Remote W} (path : string)
    (recursive : bool) (limit : option nat) (w : W) :
  (total_sleep (trace_of (call_list_folder path recursive limit w)) == 0)%Q.
Proof.
  unfold call_list_folder, remote, trace_of.
  destruct (files_list_folder path recursive limit w) as [w1 r]. reflexivity.
Qed.

Lemma robust_api_call_waits_witness :
  let func := call_list_folder "x" false None in
  let w := Runs.script [Ok Runs.memos_and_folder] [] [] in
  (total_sleep (trace_of (robust_api_call func w)) <= 9495 # 8)%Q
  /\ robust_api_call func w = func w.
Proof.
  destruct (robust_api_call_waits (call_list_folder "x" false None)
              (call_list_folder_awake "x" false None)
              (Runs.script [Ok Runs.memos_and_folder] [] [])) as [H1 H2].
  split; [exact H1 | apply H2; exact I].
Defined.

(** ** The events of each stage *)

Lemma bind_assoc {W A B C} (m : M W A) (f : A -> M W B) (g : B -> M W C)
    (w : W) :
  bind (bind m f) g w = bind m (fun a => bind (f a) g) w.
Proof.
  unfold bind. destruct (m w) as [[w1 t1] [a|e|]]; try reflexivity.
  destruct (f a w1) as [[w2 t2] [b|e|]]; try reflexivity.
  destruct (g b w2) as [[w3 t3] r3]. now rewrite app_assoc.
Qed.

Lemma bind_ret_l {W A B} (a : A) (f : A -> M W B) (w : W) :
  bind (ret a) f w = f a w.
Proof. unfold bind, ret. now destruct (f a w) as [[w2 t2] r2]. Qed.

Section StageEvents.
Context {W : Type} `{Remote W}.
Variable P : event -> Prop.
Hypothesis P_sleep : forall secs, P (Sleep secs).
Hypothesis P_info : forall msg, P (Log INFO msg).
Hypothesis P_warning : forall msg, P (Log WARNING msg).
Hypothesis P_error : forall msg, P (Log ERROR msg).

Lemma progress_lines_in (n len : nat) : Forall P (progress_lines n len).
Proof.
  unfold progress_lines. generalize (filter (fun k => k mod 500 =? 0)
                                       (seq (S n) len)) as l.
  induction l as [|k l IH]; constructor; auto.
Qed.

Section ScanEvents.
Hypothesis P_list : forall path r, P (ListFolder path true r).
Hypothesis P_continue : forall c r, P (ListFolderContinue c r).

Lemma fetch_page_in (c : option string) : traces_in P (fetch_page c).
Proof.
  destruct c as [c|]; cbn [fetch_page];
    apply traces_in_robust_api_call; auto;
    apply traces_in_remote; auto.
Qed.

Lemma scan_pages_in (fuel : nat) (st : scan_locals) :
  traces_in P (scan_pages fuel st).
Proof.
  revert st; induction fuel as [|fuel IH]; intros st w.
  - constructor.
  - cbn [scan_pages]. pose proof (fetch_page_in (s_cursor st) w) as Hf.
    unfold trace_of in *.
    destruct (fetch_page (s_cursor st) w) as [[w1 t1] [resp|e|]];
      cbn [fst snd] in *; try exact Hf.
    + unfold process_entries. rewrite process_entries_from. cbn [app].
      pose proof (progress_lines_in (s_processed_entries st)
                    (List.length (entries resp))) as Hp.
      destruct (has_more resp); cbn [negb fst snd].
      * unfold bind, sleep, emit.
        match goal with
        | |- context [scan_pages fuel ?s w1] =>
            pose proof (IH s w1) as Hr;
            destruct (scan_pages fuel s w1) as [[w3 t3] r3]
        end.
        cbn [fst snd app] in *. rewrite !Forall_app. repeat split; auto.
      * apply Forall_app. auto.
    + destruct (is_api_or_request e && (s_retry_count st <? Scan.MAX_RETRIES));
        [|exact Hf].
      unfold bind, log, sleep, emit.
      match goal with
      | |- context [scan_pages fuel ?s w1] =>
          pose proof (IH s w1) as Hr;
          destruct (scan_pages fuel s w1) as [[w3 t3] r3]
      end.
      cbn [fst snd app] in *. rewrite !Forall_app. repeat split; auto.
Qed.

Lemma scan_from_in (fuel : nat) (st : scan_locals) :
  traces_in P (scan_from fuel st).
Proof.
  unfold scan_from. apply traces_in_bind; [apply scan_pages_in|].
  intros [st1 [e|]].
  - apply traces_in_bind; [now apply traces_in_emit|]. intros _.
    destruct (target_files _); [apply traces_in_raise|].
    apply traces_in_bind; [now apply traces_in_emit|]. intros _.
    apply traces_in_ret.
  - apply traces_in_bind; [now apply traces_in_emit|]. intros _.
    apply traces_in_ret.
Qed.

End ScanEvents.

Section DeleteEvents.
Variable DRY_RUN : bool.
Hypothesis P_delete_batch : forall paths r, P (DeleteBatch paths r).

Lemma delete_batch_in (batch : list string) :
  traces_in P (delete_batch DRY_RUN batch).
Proof.
  unfold delete_batch.
  apply traces_in_bind; [now apply traces_in_emit|]. intros _.
  apply traces_in_try_except.
  - apply traces_in_bind.
    + destruct DRY_RUN; cbn [negb];
        [apply traces_in_ret | now apply traces_in_remote].
    + intros _. apply traces_in_bind; [now apply traces_in_emit|].
      intros _. apply traces_in_ret.
  - intros e. apply traces_in_bind; [now apply traces_in_emit|].
    intros _. apply traces_in_ret.
Qed.

Lemma attempt_events_in (l : list (list string * reply unit)) :
  Forall P (flat_map attempt_events l)
  /\ Forall P (flat_map retry_events l).
Proof.
  induction l as [|[b r] l [IH1 IH2]]; [now split|].
  assert (Ha : Forall P (attempt_events (b, r))).
  { cbn [attempt_events]. apply Forall_app. split; [now repeat constructor|].
    destruct r as [u|e]; [|destruct (is_api_error e)];
      now repeat constructor. }
  cbn [flat_map]. split; apply Forall_app; split; auto.
  unfold retry_events. now constructor.
Qed.

Lemma turbo_delete_files_in (file_paths : list string) :
  traces_in P (turbo_delete_files DRY_RUN file_paths).
Proof.
  intros w. destruct DRY_RUN.
  - destruct (turbo_delete_files_dry file_paths w) as (_ & Hp & _).
    eapply Permutation_Forall; [symmetry; exact Hp|]. clear Hp.
    induction (batches_of file_paths) as [|b bs IH]; [constructor|].
    cbn [flat_map]. apply Forall_app. split; [|exact IH].
    now repeat constructor.
  - destruct (turbo_delete_files_live (fun _ => True) (fun _ _ => True)
                ltac:(now split) file_paths w I)
      as (stages & rs2 & pool_trace & _ & _ & _ & Ht & Hp & _).
    cbn zeta in *. rewrite Ht. apply Forall_app. split.
    + eapply Permutation_Forall; [symmetry; exact Hp|].
      apply attempt_events_in.
    + apply attempt_events_in.
Qed.

End DeleteEvents.

Section ReclaimEvents.
Variable DRY_RUN : bool.
Hypothesis P_list_one : forall path r, P (ListFolder path false r).
Hypothesis P_delete_v2 : forall path r, P (DeleteV2 path r).

Lemma check_folder_in (remaining retry_count : nat) (folder : string) :
  traces_in P (check_folder DRY_RUN remaining retry_count folder).
Proof.
  revert retry_count; induction remaining as [|n IH]; intros rc;
    cbn [check_folder]; [apply traces_in_ret|].
  apply traces_in_try_except.
  - destruct (excluded_exact folder); cbn [negb]; [apply traces_in_ret|].
    apply traces_in_bind.
    + unfold should_delete. apply traces_in_try_except.
      * apply traces_in_bind; [now apply traces_in_remote|].
        intros r. apply traces_in_ret.
      * intros e. apply traces_in_bind; [now apply traces_in_emit|].
        intros _. apply traces_in_ret.
    + intros [|]; [|apply traces_in_ret].
      destruct DRY_RUN; [now apply traces_in_emit|].
      apply traces_in_bind; [now apply traces_in_remote|].
      intros _. now apply traces_in_emit.
  - intros e. apply traces_in_bind; [now apply traces_in_emit|]. intros _.
    apply traces_in_bind; [now apply traces_in_emit|]. intros _.
    apply traces_in_bind; [|intros _; apply IH].
    destruct (S rc =? MAX_RETRIES);
      [now apply traces_in_emit | apply traces_in_ret].
Qed.

Lemma check_folders_in (folders : list string) :
  traces_in P (check_folders DRY_RUN folders).
Proof.
  induction folders as [|f fs IH];
    cbn [check_folders]; [apply traces_in_ret|].
  apply traces_in_bind; [apply check_folder_in | intros _; exact IH].
Qed.

Lemma clean_empty_folders_in (target_files : list string) :
  traces_in P (clean_empty_folders DRY_RUN target_files).
Proof.
  unfold clean_empty_folders.
  destruct (build_folder_list target_files []) as [folders|];
    [|apply traces_in_diverge].
  intros w. apply check_folders_in.
Qed.

End ReclaimEvents.

(** An attempt of [main] neither opens nor closes a client. *)
Lemma main_try_in (DRY_RUN : bool) (fuel : nat) :
  (forall path recursive r, P (ListFolder path recursive r)) ->
  (forall c r, P (ListFolderContinue c r)) ->
  (forall paths r, P (DeleteBatch paths r)) ->
  (forall path r, P (DeleteV2 path r)) ->
  (forall prompt r, P (Input prompt r)) ->
  traces_in P (main_try DRY_RUN fuel).
Proof.
  intros Hl Hc Hb Hd Hi. unfold main_try.
  apply traces_in_bind; [now apply scan_from_in|].
  intros scan_results. destruct (target_files scan_results) as [|p ps];
    [apply traces_in_ret|].
  apply traces_in_bind.
  { destruct DRY_RUN; cbn [negb]; [apply traces_in_ret|].
    apply traces_in_bind; [now apply traces_in_remote|].
    intros a. apply traces_in_ret. }
  intros [|]; cbn [negb]; [|apply traces_in_ret].
  apply traces_in_bind; [now apply turbo_delete_files_in|]. intros _.
  apply traces_in_bind.
  { destruct DRY_RUN; cbn [negb]; [apply traces_in_ret|].
    apply traces_in_bind; [now apply traces_in_remote|].
    intros a. apply traces_in_ret. }
  intros [|]; [|apply traces_in_bind; [apply traces_in_ret|];
                intros _; apply traces_in_ret].
  apply traces_in_bind; [now apply clean_empty_folders_in|].
  intros _. apply traces_in_ret.
Qed.

End StageEvents.

(** ** Nothing is deleted before the console says so *)

Section Confirmation.
Context {W : Type} `{Remote W}.
Variable prompt : string.
Variable P : event -> bool.

Lemma confirmed_mono (b1 b2 : bool) (t : list event) :
  (b1 = true -> b2 = true) ->
  confirmed prompt P b1 t -> confirmed prompt P b2 t.
Proof.
  revert b1 b2; induction t as [|ev t IH]; intros b1 b2 Hb;
    cbn [confirmed]; [auto|].
  intros [H1 H2]. split; [auto|].
  apply (IH (confirmation prompt b1 ev)); [|exact H2].
  unfold confirmation. destruct ev; auto;
    intros E; apply orb_true_iff in E as [E|E]; apply orb_true_iff; auto.
Qed.

Lemma confirmed_app (b : bool) (t1 t2 : list event) :
  confirmed prompt P b t1 -> confirmed prompt P false t2 ->
  confirmed prompt P b (t1 ++ t2).
Proof.
  revert b; induction t1 as [|ev t1 IH]; intros b; cbn [app confirmed].
  - intros _. apply confirmed_mono. discriminate.
  - intros [H1 H2] Ht2. split; auto.
Qed.

Lemma confirmed_quiet (b : bool) (t : list event) :
  Forall (fun ev => P ev = false) t -> confirmed prompt P b t.
Proof.
  intros Hall. revert b. induction Hall as [|ev t Hev Ht IH]; intros b;
    cbn [confirmed]; [exact I|].
  split; [congruence | apply IH].
Qed.

Lemma confirmed_seen (t : list event) :
  Forall (fun ev => is_create ev = false) t -> confirmed prompt P true t.
Proof.
  induction 1 as [|ev t Hev Ht IH]; cbn [confirmed]; [exact I|].
  split; [reflexivity|]. destruct ev; try exact IH. discriminate.
Qed.

Lemma asks_ext {A} (m m' : M W A) :
  (forall w, m w = m' w) -> asks prompt P m' -> asks prompt P m.
Proof. intros E Hm w. rewrite E. apply Hm. Qed.

Lemma asks_quiet {A} (m : M W A) :
  traces_in (fun ev => P ev = false) m -> asks prompt P m.
Proof. intros Hm w. apply confirmed_quiet, Hm. Qed.

Lemma asks_bind {A B} (m : M W A) (f : A -> M W B) :
  asks prompt P m -> (forall a, asks prompt P (f a)) -> asks prompt P (bind m f).
Proof.
  intros Hm Hf w. unfold bind, trace_of. specialize (Hm w).
  unfold trace_of in Hm.
  destruct (m w) as [[w1 t1] [a|e|]]; cbn [fst snd] in *; try exact Hm.
  specialize (Hf a w1). unfold trace_of in Hf.
  destruct (f a w1) as [[w2 t2] r2]. cbn [fst snd] in *.
  now apply confirmed_app.
Qed.

Lemma asks_try_finally {A} (m : M W A) (f : M W unit) :
  asks prompt P m -> asks prompt P f -> asks prompt P (try_finally m f).
Proof.
  intros Hm Hf w. unfold try_finally, trace_of. specialize (Hm w).
  unfold trace_of in Hm.
  destruct (m w) as [[w1 t1] r]. cbn [fst snd] in *.
  specialize (Hf w1). unfold trace_of in Hf.
  destruct r as [a|e|]; [| |exact Hm];
    destruct (f w1) as [[w2 t2] r2]; cbn [fst snd] in *;
    now apply confirmed_app.
Qed.

(** The prompt itself: after a [y] anything goes until the next
    client, after another answer the rest must ask again. *)
Lemma asks_input {B} (k : string -> M W B) :
  (forall p r, P (Input p r) = false) ->
  (forall a, String.eqb (Str.lower a) "y" = true ->
             traces_in (fun ev => is_create ev = false) (k a)) ->
  (forall a, String.eqb (Str.lower a) "y" = false -> asks prompt P (k a)) ->
  asks prompt P (bind (call_input prompt) k).
Proof.
  intros HP Hyes Hno w. unfold bind, call_input, remote, trace_of.
  destruct (input prompt w) as [w1 [a|e]]; cbn [fst snd].
  - destruct (k a w1) as [[w2 t2] r2] eqn:Ek. cbn [fst snd app confirmed].
    split; [rewrite HP; discriminate|].
    cbn [confirmation answered_yes orb]. rewrite String.eqb_refl.
    cbn [andb]. destruct (String.eqb (Str.lower a) "y") eqn:Ea.
    + apply confirmed_seen. pose proof (Hyes a Ea w1) as Hy.
      unfold trace_of in Hy. now rewrite Ek in Hy.
    + pose proof (Hno a Ea w1) as Hn. unfold trace_of in Hn.
      now rewrite Ek in Hn.
  - cbn [confirmed]. split; [rewrite HP; discriminate | exact I].
Qed.

Hypothesis P_sleep : forall secs, P (Sleep secs) = false.
Hypothesis P_log : forall lvl msg, P (Log lvl msg) = false.
Hypothesis P_create : forall r, P (CreateClient r) = false.
Hypothesis P_close : P CloseClient = false.

Lemma main_loop_asks (DRY_RUN : bool) (fuel : nat) :
  asks prompt P (main_try DRY_RUN fuel) ->
  forall remaining retry_main,
    asks prompt P (main_loop DRY_RUN remaining retry_main fuel).
Proof.
  intros Htry remaining.
  assert (Hfin : asks prompt P (main_finally (W := W))).
  { apply asks_quiet. unfold main_finally.
    apply traces_in_bind; [now apply traces_in_emit|].
    intros _. apply traces_in_emit, P_log. }
  induction remaining as [|n IH]; intros retry_main w; [exact I|].
  cbn [main_loop]. pose proof (Htry w) as Ht. unfold trace_of in *.
  destruct (main_try DRY_RUN fuel w) as [[w1 t1] [x|e|]];
    cbn [fst snd] in *; try exact Ht.
  - pose proof (Hfin w1) as Hf. unfold trace_of in Hf.
    destruct (main_finally w1) as [[w2 t2] r2]. cbn [fst snd] in *.
    now apply confirmed_app.
  - destruct (is_read_timeout e).
    + match goal with
      | |- context [bind (try_finally ?m ?f) ?k w1] =>
          assert (Hm : asks prompt P (bind (try_finally m f) k))
      end.
      { apply asks_bind; [|intros _; apply IH].
        apply asks_try_finally; [|exact Hfin].
        apply asks_bind;
          [apply asks_quiet; now apply traces_in_remote|]. intros _.
        apply asks_quiet. apply traces_in_emit, P_sleep. }
      specialize (Hm w1). unfold trace_of in Hm.
      destruct (bind (try_finally _ _) _ w1) as [[w2 t2] r2].
      cbn [fst snd] in *. now apply confirmed_app.
    + match goal with
      | |- context [bind (log CRITICAL ?m) ?k w1] =>
          assert (Hm : asks prompt P (bind (log CRITICAL m) k))
      end.
      { apply asks_bind;
          [apply asks_quiet; apply traces_in_emit, P_log | now intros _]. }
      specialize (Hm w1). unfold trace_of in Hm.
      destruct (bind (log CRITICAL _) _ w1) as [[w2 t2] r2].
      cbn [fst snd] in *. now apply confirmed_app.
Qed.

Lemma main_asks (DRY_RUN : bool) (fuel : nat) :
  asks prompt P (main_try DRY_RUN fuel) -> asks prompt P (main DRY_RUN fuel).
Proof.
  intros Htry. unfold main.
  apply asks_bind; [apply asks_quiet; apply traces_in_emit, P_log|].
  intros _. apply asks_bind; [apply asks_quiet; now apply traces_in_remote|].
  intros _. now apply main_loop_asks.
Qed.

End Confirmation.

Section MainConfirmation.
Context {W : Type} `{Remote W}.

(** What follows a prompt of [main] opens no client. *)
Lemma after_prompt_no_client {A B} (b : bool) (m : M W A) (k : M W B) :
  traces_in (fun ev => is_create ev = false) m ->
  traces_in (fun ev => is_create ev = false) k ->
  traces_in (fun ev => is_create ev = false)
    (bind (ret b) (fun go => if go then bind m (fun _ => k) else k)).
Proof.
  intros Hm Hk. apply traces_in_bind; [apply traces_in_ret|].
  intros [|]; [|exact Hk]. apply traces_in_bind; [exact Hm | now intros _].
Qed.

Lemma main_try_asks_proceed (fuel : nat) :
  asks proceed_prompt is_batch_delete (main_try (W := W) false fuel).
Proof.
  unfold main_try. apply asks_bind.
  { apply asks_quiet. now apply scan_from_in. }
  intros scan_results. destruct (target_files scan_results) as [|p ps].
  { apply asks_quiet, traces_in_ret. }
  cbn [negb]. eapply asks_ext; [intros w; apply bind_assoc|].
  apply asks_input; [reflexivity| |].
  - intros a Ha. apply traces_in_bind; [apply traces_in_ret|].
    intros [|]; cbn [negb]; [|apply traces_in_ret].
    apply traces_in_bind; [now apply turbo_delete_files_in|]. intros _.
    apply traces_in_bind.
    { apply traces_in_bind; [now apply traces_in_remote|].
      intros a0. apply traces_in_ret. }
    intros [|]; (apply traces_in_bind; [|intros _; apply traces_in_ret]);
      [now apply clean_empty_folders_in | apply traces_in_ret].
  - intros a Ha. eapply asks_ext; [intros w; apply bind_ret_l|].
    cbn beta. rewrite Ha. cbn [negb]. apply asks_quiet, traces_in_ret.
Qed.

Lemma main_try_asks_clean (fuel : nat) :
  asks clean_prompt is_folder_call (main_try (W := W) false fuel).
Proof.
  unfold main_try. apply asks_bind.
  { apply asks_quiet. now apply scan_from_in. }
  intros scan_results. destruct (target_files scan_results) as [|p ps].
  { apply asks_quiet, traces_in_ret. }
  cbn [negb]. apply asks_bind.
  { apply asks_quiet. apply traces_in_bind; [now apply traces_in_remote|].
    intros a. apply traces_in_ret. }
  intros [|]; cbn [negb]; [|apply asks_quiet, traces_in_ret].
  apply asks_bind.
  { apply asks_quiet. now apply turbo_delete_files_in. }
  intros _. eapply asks_ext; [intros w; apply bind_assoc|].
  apply asks_input; [reflexivity| |].
  - intros a Ha. apply traces_in_bind; [apply traces_in_ret|].
    intros [|]; (apply traces_in_bind; [|intros _; apply traces_in_ret]);
      [now apply clean_empty_folders_in | apply traces_in_ret].
  - intros a Ha. eapply asks_ext; [intros w; apply bind_ret_l|].
    cbn beta. rewrite Ha.
    apply asks_quiet, traces_in_bind; [apply traces_in_ret|].
    intros _. apply traces_in_ret.
Qed.

(** X15.  [main] deletes nothing unasked.  In every run, each
    [files_delete_batch] call comes after the console answered [y]
    (or [Y]) to "Proceed with deletion?" in the same attempt, and each
    remote call of the folder clean-up (listing or delete of a single
    folder) comes after a [y] to "Clean empty folders?" in the same
    attempt; a later attempt, after a reconnect, has to ask again.
    In a dry run there is no such call at all. *)
Theorem main_asks_first (DRY_RUN : bool) (fuel : nat) (w : W) :
  confirmed proceed_prompt is_batch_delete false
    (trace_of (main DRY_RUN fuel w))
  /\ confirmed clean_prompt is_folder_call false
       (trace_of (main DRY_RUN fuel w)).
Proof.
  destruct DRY_RUN.
  - pose proof (main_dry fuel w) as Hdry. split; apply confirmed_quiet;
      (eapply Forall_impl; [|exact Hdry]); intros [] Hev;
      try reflexivity; try discriminate.
    destruct recursive; [reflexivity | discriminate].
  - split.
    + apply (main_asks proceed_prompt is_batch_delete);
        try reflexivity. apply main_try_asks_proceed.
    + apply (main_asks clean_prompt is_folder_call);
        try reflexivity. apply main_try_asks_clean.
Qed.

(** ** [main] ends, closed *)

Lemma main_try_no_client (DRY_RUN : bool) (fuel : nat) (w : W) :
  Forall (fun ev => is_close ev = false /\ is_create ev = false
                    /\ is_critical ev = false)
         (trace_of (main_try DRY_RUN fuel w)).
Proof. revert w. apply main_try_in; intros; repeat split; reflexivity. Qed.


Lemma bind_run {A B} (m : M W A) (f : A -> M W B) (w : W) :
  bind m f w
  = let '(w1, t1, r) := m w in
    match r with
    | Ret a => let '(w2, t2, r2) := f a w1 in (w2, t1 ++ t2, r2)
    | Raise e => (w1, t1, Raise e)
    | OutOfFuel => (w1, t1, OutOfFuel)
    end.
Proof. reflexivity. Qed.

(** The [except ReadTimeout] handler and the [finally] block behind
    it: a new client, the wait, the old client closed; or the
    constructor raises, and its exception leaves [main] after the
    [finally] block. *)
Lemma reconnect_run (retry_main : nat) (w : W) :
  let secs := inject_Z (10 * Z.of_nat retry_main) in
  let handler :=
    try_finally (create_dropbox_client ;; sleep secs) main_finally in
  exists w',
    handler w
    = (w', [CreateClient (Ok tt); Sleep secs; CloseClient;
            Log INFO Completed], Ret tt)
    \/ exists e,
         handler w
         = (w', [CreateClient (Err e); CloseClient; Log INFO Completed],
            Raise e).
Proof.
  cbn zeta. unfold try_finally, main_finally, create_dropbox_client, remote,
    bind, sleep, log, emit.
  destruct (create_client w) as [w1 [[]|e]]; exists w1;
    [left | right; exists e]; reflexivity.
Qed.


Lemma main_run (DRY_RUN : bool) (fuel : nat) (w : W) :
  main DRY_RUN fuel w
  = let '(w0, r) := create_client w in
    match r with
    | Ok _ =>
        let '(w1, t1, r1) := main_loop DRY_RUN 3 0 fuel w0 in
        (w1, Log INFO CleanupStarted :: CreateClient r :: t1, r1)
    | Err e => (w0, [Log INFO CleanupStarted; CreateClient r], Raise e)
    end.
Proof.
  unfold main, bind, log, emit, create_dropbox_client, remote.
  destruct (create_client w) as [w0 [[]|e]]; [|reflexivity].
  now destruct (main_loop DRY_RUN 3 0 fuel w0) as [[w1 t1] r1].
Qed.


End MainConfirmation.

(** ** Errors the scanner does not retry *)

(** X17.  An error of a page fetch that is neither an [ApiError] nor a
    [RequestException] (an authorization or rate-limit error, say)
    ends the scan on the spot, whatever is left of the retry budget:
    no wait, no further call.  The pending cursor (or the target
    folder) is recorded as failed, and the targets found so far are
    returned if there are any; otherwise the error is raised. *)
Theorem scan_stops_on_other_error {W : Type} `{Remote W}
    (fuel : nat) (st : scan_locals) (w : W) (e : exn) :
  outcome_of (fetch_page (s_cursor st) w) = Raise e ->
  is_api_or_request e = false ->
  scan_from (S fuel) st w
  = (world_of (fetch_page (s_cursor st) w),
     trace_of (fetch_page (s_cursor st) w)
     ++ Log ERROR (FatalScanError (s_processed_entries st) e)
     :: match target_files (s_results st) with
        | [] => []
        | _ :: _ => [Log INFO (ScanCompleted (s_processed_entries st))]
        end,
     match target_files (s_results st) with
     | [] => Raise e
     | _ :: _ =>
         Ret {| target_files := target_files (s_results st);
                other_files := other_files (s_results st);
                failed_folders :=
                  failed_folders (s_results st)
                  ++ [cursor_or_target (s_cursor st)] |}
     end).
Proof.
  intros He Hne. unfold scan_from, bind. cbn [scan_pages].
  unfold outcome_of, world_of, trace_of in *.
  destruct (fetch_page (s_cursor st) w) as [[w1 t1] r]. cbn [fst snd] in *.
  subst r. rewrite Hne. cbn [andb].
  unfold log, emit, append_failed. cbn [target_files].
  destruct (target_files (s_results st)) as [|p ps]; reflexivity.
Qed.

Lemma scan_stops_on_other_error_witness :
  scan_from 1 scan_init (Runs.script [Err (Exn AuthError "expired")] [] [])
  = (Runs.script [] [] [],
     [ListFolder TARGET_FOLDER true (Err (Exn AuthError "expired"));
      Log ERROR (FatalScanError 0 (Exn AuthError "expired"))],
     Raise (Exn AuthError "expired")).
Proof.
  rewrite (scan_stops_on_other_error 0 scan_init
             (Runs.script [Err (Exn AuthError "expired")] [] [])
             (Exn AuthError "expired")); reflexivity.
Defined.

(** ** The scan follows the cursor *)

Lemma follows_cursor_app (cur : option string) (t1 t2 : list event) :
  follows_cursor cur t1 -> follows_cursor (cursor_run cur t1) t2 ->
  follows_cursor cur (t1 ++ t2).
Proof.
  revert cur; induction t1 as [|ev t1 IH]; intros cur;
    cbn [app]; [auto|].
  destruct ev; cbn [follows_cursor cursor_run]; auto;
    intros [Hc Ht] H2; split; auto.
Qed.

Lemma cursor_run_app (cur : option string) (t1 t2 : list event) :
  cursor_run cur (t1 ++ t2) = cursor_run (cursor_run cur t1) t2.
Proof.
  revert cur; induction t1 as [|ev t1 IH]; intros cur; [reflexivity|].
  destruct ev; cbn [app cursor_run]; auto.
Qed.

Lemma progress_lines_cursor (cur : option string) (n len : nat) :
  follows_cursor cur (progress_lines n len)
  /\ cursor_run cur (progress_lines n len) = cur.
Proof.
  unfold progress_lines. generalize (filter (fun k => k mod 500 =? 0)
                                       (seq (S n) len)) as l.
  induction l as [|k l IH]; [split; [exact I | reflexivity] | exact IH].
Qed.

Section ScanCursor.
Context {W : Type} `{Remote W}.

Lemma robust_api_call_loop_cursor (cur : option string)
    (func : M W ListFolderResult) (attempts : list nat)
    (last_error : option exn) (ct : Q) :
  (forall w, follows_cursor cur (trace_of (func w))
             /\ cursor_run cur (trace_of (func w))
                = match outcome_of (func w) with
                  | Ret r => Some (cursor r)
                  | _ => cur
                  end) ->
  forall w,
    let run := robust_api_call_loop func attempts last_error ct w in
    follows_cursor cur (trace_of run)
    /\ cursor_run cur (trace_of run)
       = match outcome_of run with
         | Ret r => Some (cursor r)
         | _ => cur
         end.
Proof.
  intros Hf. cbn zeta. revert last_error ct.
  induction attempts as [|a rest IH]; intros last_error ct w.
  - cbn [robust_api_call_loop]. destruct last_error; cbn; auto.
  - cbn [robust_api_call_loop]. specialize (Hf w).
    unfold trace_of, outcome_of in *.
    destruct (func w) as [[w1 t1] [x|e|]]; cbn [fst snd] in *;
      try exact Hf.
    destruct (is_timeout_or_connection e); [|exact Hf].
    destruct Hf as [Hf1 Hf2].
    destruct (a <? MAX_RETRIES).
    + unfold bind, log, sleep, emit.
      specialize (IH (Some e) (ct * BACKOFF_FACTOR)%Q w1).
      destruct (robust_api_call_loop func rest _ _ w1) as [[w2 t2] r2].
      cbn [fst snd app] in *. destruct IH as [IH1 IH2]. split.
      * apply follows_cursor_app; [exact Hf1|]. rewrite Hf2. exact IH1.
      * rewrite cursor_run_app, Hf2. exact IH2.
    + specialize (IH (Some e) ct w1).
      destruct (robust_api_call_loop func rest _ _ w1) as [[w2 t2] r2].
      cbn [fst snd app] in *. destruct IH as [IH1 IH2]. split.
      * apply follows_cursor_app; [exact Hf1|]. rewrite Hf2. exact IH1.
      * rewrite cursor_run_app, Hf2. exact IH2.
Qed.

Lemma fetch_page_cursor (cur : option string) (w : W) :
  follows_cursor cur (trace_of (fetch_page cur w))
  /\ cursor_run cur (trace_of (fetch_page cur w))
     = match outcome_of (fetch_page cur w) with
       | Ret r => Some (cursor r)
       | _ => cur
       end.
Proof.
  destruct cur as [c|]; cbn [fetch_page]; unfold robust_api_call;
    apply robust_api_call_loop_cursor; intros w0;
    unfold call_list_folder, call_list_folder_continue, remote,
      trace_of, outcome_of.
  - destruct (files_list_folder_continue c w0) as [w1 [r|e]]; cbn; auto.
  - destruct (files_list_folder TARGET_FOLDER true (Some 2000) w0)
      as [w1 [r|e]]; cbn; auto.
Qed.

Lemma scan_pages_cursor (fuel : nat) (st : scan_locals) (w : W) :
  follows_cursor (s_cursor st) (trace_of (scan_pages fuel st w)).
Proof.
  revert st w; induction fuel as [|fuel IH]; intros st w; [exact I|].
  cbn [scan_pages].
  destruct (fetch_page_cursor (s_cursor st) w) as [Hf1 Hf2].
  unfold trace_of, outcome_of in *.
  destruct (fetch_page (s_cursor st) w) as [[w1 t1] [resp|e|]];
    cbn [fst snd] in *; try exact Hf1.
  - unfold process_entries. rewrite process_entries_from. cbn [app].
    destruct (progress_lines_cursor (Some (cursor resp))
                (s_processed_entries st) (List.length (entries resp)))
      as [Hp1 Hp2].
    destruct (has_more resp); cbn [negb fst snd].
    + unfold bind, sleep, emit.
      match goal with
      | |- context [scan_pages fuel ?s w1] =>
          pose proof (IH s w1) as Hr;
          destruct (scan_pages fuel s w1) as [[w3 t3] r3]
      end.
      cbn [fst snd app s_cursor] in *.
      apply follows_cursor_app; [exact Hf1|]. rewrite Hf2.
      apply follows_cursor_app; [exact Hp1|]. rewrite Hp2. exact Hr.
    + apply follows_cursor_app; [exact Hf1|]. now rewrite Hf2.
  - destruct (is_api_or_request e && (s_retry_count st <? Scan.MAX_RETRIES));
      [|exact Hf1].
    unfold bind, log, sleep, emit.
    match goal with
    | |- context [scan_pages fuel ?s w1] =>
        pose proof (IH s w1) as Hr;
        destruct (scan_pages fuel s w1) as [[w3 t3] r3]
    end.
    cbn [fst snd app s_cursor] in *.
    apply follows_cursor_app; [exact Hf1|]. rewrite Hf2. exact Hr.
Qed.

(** X18.  The listing calls of a scan follow the cursor.  The scan
    asks for the first page of [TARGET_FOLDER], recursively, over and
    over until a page arrives, and from then on every call is a
    [files_list_folder_continue] with the cursor of the page received
    last: no page is asked for twice once it has arrived, and none is
    skipped. *)
Theorem scan_follows_cursor (fuel : nat) (w : W) :
  follows_cursor None (trace_of (scan_target_folder fuel w)).
Proof.
  unfold scan_target_folder, scan_from, bind.
  pose proof (scan_pages_cursor fuel scan_init w) as Hp.
  unfold trace_of in *. cbn [scan_init s_cursor] in Hp.
  destruct (scan_pages fuel scan_init w) as [[w1 t1] [[st err]|e|]];
    cbn [fst snd] in *; try exact Hp.
  destruct err as [e|]; unfold log, emit.
  - destruct (target_files _); unfold raise, ret; cbn [fst snd];
      apply follows_cursor_app; try exact Hp; exact I.
  - unfold ret. cbn [fst snd]. apply follows_cursor_app; [exact Hp | exact I].
Qed.

End ScanCursor.

(** ** Reconnecting *)

Section Reconnect.
Context {W : Type} `{Remote W}.

(** *** What is raised was heard *)

Lemma heard_app_l (t1 t2 : list event) (e : exn) :
  heard t1 e -> heard (t1 ++ t2) e.
Proof. intros (ev & Hin & Hev). exists ev. split; [apply in_or_app|]; auto. Qed.

Lemma heard_app_r (t1 t2 : list event) (e : exn) :
  heard t2 e -> heard (t1 ++ t2) e.
Proof. intros (ev & Hin & Hev). exists ev. split; [apply in_or_app|]; auto. Qed.

Lemma relays_ret {A} (a : A) : relays (ret a : M W A).
Proof. intros w e Ho. discriminate. Qed.

Lemma relays_emit (ev : event) : relays (emit ev : M W unit).
Proof. intros w e Ho. discriminate. Qed.

Lemma relays_diverge {A} : relays (@diverge W A).
Proof. intros w e Ho. discriminate. Qed.

Lemma relays_bind {A B} (m : M W A) (f : A -> M W B) :
  relays m -> (forall a, relays (f a)) -> relays (bind m f).
Proof.
  intros Hm Hf w e. specialize (Hm w). unfold bind, outcome_of, trace_of in *.
  destruct (m w) as [[w1 t1] [a|e1|]]; cbn [fst snd] in *.
  - specialize (Hf a w1). unfold outcome_of, trace_of in Hf.
    destruct (f a w1) as [[w2 t2] r2]. cbn [fst snd] in *.
    intros Ho. apply heard_app_r. auto.
  - intros [= ->]. now apply Hm.
  - discriminate.
Qed.

Lemma relays_try_except {A} (m : M W A) (catches : exn -> bool)
    (handler : exn -> M W A) :
  relays m -> (forall e, relays (handler e)) ->
  relays (try_except m catches handler).
Proof.
  intros Hm Hh w e. specialize (Hm w).
  unfold try_except, outcome_of, trace_of in *.
  destruct (m w) as [[w1 t1] [a|e1|]]; cbn [fst snd] in *;
    try discriminate.
  destruct (catches e1); [|exact (Hm e)].
  specialize (Hh e1 w1). unfold outcome_of, trace_of in Hh.
  destruct (handler e1 w1) as [[w2 t2] r2]. cbn [fst snd] in *.
  intros Ho. apply heard_app_r. auto.
Qed.

Lemma relays_remote {A} (op : W -> W * reply A) (ev : reply A -> event) :
  (forall e, raised_by (ev (Err e)) = Some e) -> relays (remote op ev).
Proof.
  intros Hev w e. unfold remote, outcome_of, trace_of.
  destruct (op w) as [w1 [a|e1]]; cbn [fst snd]; [discriminate|].
  intros [= ->]. exists (ev (Err e)). split; [now left | apply Hev].
Qed.

Lemma robust_api_call_loop_relays {A} (func : M W A) :
  relays func ->
  forall attempts last_error ct w e,
    outcome_of (robust_api_call_loop func attempts last_error ct w) = Raise e ->
    heard (trace_of (robust_api_call_loop func attempts last_error ct w)) e
    \/ last_error = Some e
    \/ last_error = None /\ attempts = [].
Proof.
  intros Hf attempts.
  induction attempts as [|a rest IH]; intros last_error ct w e.
  - cbn [robust_api_call_loop]. unfold bind, log, emit, raise, outcome_of.
    destruct last_error as [e1|]; cbn [fst snd]; [|now auto].
    intros [= ->]. auto.
  - cbn [robust_api_call_loop]. specialize (Hf w).
    unfold outcome_of, trace_of in *.
    destruct (func w) as [[w1 t1] [x|e1|]]; cbn [fst snd] in *;
      try discriminate.
    destruct (is_timeout_or_connection e1); [|intros Ho; left; auto].
    assert (Hstep : forall ct' w2 t2 r2 pre,
              robust_api_call_loop func rest (Some e1) ct' w1 = (w2, t2, r2) ->
              r2 = Raise e -> heard (t1 ++ pre ++ t2) e).
    { intros ct' w2 t2 r2 pre Er ->.
      specialize (IH (Some e1) ct' w1 e). rewrite Er in IH.
      cbn [fst snd] in IH.
      destruct (IH eq_refl) as [Hh|[[= ->]|[[=] _]]].
      - now apply heard_app_r, heard_app_r.
      - apply heard_app_l. auto. }
    destruct (a <? MAX_RETRIES).
    + unfold bind, log, sleep, emit.
      destruct (robust_api_call_loop func rest (Some e1)
                  (ct * BACKOFF_FACTOR)%Q w1) as [[w2 t2] r2] eqn:Er.
      cbn [fst snd app]. intros Ho. left.
      apply (Hstep _ _ _ _ [_; _] Er Ho).
    + destruct (robust_api_call_loop func rest (Some e1) ct w1)
        as [[w2 t2] r2] eqn:Er.
      cbn [fst snd]. intros Ho. left.
      apply (Hstep _ _ _ _ [] Er Ho).
Qed.

Lemma fetch_page_relays (c : option string) : relays (fetch_page c).
Proof.
  intros w e Ho. unfold fetch_page, robust_api_call in *.
  destruct c as [c|];
    (eapply robust_api_call_loop_relays in Ho as [Hh|[[=]|[_ [=]]]];
     [exact Hh | now apply relays_remote]).
Qed.

Lemma scan_pages_relays (fuel : nat) (st : scan_locals) (w : W) :
  match outcome_of (scan_pages fuel st w) with
  | Ret (_, Some e) => heard (trace_of (scan_pages fuel st w)) e
  | Raise _ => False
  | _ => True
  end.
Proof.
  revert st w; induction fuel as [|fuel IH]; intros st w; [exact I|].
  cbn [scan_pages]. pose proof (fetch_page_relays (s_cursor st) w) as Hf.
  unfold outcome_of, trace_of in *.
  destruct (fetch_page (s_cursor st) w) as [[w1 t1] [resp|e|]];
    cbn [fst snd] in *; [| |exact I].
  - destruct (process_entries (entries resp) st) as [st1 t2].
    destruct (has_more resp); cbn [negb fst snd]; [|exact I].
    unfold bind, sleep, emit.
    match goal with
    | |- context [scan_pages fuel ?s w1] =>
        pose proof (IH s w1) as Hr;
        destruct (scan_pages fuel s w1) as [[w3 t3] r3]
    end.
    cbn [fst snd app] in *. destruct r3 as [[st3 [e3|]]|e3|]; auto.
    rewrite app_assoc. apply heard_app_r.
    destruct Hr as (ev & Hin & Hev). exists ev. split; [now right | exact Hev].
  - destruct (is_api_or_request e && (s_retry_count st <? Scan.MAX_RETRIES));
      [|cbn [fst snd]; auto].
    unfold bind, log, sleep, emit.
    match goal with
    | |- context [scan_pages fuel ?s w1] =>
        pose proof (IH s w1) as Hr;
        destruct (scan_pages fuel s w1) as [[w3 t3] r3]
    end.
    cbn [fst snd app] in *. destruct r3 as [[st3 [e3|]]|e3|]; auto.
    apply heard_app_r.
    destruct Hr as (ev & Hin & Hev). exists ev.
    split; [right; now right | exact Hev].
Qed.

Lemma scan_from_relays (fuel : nat) (st : scan_locals) :
  relays (scan_from fuel st).
Proof.
  intros w e. unfold scan_from, bind.
  pose proof (scan_pages_relays fuel st w) as Hs.
  unfold outcome_of, trace_of in *.
  destruct (scan_pages fuel st w) as [[w1 t1] [[st1 [e1|]]|e1|]];
    cbn [fst snd] in *; try contradiction; try discriminate.
  - unfold log, emit, raise, ret. cbn [fst snd].
    destruct (target_files _); cbn [fst snd]; [|discriminate].
    intros [= ->]. now apply heard_app_l.
Qed.

Lemma In_attempt_events (b : list string) (r : reply unit)
    (l : list (list string * reply unit)) :
  In (b, r) l ->
  In (DeleteBatch b r) (flat_map attempt_events l)
  /\ In (DeleteBatch b r) (flat_map retry_events l).
Proof.
  intros Hin. split; apply in_flat_map; exists (b, r);
    (split; [exact Hin|]); cbn; auto.
Qed.

Lemma turbo_delete_files_relays (DRY_RUN : bool) (file_paths : list string) :
  relays (turbo_delete_files DRY_RUN file_paths).
Proof.
  intros w e Ho. destruct DRY_RUN.
  - destruct (turbo_delete_files_dry file_paths w) as (_ & _ & Hr).
    cbn zeta in Hr. congruence.
  - destruct (turbo_delete_files_live (fun _ => True) (fun _ _ => True)
                ltac:(now split) file_paths w I)
      as (stages & rs2 & pool_trace & _ & _ & _ & Ht & Hp & _ & _ & Hout).
    cbn zeta in *. rewrite Ho in Hout. destruct Hout as [_ (b & Hb)].
    exists (DeleteBatch b (Err e)). split; [|reflexivity].
    rewrite Ht. apply in_or_app. apply in_app_or in Hb as [Hb|Hb].
    + left. eapply Permutation_in; [symmetry; exact Hp|].
      now apply In_attempt_events.
    + right. now apply In_attempt_events.
Qed.

Lemma check_folder_relays (DRY_RUN : bool) (remaining retry_count : nat)
    (folder : string) :
  relays (check_folder DRY_RUN remaining retry_count folder).
Proof.
  revert retry_count; induction remaining as [|n IH]; intros rc;
    cbn [check_folder]; [apply relays_ret|].
  apply relays_try_except.
  - destruct (excluded_exact folder); cbn [negb]; [apply relays_ret|].
    apply relays_bind.
    + unfold should_delete. apply relays_try_except.
      * apply relays_bind; [now apply relays_remote|].
        intros r. apply relays_ret.
      * intros e. apply relays_bind; [apply relays_emit|].
        intros _. apply relays_ret.
    + intros [|]; [|apply relays_ret].
      destruct DRY_RUN; [apply relays_emit|].
      apply relays_bind; [now apply relays_remote|].
      intros _. apply relays_emit.
  - intros e. apply relays_bind; [apply relays_emit|]. intros _.
    apply relays_bind; [apply relays_emit|]. intros _.
    apply relays_bind; [|intros _; apply IH].
    destruct (S rc =? MAX_RETRIES); [apply relays_emit | apply relays_ret].
Qed.

Lemma clean_empty_folders_relays (DRY_RUN : bool)
    (target_files : list string) :
  relays (clean_empty_folders DRY_RUN target_files).
Proof.
  unfold clean_empty_folders.
  destruct (build_folder_list target_files []) as [folders|];
    [|apply relays_diverge].
  intros w.
  assert (Hall : forall l, relays (check_folders DRY_RUN l)).
  { induction l as [|f fs IH]; cbn [check_folders]; [apply relays_ret|].
    apply relays_bind; [apply check_folder_relays | intros _; exact IH]. }
  apply Hall.
Qed.

Lemma main_try_relays (DRY_RUN : bool) (fuel : nat) :
  relays (main_try DRY_RUN fuel).
Proof.
  unfold main_try. apply relays_bind; [apply scan_from_relays|].
  intros scan_results. destruct (target_files scan_results) as [|p ps];
    [apply relays_ret|].
  apply relays_bind.
  { destruct DRY_RUN; cbn [negb]; [apply relays_ret|].
    apply relays_bind; [now apply relays_remote|].
    intros a. apply relays_ret. }
  intros [|]; cbn [negb]; [|apply relays_ret].
  apply relays_bind; [apply turbo_delete_files_relays|]. intros _.
  apply relays_bind.
  { destruct DRY_RUN; cbn [negb]; [apply relays_ret|].
    apply relays_bind; [now apply relays_remote|].
    intros a. apply relays_ret. }
  intros [|]; (apply relays_bind; [|intros _; apply relays_ret]);
    [apply clean_empty_folders_relays | apply relays_ret].
Qed.

(** *** The attempts of [main], one after the other *)

Lemma reconnects_app (seen : bool) (k : nat) (t1 t2 : list event) :
  Forall (fun ev => is_close ev = false /\ is_create ev = false
                    /\ is_critical ev = false) t1 ->
  reconnects (seen || existsb timed_out t1) k t2 ->
  reconnects seen k (t1 ++ t2).
Proof.
  intros Hall. revert seen.
  induction Hall as [|ev t1 (_ & Hcr & Hcrit) Ht1 IH]; intros seen Ht2.
  - cbn [existsb] in Ht2. now rewrite orb_false_r in Ht2.
  - cbn [existsb] in Ht2. rewrite orb_assoc in Ht2. apply IH in Ht2.
    destruct ev as [| | | | | |lvl msg| |]; try discriminate; try exact Ht2.
    destruct lvl; try discriminate; exact Ht2.
Qed.

Lemma heard_timed_out (t : list event) (e : exn) :
  heard t e -> is_read_timeout e = true -> existsb timed_out t = true.
Proof.
  intros (ev & Hin & Hev) He. apply existsb_exists. exists ev.
  split; [exact Hin|]. unfold timed_out. now rewrite Hev.
Qed.

Lemma main_loop_reconnects (DRY_RUN : bool) (fuel remaining retry_main : nat)
    (w : W) :
  reconnects false (S retry_main)
    (trace_of (main_loop DRY_RUN remaining retry_main fuel w)).
Proof.
  revert retry_main w. induction remaining as [|n IH]; intros retry_main w;
    [exact I|].
  cbn [main_loop]. pose proof (main_try_no_client DRY_RUN fuel w) as Ht.
  pose proof (main_try_relays DRY_RUN fuel w) as Hr.
  unfold trace_of, outcome_of in *.
  destruct (main_try DRY_RUN fuel w) as [[w1 t1] [x|e|]];
    cbn [fst snd] in *.
  - unfold main_finally, bind, log, emit. cbn [fst snd app].
    apply reconnects_app; [exact Ht|]. cbn. exact I.
  - destruct (is_read_timeout e) eqn:Ee.
    + rewrite bind_run.
      assert (Hseen : false || existsb timed_out t1 = true)
        by (cbn [orb]; apply (heard_timed_out t1 e); auto).
      destruct (reconnect_run (S retry_main) w1) as [w' [Hh|[e' Hh]]];
        cbn zeta in Hh; rewrite Hh.
      * specialize (IH (S retry_main) w').
        destruct (main_loop DRY_RUN n (S retry_main) fuel w') as [[w2 t2] r2].
        cbn [fst snd app] in *. apply reconnects_app; [exact Ht|].
        rewrite Hseen. cbn [reconnects]. split; [reflexivity|].
        split; [now exists t2 | exact IH].
      * cbn [fst snd]. apply reconnects_app; [exact Ht|].
        rewrite Hseen. cbn [reconnects]. split; [reflexivity|].
        split; [reflexivity | exact I].
    + unfold main_finally, bind, log, emit. cbn [fst snd app].
      apply reconnects_app; [exact Ht|]. cbn. reflexivity.
  - rewrite <- (app_nil_r t1). apply reconnects_app; [exact Ht | exact I].
Qed.

(** X19.  How [main] reconnects.  The run starts by logging and
    opening a client; when the constructor raises there, nothing
    follows.  Every client opened later is the reconnect after a
    [ReadTimeout]: a call of the attempt before it was answered with
    one.  The reconnect is followed at once by the wait of
    [10 * retry_main] seconds (10, 20, 30) and by the [finally] block,
    which closes the client and logs the completion line before the
    next attempt, if any, begins; when the constructor raises in the
    reconnect, the [finally] block follows at once and the run is
    over.  The log line of a fatal error is followed by the [finally]
    block and nothing else. *)
Theorem main_reconnects (DRY_RUN : bool) (fuel : nat) (w : W) :
  exists r t,
    trace_of (main DRY_RUN fuel w)
    = Log INFO CleanupStarted :: CreateClient r :: t
    /\ match r with
       | Ok _ => reconnects false 1 t
       | Err _ => t = []
       end.
Proof.
  rewrite main_run. destruct (create_client w) as [w0 [[]|e]].
  - pose proof (main_loop_reconnects DRY_RUN fuel 3 0 w0) as Hl.
    unfold trace_of in *.
    destruct (main_loop DRY_RUN 3 0 fuel w0) as [[w1 t1] r1].
    cbn [fst snd] in *. now exists (Ok tt), t1.
  - now exists (Err e), [].
Qed.

End Reconnect.

(** ** The further properties on concrete runs *)

(** A live run whose first prompt is answered [Y] and whose second is
    answered [n]: the memo is deleted, the folder clean-up is not
    started. *)
Example main_live_yes_then_no :
  let w := Runs.script
             [Scripted.page [FileMetadata "memo style.pdf" Runs.sub_memo]]
             [] [Ok "Y"; Ok "n"] in
  let run := main false 5 w in
  outcome_of run = Ret tt
  /\ delete_attempts (trace_of run) = [([Runs.sub_memo], Ok tt)]
  /\ filter is_folder_call (trace_of run) = [].
Proof. repeat split; vm_compute; reflexivity. Qed.

(** The same run with [n] for an answer: the scan, the prompt, and
    nothing else but the [finally] block. *)
Example main_live_no :
  let w := Runs.script
             [Scripted.page [FileMetadata "memo style.pdf" Runs.sub_memo]]
             [] [Ok "n"] in
  trace_of (main false 5 w)
  = [Log INFO CleanupStarted; CreateClient (Ok tt);
     ListFolder TARGET_FOLDER true
       (Scripted.page [FileMetadata "memo style.pdf" Runs.sub_memo]);
     Log INFO (ScanCompleted 1);
     Input proceed_prompt (Ok "n");
     CloseClient; Log INFO Completed].
Proof. vm_compute. reflexivity. Qed.

(** Three scans in a row time out (four fetches by the scanner, six
    attempts of the wrapper for each): three reconnects, with waits of
    10, 20 and 30 seconds, and [main] returns. *)
Example main_three_timeouts :
  let w := Runs.script (repeat (Runs.timeout "t") 72) [] [] in
  let run := main true 5 w in
  outcome_of run = Ret tt
  /\ List.length (filter is_close (trace_of run)) = 3
  /\ List.length (filter is_create (trace_of run)) = 4
  /\ filter (fun ev => match ev with
                       | Sleep q => Qle_bool 10 q && Qle_bool q 30
                       | _ => false
                       end) (trace_of run)
     = [Sleep (inject_Z 10); Sleep (inject_Z 20); Sleep (inject_Z 30)].
Proof. repeat split; vm_compute; reflexivity. Qed.

(** The checkers do tell traces apart: a delete without a [y] before
    it, a first page asked for again after it arrived, and a client
    opened at any other place are refused. *)
Example confirmed_refuses_unasked_delete :
  ~ confirmed proceed_prompt is_batch_delete false
      [CreateClient (Ok tt); Input proceed_prompt (Ok "n");
       DeleteBatch [Runs.sub_memo] (Ok tt)].
Proof. cbn. intros [_ [_ [Hd _]]]. specialize (Hd eq_refl). discriminate. Qed.

Example follows_cursor_refuses_restart :
  ~ follows_cursor None
      [ListFolder TARGET_FOLDER true (Scripted.page []);
       ListFolder TARGET_FOLDER true (Scripted.page [])].
Proof. cbn. intros [_ [[Hc _] _]]. discriminate. Qed.

Example reconnects_refuses_stray_client :
  ~ reconnects false 1
      [Log INFO (ScanCompleted 0);
       CreateClient (Ok tt); Sleep (inject_Z 10);
       CloseClient; Log INFO Completed].
Proof. cbn. intros [Hseen _]. discriminate. Qed.

Example reconnects_refuses_missing_wait :
  ~ reconnects false 1
      [ListFolder TARGET_FOLDER true (Runs.timeout "t");
       CreateClient (Ok tt); CloseClient; Log INFO Completed].
Proof. cbn. intros [_ [[rest Hr] _]]. discriminate. Qed.

(** Without a token the client constructor raises, and so does [main],
    before any attempt. *)
Example main_no_token :
  let e := Exn OtherError "BadInputException" in
  main false 5 (Runs.with_clients [Err e] (Runs.script [] [] []))
  = (Runs.script [] [] [],
     [Log INFO CleanupStarted; CreateClient (Err e)], Raise e).
Proof. vm_compute. reflexivity. Qed.

(** A scan times out and the reconnect fails: the [finally] block
    still runs, then the exception of the constructor leaves [main]. *)
Example main_reconnect_fails :
  let e := Exn OtherError "BadInputException" in
  let w := Runs.with_clients [Ok tt; Err e]
             (Runs.script (repeat (Runs.timeout "t") 24) [] []) in
  let run := main false 5 w in
  outcome_of run = Raise e
  /\ skipn (List.length (trace_of run) - 3) (trace_of run)
     = [CreateClient (Err e); CloseClient; Log INFO Completed].
Proof. split; vm_compute; reflexivity. Qed.

(** Two candidates of the same depth are visited in the order in which
    the loop meets them in the set. *)
Example clean_empty_folders_set_order :
  let a := "/$ jlr data migration/david/a/memo style.pdf"%string in
  let b := "/$ jlr data migration/david/b/memo style.pdf"%string in
  let listed w :=
    filter is_folder_call
      (trace_of (clean_empty_folders true [a; b] w)) in
  listed (Runs.script [] [] [])
  = [ListFolder "/$ jlr data migration/david/a" false
       (Ok Scripted.empty_page);
     ListFolder "/$ jlr data migration/david/b" false
       (Ok Scripted.empty_page)]
  /\ listed (Runs.ordered [1] (Runs.script [] [] []))
     = [ListFolder "/$ jlr data migration/david/b" false
          (Ok Scripted.empty_page);
        ListFolder "/$ jlr data migration/david/a" false
          (Ok Scripted.empty_page)].
Proof. split; vm_compute; reflexivity. Qed.

(** A path under more slashes than [TARGET_FOLDER] has characters:
    the walk does not end. *)
Example clean_empty_folders_slashes :
  outcome_of (clean_empty_folders true
                ["////////////////////////////memo style.pdf"%string]
                (Runs.script [] [] []))
  = OutOfFuel.
Proof. vm_compute. reflexivity. Qed.
